(** * v8-analytics: heap snapshot decoding and leak-point ranking

    A shallow embedding of [lib/mem_analysis.js]: [handleHeapData] (the
    decoder that turns the flat [nodes] / [edges] arrays of a V8 heap
    snapshot into a node graph plus the [edgesMap] adjacency index),
    [peakLeakPoint] (the bounded selection of suspicious nodes by retained
    size) and [fetchHeapUsage] (their composition).

    JavaScript values are modelled as the code uses them: raw array cells
    are integers ([Z]); reading past the end of an array gives
    [undefined], modelled by [None]; [NaN] produced by arithmetic on
    [undefined] is [None] as well; objects used as dictionaries are
    [gmap]s; a thrown [TypeError] and a loop that never exits are explicit
    outcomes. *)

From Stdlib Require Import ZArith List Sorted Permutation Lia.
From stdpp Require Import base option list gmap strings pretty sorting.

Open Scope Z_scope.

(** ** Outcomes of a JavaScript call *)

Inductive outcome (A : Type) : Type :=
| Ok (a : A)
| TypeError
| Diverges.
Arguments Ok {A} a.
Arguments TypeError {A}.
Arguments Diverges {A}.

#[global] Instance outcome_ret : MRet outcome := fun A a => Ok a.
#[global] Instance outcome_bind : MBind outcome := fun A B k m =>
  match m with
  | Ok a => k a
  | TypeError => TypeError
  | Diverges => Diverges
  end.

(** ** JavaScript primitives used by the module *)

(** A JavaScript number as far as this module can produce one: the cells
    of the snapshot are integers, [Number(undefined)] is [NaN], and the
    only division is by a field count. [Num n d] is the fraction [n/d] in
    lowest terms. *)
Inductive number : Type :=
| NaN
| Infinity (negative : bool)
| Num (n : Z) (d : positive).

Definition Number (x : option Z) : number :=
  match x with
  | Some z => Num z 1
  | None => NaN
  end.

(** [a / b] for a cell [a] (maybe [undefined]) and a length [b >= 0]:
    the quotient in lowest terms, [Infinity] or [NaN] when [b] is 0. *)
Definition js_div (a : option Z) (b : Z) : number :=
  match a with
  | None => NaN
  | Some a =>
      if b =? 0 then
        (if a =? 0 then NaN else Infinity (a <? 0))
      else
        let g := Z.gcd a b in
        Num (a / g) (Z.to_pos (b / g))
  end.

(** [a + b] and [a * b] where [a] may be [undefined] / [NaN]. *)
Definition js_add (a : option Z) (b : Z) : option Z := (fun x => x + b) <$> a.
Definition js_mul (a : option Z) (b : Z) : option Z := (fun x => x * b) <$> a.
Definition js_plus (a b : option Z) : option Z :=
  match a, b with
  | Some x, Some y => Some (x + y)
  | _, _ => None
  end.

(** [arr[i]]: [undefined] for a negative, missing or [NaN] index. *)
Definition js_get {A} (arr : list A) (i : option Z) : option A :=
  match i with
  | Some z => if z <? 0 then None else arr !! Z.to_nat z
  | None => None
  end.

(** [Array.prototype.slice(start, end)] with both arguments given:
    [NaN] counts as 0, a negative bound is relative to the end, and both
    bounds are clamped to the array. *)
Definition to_integer (x : option Z) : Z := default 0 x.

Definition relative_index (len rel : Z) : Z :=
  if rel <? 0 then Z.max (len + rel) 0 else Z.min rel len.

Definition js_slice {A} (arr : list A) (start end_ : option Z) : list A :=
  let len := Z.of_nat (length arr) in
  let k := relative_index len (to_integer start) in
  let final := relative_index len (to_integer end_) in
  take (Z.to_nat (final - k)) (drop (Z.to_nat k) arr).

(** String conversion inside a template literal or [String(...)]. *)
Definition num_to_string (x : option Z) : string :=
  match x with
  | Some z => pretty z
  | None => "undefined"
  end.

Definition str_to_string (x : option string) : string := default "undefined" x.

(** ** The snapshot (input) *)

(** An element of [meta.node_types] / [meta.edge_types]: the first one is
    the array of type names, the others are strings such as ["number"]. *)
Inductive type_entry : Type :=
| Enum (names : list string)
| Prim (s : string).

Record Meta := {
  node_fields : list string;
  node_types : list type_entry;
  edge_fields : list string;
  edge_types : list type_entry
}.

Record Snapshot := {
  meta : Meta;
  root_index : option Z
}.

Record HeapData := {
  snapshot : Snapshot;
  nodes : list Z;
  edges : list Z;
  strings : list string
}.

(** [table[0][k]]: throws when [table[0]] is [undefined]; indexing a
    string gives the character at that position. *)
Definition char_at (s : string) (k : option Z) : option string :=
  match k with
  | Some z =>
      if z <? 0 then None
      else (fun c => String c EmptyString) <$> String.get (Z.to_nat z) s
  | None => None
  end.

Definition type_lookup (table : list type_entry) (k : option Z)
  : outcome (option string) :=
  match table !! 0%nat with
  | Some (Enum names) => Ok (js_get names k)
  | Some (Prim s) => Ok (char_at s k)
  | None => TypeError
  end.

(** From v8/include/v8-profiler.h *)
Module HeapGraphEdgeType.
Definition kContextVariable : Z := 0.
Definition kElement : Z := 1.
Definition kProperty : Z := 2.
Definition kInternal : Z := 3.
Definition kHidden : Z := 4.
Definition kShortcut : Z := 5.
Definition kWeak : Z := 6.
End HeapGraphEdgeType.

(** ** The decoded graph (output) *)

Module Edge.
Record t := {
  index : number;
  type : option string;
  name_or_index : string;
  to_node : string
}.
End Edge.

Module Node.
Record t := {
  index : Z;
  type : option string;
  name : option string;
  id : string;
  self_size : number;
  retain_size : number;
  edge_count : option Z;
  trace_node_id : option Z;
  children : list Edge.t;
  (* added later by peakLeakPoint *)
  retainedSize : option Z;
  distance : option Z
}.
End Node.

(** An element of [from_ids] / [to_ids]. *)
Module AddressInfo.
Record t := {
  id : string;
  type : option string;
  name_or_index : string
}.
End AddressInfo.

Record EdgeEntry := {
  from_ids : list AddressInfo.t;
  to_ids : list AddressInfo.t
}.

Record HeapGraph := {
  heapMap : gmap Z Node.t;
  heapArray : list Node.t;
  edgesMap : gmap string EdgeEntry;
  rootID : string;
  rootIndex : Z
}.

(** ** handleHeapData *)

(** [x || d] on a number that may be absent: [undefined] and [0] are
    falsy. *)
Definition or_default (x : option Z) (d : Z) : Z :=
  match x with
  | Some z => if z =? 0 then d else z
  | None => d
  end.

(** Lines 87-93: record [info] under [from_ids] of the entry at [key],
    creating the entry on first reference. *)
Definition push_from_ids (edgesMap : gmap string EdgeEntry) (key : string)
    (info : AddressInfo.t) : gmap string EdgeEntry :=
  match edgesMap !! key with
  | Some entry =>
      <[key := {| from_ids := from_ids entry ++ [info];
                  to_ids := to_ids entry |}]> edgesMap
  | None => <[key := {| from_ids := [info]; to_ids := [] |}]> edgesMap
  end.

(** Lines 101-105, the same for [to_ids]. *)
Definition push_to_ids (edgesMap : gmap string EdgeEntry) (key : string)
    (info : AddressInfo.t) : gmap string EdgeEntry :=
  match edgesMap !! key with
  | Some entry =>
      <[key := {| from_ids := from_ids entry;
                  to_ids := to_ids entry ++ [info] |}]> edgesMap
  | None => <[key := {| from_ids := []; to_ids := [info] |}]> edgesMap
  end.

(** Lines 69-70: the label of an edge from its raw record. *)
Definition is_element_or_hidden (raw_type : option Z) : bool :=
  match raw_type with
  | Some t =>
      (t =? HeapGraphEdgeType.kElement) || (t =? HeapGraphEdgeType.kHidden)
  | None => false
  end.

Definition edge_label (strings : list string) (node_edge : list Z) : string :=
  if is_element_or_hidden (node_edge !! 0%nat)
  then "[" +:+ num_to_string (node_edge !! 1%nat) +:+ "]"
  else str_to_string (js_get strings (node_edge !! 1%nat)).

(** Lines 72-77: [desc_node_edge]. *)
Definition decode_edge (heapData : HeapData) (node_edge : list Z)
  : outcome Edge.t :=
  let node_fields_length :=
    Z.of_nat (length (node_fields (meta (snapshot heapData)))) in
  let name_or_index := edge_label (strings heapData) node_edge in
  type ← type_lookup (edge_types (meta (snapshot heapData)))
                      (node_edge !! 0%nat);
  Ok {| Edge.index := js_div (node_edge !! 2%nat) node_fields_length;
        Edge.type := type;
        Edge.name_or_index := name_or_index;
        Edge.to_node :=
          "@" +:+ num_to_string
                    (js_get (nodes heapData) (js_add (node_edge !! 2%nat) 2)) |}.

(** Lines 78-105: what one decoded edge of the node [desc_id] adds to the
    node's children and to [edgesMap]. *)
Definition record_edge (desc_id : string) (e : Edge.t)
    (st : list Edge.t * gmap string EdgeEntry)
  : list Edge.t * gmap string EdgeEntry :=
  let '(children, edgesMap) := st in
  let from_address_info :=
    {| AddressInfo.id := desc_id;
       AddressInfo.type := Edge.type e;
       AddressInfo.name_or_index := Edge.name_or_index e |} in
  let edgesMap := push_from_ids edgesMap (Edge.to_node e) from_address_info in
  let to_address_info :=
    {| AddressInfo.id := Edge.to_node e;
       AddressInfo.type := Edge.type e;
       AddressInfo.name_or_index := Edge.name_or_index e |} in
  let edgesMap := push_to_ids edgesMap desc_id to_address_info in
  (children ++ [e], edgesMap).

(** The inner [for] loop (lines 67-107) over the edge records of one
    node, [i] stepping by [edge_fields.length]. [fuel] bounds the number
    of iterations; running out of it stands for a loop that never exits. *)
Fixpoint edge_loop (fuel : nat) (heapData : HeapData) (desc_id : string)
    (node_edges : list Z) (i : Z)
    (st : list Edge.t * gmap string EdgeEntry)
  : outcome (list Edge.t * gmap string EdgeEntry) :=
  match fuel with
  | O => Diverges
  | S fuel =>
      let node_edge_length := Z.of_nat (length node_edges) in
      let edge_fields_length :=
        Z.of_nat (length (edge_fields (meta (snapshot heapData)))) in
      if i <? node_edge_length then
        let node_edge :=
          js_slice node_edges (Some i) (Some (i + edge_fields_length)) in
        e ← decode_edge heapData node_edge;
        edge_loop fuel heapData desc_id node_edges (i + edge_fields_length)
                  (record_edge desc_id e st)
      else Ok st
  end.

(** The state carried by the outer loop. *)
Record DecodeState := {
  ds_offset : option Z;
  ds_heapMap : gmap Z Node.t;
  ds_heapArray : list Node.t;
  ds_edgesMap : gmap string EdgeEntry
}.

(** Lines 50-64: [desc_node] before its edges are decoded. The loop
    counter [i] is always a multiple of the record width, so the
    division that gives [index] is exact. *)
Definition decode_node (heapData : HeapData) (i : Z) : outcome Node.t :=
  let node_fields_length :=
    Z.of_nat (length (node_fields (meta (snapshot heapData)))) in
  let node :=
    js_slice (nodes heapData) (Some i) (Some (i + node_fields_length)) in
  let edge_count := node !! 4%nat in
  let trace_node_id := node !! 5%nat in
  type ← type_lookup (node_types (meta (snapshot heapData))) (node !! 0%nat);
  Ok {| Node.index := i / node_fields_length;
        Node.type := type;
        Node.name := js_get (strings heapData) (node !! 1%nat);
        Node.id := "@" +:+ num_to_string (node !! 2%nat);
        Node.self_size := Number (node !! 3%nat);
        Node.retain_size := Number (node !! 3%nat);
        Node.edge_count := edge_count;
        Node.trace_node_id := trace_node_id;
        Node.children := [];
        Node.retainedSize := None;
        Node.distance := None |}.

Definition with_children (n : Node.t) (children : list Edge.t) : Node.t :=
  {| Node.index := Node.index n;
     Node.type := Node.type n;
     Node.name := Node.name n;
     Node.id := Node.id n;
     Node.self_size := Node.self_size n;
     Node.retain_size := Node.retain_size n;
     Node.edge_count := Node.edge_count n;
     Node.trace_node_id := Node.trace_node_id n;
     Node.children := children;
     Node.retainedSize := Node.retainedSize n;
     Node.distance := Node.distance n |}.

(** One iteration of the outer loop (lines 50-115). *)
Definition node_step (heapData : HeapData) (i : Z) (st : DecodeState)
  : outcome DecodeState :=
  let edge_fields_length :=
    Z.of_nat (length (edge_fields (meta (snapshot heapData)))) in
  desc_node ← decode_node heapData i;
  let span := js_mul (Node.edge_count desc_node) edge_fields_length in
  let node_edges :=
    js_slice (edges heapData) (ds_offset st) (js_plus (ds_offset st) span) in
  r ← edge_loop (S (length node_edges)) heapData (Node.id desc_node)
                 node_edges 0 ([], ds_edgesMap st);
  let desc_node := with_children desc_node r.1 in
  Ok {| ds_offset := js_plus (ds_offset st) span;
        ds_heapMap := <[Node.index desc_node := desc_node]> (ds_heapMap st);
        ds_heapArray := ds_heapArray st ++ [desc_node];
        ds_edgesMap := r.2 |}.

(** The outer [for] loop (lines 48-116), [i] stepping by
    [node_fields.length]. *)
Fixpoint node_loop (fuel : nat) (heapData : HeapData) (i : Z)
    (st : DecodeState) : outcome DecodeState :=
  match fuel with
  | O => Diverges
  | S fuel =>
      let nodes_length := Z.of_nat (length (nodes heapData)) in
      let node_fields_length :=
        Z.of_nat (length (node_fields (meta (snapshot heapData)))) in
      if i <? nodes_length then
        st ← node_step heapData i st;
        node_loop fuel heapData (i + node_fields_length) st
      else Ok st
  end.

Definition handleHeapData (heapData : HeapData) : outcome HeapGraph :=
  let rootIndex := or_default (root_index (snapshot heapData)) 0 in
  let rootID :=
    "@" +:+ num_to_string (js_get (nodes heapData) (Some (rootIndex + 2))) in
  st ← node_loop (S (length (nodes heapData))) heapData 0
                  {| ds_offset := Some 0; ds_heapMap := ∅;
                     ds_heapArray := []; ds_edgesMap := ∅ |};
  Ok {| heapMap := ds_heapMap st;
        heapArray := ds_heapArray st;
        edgesMap := ds_edgesMap st;
        rootID := rootID;
        rootIndex := rootIndex |}.

(** ** peakLeakPoint *)

(** An element of [leakPoint]. *)
Module LeakPoint.
Record t := {
  index : Z;
  id : string;
  size : Z
}.
End LeakPoint.

(** What the module reads from [HeapSnapshotWorker.JSHeapSnapshot], the
    analysis engine it requires: the retained size and the distance of
    each node, and two objects that are passed on untouched. *)
Module HeapSnapshotWorker.
Record JSHeapSnapshot (Statistics Aggregates : Type) := {
  _retainedSizes : list Z;
  _nodeDistances : list Z;
  _statistics : Statistics;
  _aggregates_allObjects : Aggregates
}.
Arguments _retainedSizes {_ _} _.
Arguments _nodeDistances {_ _} _.
Arguments _statistics {_ _} _.
Arguments _aggregates_allObjects {_ _} _.
End HeapSnapshotWorker.

(** The accumulator of the [reduce]. *)
Module Pre.
Record t (Statistics Aggregates : Type) := {
  leakPoint : list LeakPoint.t;
  length : Z;
  statistics : Statistics;
  aggregates : Aggregates
}.
Arguments leakPoint {_ _} _.
Arguments length {_ _} _.
Arguments statistics {_ _} _.
Arguments aggregates {_ _} _.
End Pre.

(** What [fetchHeapUsage] returns. *)
Module Report.
Record t (Statistics Aggregates : Type) := {
  heapMap : gmap Z Node.t;
  leakPoint : list LeakPoint.t;
  statistics : Statistics;
  rootIndex : Z;
  aggregates : Aggregates
}.
Arguments heapMap {_ _} _.
Arguments leakPoint {_ _} _.
Arguments statistics {_ _} _.
Arguments rootIndex {_ _} _.
Arguments aggregates {_ _} _.
End Report.

(** [Array.prototype.sort(comparefn)] as V8 runs it on an array shorter
    than 64 elements (builtins/array-sort.tq), which it treats as a
    single run. [CountAndMakeRun] finds the run the array starts with,
    descending when [comparefn(a[1], a[0]) < 0] and ascending otherwise,
    and reverses it when it descends; [BinaryInsertionSort] then puts
    each later element, the [pivot], into the sorted part in front of
    it, at the place a binary search finds: [comparefn(pivot, a[mid]) <
    0] moves the right bound to [mid], any other answer the left bound
    past [mid]. V8 cuts an array of 64 elements or more into several
    such runs and merges them; [array_sort] sorts it as one run, which
    gives the same entries in descending size but can order entries of
    equal size otherwise than V8 does at that length.

    The comparator of line 153 never answers 0. Where two entries have
    the same size their order is therefore what these steps make of it
    (a run of equal sizes counts as descending and is reversed, and a
    pivot goes in front of the entries of its size), not what a stable
    sort would give. *)
Fixpoint run_length_from {A} (comparefn : A -> A -> Z) (isDescending : bool)
    (previousElement : A) (rest : list A) : nat :=
  match rest with
  | [] => 0
  | currentElement :: rest =>
      let order := comparefn currentElement previousElement in
      if (if isDescending then order >=? 0 else order <? 0) then 0%nat
      else S (run_length_from comparefn isDescending currentElement rest)
  end.

(** The run, reversed if it descends, and the elements after it. *)
Definition CountAndMakeRun {A} (comparefn : A -> A -> Z) (workArray : list A)
  : list A * list A :=
  match workArray with
  | elementHigh :: elementLow :: rest =>
      let isDescending := comparefn elementLow elementHigh <? 0 in
      let runLength :=
        (2 + run_length_from comparefn isDescending elementLow rest)%nat in
      let run := take runLength workArray in
      (if isDescending then rev run else run, drop runLength workArray)
  | _ => (workArray, [])
  end.

(** The binary search of [BinaryInsertionSort]; it halves [right - left]
    at each turn, so [fuel = right - left] turns are enough. *)
Fixpoint insertion_point {A} (comparefn : A -> A -> Z) (pivot : A)
    (workArray : list A) (fuel left right : nat) : nat :=
  match fuel with
  | O => left
  | S fuel =>
      if (left <? right)%nat then
        let mid := (left + Nat.div2 (right - left))%nat in
        match workArray !! mid with
        | Some midElement =>
            if comparefn pivot midElement <? 0
            then insertion_point comparefn pivot workArray fuel left mid
            else insertion_point comparefn pivot workArray fuel
                                 (mid + 1) right
        | None => left
        end
      else left
  end.

Definition binary_insert {A} (comparefn : A -> A -> Z) (sorted : list A)
    (pivot : A) : list A :=
  let left :=
    insertion_point comparefn pivot sorted (length sorted) 0 (length sorted) in
  take left sorted ++ pivot :: drop left sorted.

Definition array_sort {A} (comparefn : A -> A -> Z) (arr : list A) : list A :=
  let '(run, rest) := CountAndMakeRun comparefn arr in
  fold_left (binary_insert comparefn) rest run.

(** Line 153: [(o, n) => Number(o.size) < Number(n.size) ? 1 : -1]. *)
Definition by_size_desc (o n : LeakPoint.t) : Z :=
  if LeakPoint.size o <? LeakPoint.size n then 1 else -1.

(** Line 147: [Number(d) <= 1 || Number(d) >= 100000000]; both
    comparisons are false on [NaN]. *)
Definition distance_excluded (d : option Z) : bool :=
  match d with
  | Some d => (d <=? 1) || (d >=? 100000000)
  | None => false
  end.

(** Lines 142-143: the two fields written on [heapMap[index]]. *)
Definition annotate (n : Node.t) (next : Z) (d : option Z) : Node.t :=
  {| Node.index := Node.index n;
     Node.type := Node.type n;
     Node.name := Node.name n;
     Node.id := Node.id n;
     Node.self_size := Node.self_size n;
     Node.retain_size := Node.retain_size n;
     Node.edge_count := Node.edge_count n;
     Node.trace_node_id := Node.trace_node_id n;
     Node.children := Node.children n;
     Node.retainedSize := Some next;
     Node.distance := d |}.

(** [arr.reduce(callback, init)], the callback receiving the accumulator,
    the element and its index. *)
Fixpoint reduce_from {S A} (callback : S -> A -> Z -> outcome S)
    (arr : list A) (index : Z) (pre : S) : outcome S :=
  match arr with
  | [] => Ok pre
  | next :: arr =>
      pre ← callback pre next index;
      reduce_from callback arr (index + 1) pre
  end.

Definition reduce {S A} (callback : S -> A -> Z -> outcome S)
    (arr : list A) (init : S) : outcome S :=
  reduce_from callback arr 0 init.

Section Ranking.
Context {Statistics Aggregates : Type}.

(** The constructor of the required engine. *)
Variable new_JSHeapSnapshot :
  HeapData -> HeapSnapshotWorker.JSHeapSnapshot Statistics Aggregates.

Definition set_leakPoint (pre : Pre.t Statistics Aggregates)
    (leakPoint : list LeakPoint.t) (length : Z)
  : Pre.t Statistics Aggregates :=
  {| Pre.leakPoint := leakPoint;
     Pre.length := length;
     Pre.statistics := Pre.statistics pre;
     Pre.aggregates := Pre.aggregates pre |}.

(** The callback of the [reduce] (lines 141-162). The state is the
    accumulator [pre] together with [heapMap], whose nodes the callback
    writes to. *)
Definition leak_step (rootIndex : Z) (distancesList : list Z) (limit : Z)
    (st : gmap Z Node.t * Pre.t Statistics Aggregates)
    (next : Z) (index : Z)
  : outcome (gmap Z Node.t * Pre.t Statistics Aggregates) :=
  let '(heapMap, pre) := st in
  match heapMap !! index with
  | None => TypeError
  | Some node =>
      let distance := js_get distancesList (Some index) in
      let heapMap := <[index := annotate node next distance]> heapMap in
      if index =? rootIndex then Ok (heapMap, pre)
      else if distance_excluded distance then Ok (heapMap, pre)
      else
        let entry := {| LeakPoint.index := index;
                        LeakPoint.id := Node.id node;
                        LeakPoint.size := next |} in
        if Pre.length pre <? limit then
          Ok (heapMap,
              set_leakPoint pre (Pre.leakPoint pre ++ [entry])
                            (Pre.length pre + 1))
        else
          let sorted := array_sort by_size_desc (Pre.leakPoint pre) in
          match last sorted with
          | None => TypeError
          | Some smallest =>
              if LeakPoint.size smallest <? next then
                Ok (heapMap,
                    set_leakPoint pre (removelast sorted ++ [entry])
                                  (Pre.length pre))
              else Ok (heapMap, set_leakPoint pre sorted (Pre.length pre))
          end
  end.

Definition peakLeakPoint (rootIndex : Z) (heapData : HeapData)
    (heapMap : gmap Z Node.t) (limit : option Z)
  : outcome (gmap Z Node.t * Pre.t Statistics Aggregates) :=
  let limit := or_default limit 5 in
  let jsHeapSnapShot := new_JSHeapSnapshot heapData in
  let retainedSizeList := HeapSnapshotWorker._retainedSizes jsHeapSnapShot in
  let distancesList := HeapSnapshotWorker._nodeDistances jsHeapSnapShot in
  reduce (leak_step rootIndex distancesList limit) retainedSizeList
    (heapMap,
     {| Pre.leakPoint := [];
        Pre.length := 0;
        Pre.statistics := HeapSnapshotWorker._statistics jsHeapSnapShot;
        Pre.aggregates :=
          HeapSnapshotWorker._aggregates_allObjects jsHeapSnapShot |}).

(** ** fetchHeapUsage, the main entry *)

Definition fetchHeapUsage (heapData : HeapData) (limit : option Z)
  : outcome (Report.t Statistics Aggregates) :=
  g ← handleHeapData heapData;
  r ← peakLeakPoint (rootIndex g) heapData (heapMap g) limit;
  Ok {| Report.heapMap := r.1;
        Report.leakPoint := Pre.leakPoint r.2;
        Report.statistics := Pre.statistics r.2;
        Report.rootIndex := rootIndex g;
        Report.aggregates := Pre.aggregates r.2 |}.
End Ranking.

(** ** Notions used to state the properties *)

Definition node_fields_length (heapData : HeapData) : Z :=
  Z.of_nat (length (node_fields (meta (snapshot heapData)))).

Definition edge_fields_length (heapData : HeapData) : Z :=
  Z.of_nat (length (edge_fields (meta (snapshot heapData)))).

(** Both type-name tables have their first element. *)
Definition tables_present (heapData : HeapData) : Prop :=
  is_Some (node_types (meta (snapshot heapData)) !! 0%nat) /\
  is_Some (edge_types (meta (snapshot heapData)) !! 0%nat).

(** The record of the node of canonical index [k] in the flat array. *)
Definition node_record (heapData : HeapData) (k : nat) : list Z :=
  js_slice (nodes heapData)
           (Some (Z.of_nat k * node_fields_length heapData))
           (Some (Z.of_nat k * node_fields_length heapData
                  + node_fields_length heapData)).

(** Number of strides of width [node_fields.length] the outer loop
    visits: the length of [nodes] divided by the width, rounded up. *)
Definition stride_count (heapData : HeapData) : nat :=
  Z.to_nat ((Z.of_nat (length (nodes heapData))
             + node_fields_length heapData - 1)
            / node_fields_length heapData).

(** The list is in descending order of [size]. *)
Definition size_ge (a b : LeakPoint.t) : Prop :=
  LeakPoint.size b <= LeakPoint.size a.

Definition sorted_desc (l : list LeakPoint.t) : Prop := Sorted size_ge l.

(** [m] is the smallest [size] kept in the list. *)
Definition smallest_size (m : Z) (l : list LeakPoint.t) : Prop :=
  (exists e, e ∈ l /\ LeakPoint.size e = m) /\
  Forall (fun e => m <= LeakPoint.size e) l.

(** A decoded edge and the element it leaves in [from_ids] of its target
    and in [to_ids] of its owner. *)
Definition from_info (owner_id : string) (e : Edge.t) : AddressInfo.t :=
  {| AddressInfo.id := owner_id;
     AddressInfo.type := Edge.type e;
     AddressInfo.name_or_index := Edge.name_or_index e |}.

Definition to_info (e : Edge.t) : AddressInfo.t :=
  {| AddressInfo.id := Edge.to_node e;
     AddressInfo.type := Edge.type e;
     AddressInfo.name_or_index := Edge.name_or_index e |}.

Definition linked (edgesMap : gmap string EdgeEntry) (owner_id : string)
    (e : Edge.t) : Prop :=
  (exists entry, edgesMap !! Edge.to_node e = Some entry /\
                 from_info owner_id e ∈ from_ids entry) /\
  (exists entry, edgesMap !! owner_id = Some entry /\
                 to_info e ∈ to_ids entry).

(** Entries of [edgesMap] are never removed and their lists only grow. *)
Definition extends (m m' : gmap string EdgeEntry) : Prop :=
  forall key entry, m !! key = Some entry ->
    exists entry', m' !! key = Some entry' /\
                   from_ids entry ⊆ from_ids entry' /\
                   to_ids entry ⊆ to_ids entry'.

(** The column a field name designates in a declared field order, and the
    cell of a record found under that name: how a decoder that followed
    [meta.node_fields] would read a record. *)
Fixpoint column_of (fields : list string) (field : string) : option nat :=
  match fields with
  | [] => None
  | f :: fields =>
      if String.eqb f field then Some 0%nat
      else S <$> column_of fields field
  end.

Definition field_by_name (fields : list string) (record : list Z)
    (field : string) : option Z :=
  match column_of fields field with
  | Some c => record !! c
  | None => None
  end.

Definition decoded_by_schema (heapData : HeapData) (record : list Z)
    (n : Node.t) : Prop :=
  let fields := node_fields (meta (snapshot heapData)) in
  type_lookup (node_types (meta (snapshot heapData)))
              (field_by_name fields record "type") = Ok (Node.type n) /\
  Node.name n = js_get (strings heapData) (field_by_name fields record "name") /\
  Node.id n = "@" +:+ num_to_string (field_by_name fields record "id") /\
  Node.self_size n = Number (field_by_name fields record "self_size") /\
  Node.edge_count n = field_by_name fields record "edge_count" /\
  Node.trace_node_id n = field_by_name fields record "trace_node_id".

(** The same with the positions the code reads. *)
Definition decoded_by_position (heapData : HeapData) (record : list Z)
    (n : Node.t) : Prop :=
  type_lookup (node_types (meta (snapshot heapData)))
              (record !! 0%nat) = Ok (Node.type n) /\
  Node.name n = js_get (strings heapData) (record !! 1%nat) /\
  Node.id n = "@" +:+ num_to_string (record !! 2%nat) /\
  Node.self_size n = Number (record !! 3%nat) /\
  Node.edge_count n = record !! 4%nat /\
  Node.trace_node_id n = record !! 5%nat.

Definition v8_node_fields : list string :=
  ["type"; "name"; "id"; "self_size"; "edge_count"; "trace_node_id"].

Definition v8_edge_type_names : list string :=
  ["context"; "element"; "property"; "internal"; "hidden"; "shortcut"; "weak"].

(** Some node's edge span, starting at the running offset, goes past the
    end of [edges]. [counts] are the edge counts of the nodes in order. *)
Fixpoint span_overrun (edge_fields_length edges_length : Z)
    (counts : list Z) (offset : Z) : bool :=
  match counts with
  | [] => false
  | c :: counts =>
      (edges_length <? offset + c * edge_fields_length)
      || span_overrun edge_fields_length edges_length counts
                      (offset + c * edge_fields_length)
  end.

Definition edge_counts (heapData : HeapData) : list Z :=
  omap (fun k => node_record heapData k !! 4%nat)
       (seq 0 (stride_count heapData)).

Definition truncated (heapData : HeapData) : bool :=
  span_overrun (edge_fields_length heapData)
               (Z.of_nat (length (edges heapData)))
               (edge_counts heapData) 0.

(** Where the outer loop finds the edges of the node of index [k]: its
    span is its edge count times the edge record width, its offset the
    sum of the spans of the nodes before it ([NaN] once an edge count
    was missing), and its edges what [slice] returns for that range. *)
Definition edge_span (heapData : HeapData) (k : nat) : option Z :=
  js_mul (node_record heapData k !! 4%nat) (edge_fields_length heapData).

Fixpoint edge_offset (heapData : HeapData) (k : nat) : option Z :=
  match k with
  | O => Some 0
  | S k' => js_plus (edge_offset heapData k') (edge_span heapData k')
  end.

Definition node_edges_of (heapData : HeapData) (k : nat) : list Z :=
  js_slice (edges heapData) (edge_offset heapData k)
           (js_plus (edge_offset heapData k) (edge_span heapData k)).

(** The [j]-th edge record of a slice of edges, and how many records the
    inner loop reads from it. *)
Definition chunk (heapData : HeapData) (node_edges : list Z) (j : nat)
  : list Z :=
  js_slice node_edges
           (Some (Z.of_nat j * edge_fields_length heapData))
           (Some (Z.of_nat j * edge_fields_length heapData
                  + edge_fields_length heapData)).

Definition chunk_count (heapData : HeapData) (node_edges : list Z) : Z :=
  (Z.of_nat (length node_edges) + edge_fields_length heapData - 1)
  / edge_fields_length heapData.

(** An edge record of the capture: the [j]-th record of the edges of
    some node [k]. *)
Definition edge_record (heapData : HeapData) (node_edge : list Z) : Prop :=
  exists k j, node_edge = chunk heapData (node_edges_of heapData k) j.

Definition decoded_edge (heapData : HeapData) (e : Edge.t) : Prop :=
  exists node_edge,
    edge_record heapData node_edge /\ decode_edge heapData node_edge = Ok e.

(** The children decoded from a slice of edges: one per record, in
    order. *)
Definition children_of (heapData : HeapData) (node_edges : list Z)
    (children : list Edge.t) : Prop :=
  Z.of_nat (length children) = chunk_count heapData node_edges /\
  forall j e, children !! j = Some e ->
              decode_edge heapData (chunk heapData node_edges j) = Ok e.

(** The node at position [k] was decoded from the record at offset
    [k * node_fields.length], and its children from the edges found at
    the running offset. *)
Definition decoded_at (heapData : HeapData) (k : nat) (n : Node.t) : Prop :=
  exists n0,
    decode_node heapData (Z.of_nat k * node_fields_length heapData) = Ok n0 /\
    n = with_children n0 (Node.children n) /\
    children_of heapData (node_edges_of heapData k) (Node.children n).

(** Every edge held by a decoded node is linked in [edgesMap]. *)
Definition all_linked (st : DecodeState) : Prop :=
  forall n, n ∈ ds_heapArray st ->
    Forall (linked (ds_edgesMap st) (Node.id n)) (Node.children n).

Definition size_le (a b : LeakPoint.t) : Prop :=
  LeakPoint.size a <= LeakPoint.size b.

(** The node at [index] passes the filters of lines 145-147. *)
Definition eligible (rootIndex : Z) (distancesList : list Z) (index : Z)
  : bool :=
  negb (index =? rootIndex)
  && negb (distance_excluded (js_get distancesList (Some index))).

(** The index and size of the nodes that pass the filters, in the order
    in which the [reduce] meets them. *)
Definition candidates (rootIndex : Z) (distancesList retained : list Z)
  : list (Z * Z) :=
  filter (fun p => eligible rootIndex distancesList p.1 = true)
         (imap (fun i next => (Z.of_nat i, next)) retained).

Definition entry_key (e : LeakPoint.t) : Z * Z :=
  (LeakPoint.index e, LeakPoint.size e).

(** What holds of the accumulator after the first [i] nodes: the
    counter is the length of the list, the list is within the limit,
    and its entries are eligible nodes already met. *)
Definition within_limit {Statistics Aggregates : Type} (rootIndex : Z)
    (distancesList : list Z) (limit : Z) (i : nat)
    (st : gmap Z Node.t * Pre.t Statistics Aggregates) : Prop :=
  Pre.length st.2 = Z.of_nat (length (Pre.leakPoint st.2)) /\
  Pre.length st.2 <= Z.max 0 limit /\
  Forall (fun e =>
            0 <= LeakPoint.index e < Z.of_nat i /\
            eligible rootIndex distancesList (LeakPoint.index e) = true)
         (Pre.leakPoint st.2).

(** The list is in encounter order until more than [limit] eligible
    nodes were met; from then on all its entries but the last are in
    descending order of size. *)
Definition encounter_or_sorted {Statistics Aggregates : Type} (rootIndex : Z)
    (distancesList retained : list Z) (limit : Z) (i : nat)
    (st : gmap Z Node.t * Pre.t Statistics Aggregates) : Prop :=
  let seen := candidates rootIndex distancesList (take i retained) in
  Pre.length st.2 = Z.of_nat (length (Pre.leakPoint st.2)) /\
  (Z.of_nat (length seen) <= limit ->
   entry_key <$> Pre.leakPoint st.2 = seen) /\
  (limit < Z.of_nat (length seen) ->
   limit <= Pre.length st.2 /\
   sorted_desc (removelast (Pre.leakPoint st.2))).

(** The (owner identity, edge) pairs of a decoded array, in node order and,
    within a node, in the order of its children. *)
Definition graph_pairs (arr : list Node.t) : list (string * Edge.t) :=
  arr ≫= (fun A => (fun e => (Node.id A, e)) <$> Node.children A).

(** Everything [edgesMap] holds was put there for one of [pairs]: no entry
    is empty, an element of [from_ids] under [key] comes from an edge
    whose [to_node] is [key], and an element of [to_ids] under [key]
    from an edge whose owner is [key]. *)
Definition sound_for (pairs : list (string * Edge.t))
    (m : gmap string EdgeEntry) : Prop :=
  forall key entry, m !! key = Some entry ->
    (from_ids entry <> [] \/ to_ids entry <> []) /\
    (forall info, info ∈ from_ids entry ->
       exists p, p ∈ pairs /\ Edge.to_node p.2 = key /\
                 info = from_info p.1 p.2) /\
    (forall info, info ∈ to_ids entry ->
       exists p, p ∈ pairs /\ p.1 = key /\ info = to_info p.2).

(** Two captures that differ at most in the names of their fields: the
    field lists have the same lengths and everything else is equal. *)
Definition same_up_to_field_names (hd hd' : HeapData) : Prop :=
  length (node_fields (meta (snapshot hd)))
    = length (node_fields (meta (snapshot hd'))) /\
  length (edge_fields (meta (snapshot hd)))
    = length (edge_fields (meta (snapshot hd'))) /\
  node_types (meta (snapshot hd)) = node_types (meta (snapshot hd')) /\
  edge_types (meta (snapshot hd)) = edge_types (meta (snapshot hd')) /\
  root_index (snapshot hd) = root_index (snapshot hd') /\
  nodes hd = nodes hd' /\
  edges hd = edges hd' /\
  strings hd = strings hd'.

(** What [heapMap] holds under [key] once the [reduce] has gone through
    [retained]: the node with its two fields written when [key] is the
    index of a retained size, the node as it was otherwise. *)
Definition annotated (heapMap : gmap Z Node.t) (retained distances : list Z)
    (key : Z) : option Node.t :=
  match js_get retained (Some key) with
  | Some next =>
      (fun n => annotate n next (js_get distances (Some key)))
        <$> heapMap !! key
  | None => heapMap !! key
  end.

(** [n'] has every field the decoder writes as [n] has it. *)
Definition same_decoded_fields (n n' : Node.t) : Prop :=
  Node.index n' = Node.index n /\
  Node.type n' = Node.type n /\
  Node.name n' = Node.name n /\
  Node.id n' = Node.id n /\
  Node.self_size n' = Node.self_size n /\
  Node.retain_size n' = Node.retain_size n /\
  Node.edge_count n' = Node.edge_count n /\
  Node.trace_node_id n' = Node.trace_node_id n /\
  Node.children n' = Node.children n.

(** The entry [e] of the list stands for a node met among the first [i]:
    its index is that of an eligible node, its size the retained size at
    that index and its id the id of the node [heapMap] had there. *)
Definition listed_node (heapMap : gmap Z Node.t) (rootIndex : Z)
    (distancesList retained : list Z) (i : nat) (e : LeakPoint.t) : Prop :=
  exists k node,
    LeakPoint.index e = Z.of_nat k /\ (k < i)%nat /\
    retained !! k = Some (LeakPoint.size e) /\
    eligible rootIndex distancesList (Z.of_nat k) = true /\
    heapMap !! Z.of_nat k = Some node /\
    LeakPoint.id e = Node.id node.

(** What the [reduce] keeps after the first [i] nodes, [heapMap] being the
    map it started from: the nodes met so far were there and are now
    annotated, the entries are distinct eligible nodes, and an eligible
    node that is not listed is no larger than any entry of the (then
    full) list. *)
Definition top_ranked {Statistics Aggregates : Type}
    (heapMap : gmap Z Node.t) (rootIndex : Z)
    (distancesList retained : list Z) (limit : Z) (i : nat)
    (st : gmap Z Node.t * Pre.t Statistics Aggregates) : Prop :=
  Pre.length st.2 = Z.of_nat (length (Pre.leakPoint st.2)) /\
  (forall key,
      st.1 !! key = annotated heapMap (take i retained) distancesList key) /\
  (forall k, (k < i)%nat -> is_Some (heapMap !! Z.of_nat k)) /\
  NoDup (LeakPoint.index <$> Pre.leakPoint st.2) /\
  Forall (listed_node heapMap rootIndex distancesList retained i)
         (Pre.leakPoint st.2) /\
  (forall k s,
      (k < i)%nat -> retained !! k = Some s ->
      eligible rootIndex distancesList (Z.of_nat k) = true ->
      (exists e, e ∈ Pre.leakPoint st.2 /\ LeakPoint.index e = Z.of_nat k) \/
      (limit <= Pre.length st.2 /\
       Forall (fun e => s <= LeakPoint.size e) (Pre.leakPoint st.2))).

(** What [from_ids] and [to_ids] under [key] should hold, in order, for a
    list of recorded (owner identity, edge) pairs: one element for each
    pair whose edge points to [key], respectively whose owner is
    [key]. *)
Definition from_ids_of (pairs : list (string * Edge.t)) (key : string)
  : list AddressInfo.t :=
  (fun p => from_info p.1 p.2)
    <$> filter (fun p => Edge.to_node p.2 = key) pairs.

Definition to_ids_of (pairs : list (string * Edge.t)) (key : string)
  : list AddressInfo.t :=
  (fun p => to_info p.2) <$> filter (fun p => p.1 = key) pairs.

(** [m] holds exactly that: the [from_ids] of the pairs [pf] and the
    [to_ids] of the pairs [pt], and no entry where both are empty. *)
Definition exact_for (pf pt : list (string * Edge.t))
    (m : gmap string EdgeEntry) : Prop :=
  forall key,
    match m !! key with
    | Some entry =>
        from_ids entry = from_ids_of pf key /\
        to_ids entry = to_ids_of pt key
    | None => from_ids_of pf key = [] /\ to_ids_of pt key = []
    end.

(** ** Sample snapshots *)

Module Sample.
Definition v8_meta : Meta := {|
  node_fields := v8_node_fields;
  node_types :=
    [Enum ["hidden"; "array"; "string"; "object"; "code"; "closure"];
     Prim "string"; Prim "number"; Prim "number"; Prim "number";
     Prim "number"];
  edge_fields := ["type"; "name_or_index"; "to_node"];
  edge_types :=
    [Enum v8_edge_type_names; Prim "string_or_number"; Prim "node"]
|}.

(** Three nodes: 0 (root) with an element edge to 1 and a property edge
    to 2, and 1 with a property edge to 2. *)
Definition three_nodes : HeapData := {|
  snapshot := {| meta := v8_meta; root_index := None |};
  nodes := [9; 0; 1; 0; 2; 0;
            3; 1; 7; 10; 1; 0;
            3; 2; 9; 1000; 0; 0];
  edges := [1; 3; 6;
            2; 1; 12;
            2; 2; 12];
  strings := ["root"; "a"; "b"]
|}.

(** The same nodes with the last edge record cut off. *)
Definition cut_short : HeapData := {|
  snapshot := snapshot three_nodes;
  nodes := nodes three_nodes;
  edges := [1; 3; 6; 2; 1; 12];
  strings := strings three_nodes
|}.

(** The same capture declaring the name column before the type column. *)
Definition name_first : HeapData := {|
  snapshot :=
    {| meta :=
         {| node_fields := ["name"; "type"; "id"; "self_size";
                            "edge_count"; "trace_node_id"];
            node_types := node_types v8_meta;
            edge_fields := edge_fields v8_meta;
            edge_types := edge_types v8_meta |};
       root_index := None |};
  nodes := nodes three_nodes;
  edges := edges three_nodes;
  strings := strings three_nodes
|}.

(** The same capture with an edge-type table that numbers "element" 2
    and "property" 1. *)
Definition renumbered_edge_types : HeapData := {|
  snapshot :=
    {| meta :=
         {| node_fields := node_fields v8_meta;
            node_types := node_types v8_meta;
            edge_fields := edge_fields v8_meta;
            edge_types :=
              [Enum ["context"; "property"; "element"; "internal";
                     "hidden"; "shortcut"; "weak"];
               Prim "string_or_number"; Prim "node"] |};
       root_index := None |};
  nodes := nodes three_nodes;
  edges := edges three_nodes;
  strings := strings three_nodes
|}.

(** An engine that reports the given arrays. *)
Definition engine (retainedSizes distances : list Z) (_ : HeapData)
  : HeapSnapshotWorker.JSHeapSnapshot unit unit :=
  {| HeapSnapshotWorker._retainedSizes := retainedSizes;
     HeapSnapshotWorker._nodeDistances := distances;
     HeapSnapshotWorker._statistics := tt;
     HeapSnapshotWorker._aggregates_allObjects := tt |}.

(** The [heapMap] the decoder builds for a capture. *)
Definition heapMap_of (heapData : HeapData) : gmap Z Node.t :=
  match handleHeapData heapData with
  | Ok g => heapMap g
  | _ => ∅
  end.

(** Seven nodes without edges, for the ranking examples. *)
Definition seven_nodes : HeapData := {|
  snapshot := {| meta := v8_meta; root_index := None |};
  nodes := [9; 0; 1; 0; 0; 0;   3; 1; 3; 8; 0; 0;   3; 1; 5; 8; 0; 0;
            3; 1; 7; 8; 0; 0;   3; 1; 9; 8; 0; 0;   3; 1; 11; 8; 0; 0;
            3; 1; 13; 8; 0; 0];
  edges := [];
  strings := ["root"; "a"]
|}.

(** The same seven nodes, the capture declaring [root_index] 6. *)
Definition rooted_at_6 : HeapData := {|
  snapshot := {| meta := v8_meta; root_index := Some 6 |};
  nodes := nodes seven_nodes;
  edges := [];
  strings := strings seven_nodes
|}.

(** The three-node capture without a node type table, without an edge
    type table, and without node field names. *)
Definition no_node_types : HeapData := {|
  snapshot :=
    {| meta :=
         {| node_fields := node_fields v8_meta;
            node_types := [];
            edge_fields := edge_fields v8_meta;
            edge_types := edge_types v8_meta |};
       root_index := None |};
  nodes := nodes three_nodes;
  edges := edges three_nodes;
  strings := strings three_nodes
|}.

Definition no_edge_types : HeapData := {|
  snapshot :=
    {| meta :=
         {| node_fields := node_fields v8_meta;
            node_types := node_types v8_meta;
            edge_fields := edge_fields v8_meta;
            edge_types := [] |};
       root_index := None |};
  nodes := nodes three_nodes;
  edges := edges three_nodes;
  strings := strings three_nodes
|}.

Definition no_node_fields : HeapData := {|
  snapshot :=
    {| meta :=
         {| node_fields := [];
            node_types := node_types v8_meta;
            edge_fields := edge_fields v8_meta;
            edge_types := edge_types v8_meta |};
       root_index := None |};
  nodes := nodes three_nodes;
  edges := edges three_nodes;
  strings := strings three_nodes
|}.

(** Two nodes described by four fields only, so without an edge count,
    and one edge record. *)
Definition four_fields : HeapData := {|
  snapshot :=
    {| meta :=
         {| node_fields := ["type"; "name"; "id"; "self_size"];
            node_types := node_types v8_meta;
            edge_fields := edge_fields v8_meta;
            edge_types := edge_types v8_meta |};
       root_index := None |};
  nodes := [3; 0; 1; 10;   3; 1; 3; 20];
  edges := [2; 1; 4];
  strings := ["a"; "b"]
|}.
(** Two nodes, the record of the second one ending after its name
    cell. *)
Definition ends_mid_record : HeapData := {|
  snapshot := {| meta := v8_meta; root_index := None |};
  nodes := [9; 0; 1; 0; 0; 0;
            3; 1];
  edges := [];
  strings := ["root"; "a"]
|}.

End Sample.

(** * Properties *)

(** ** The outcome monad *)

Lemma bind_Ok {A B} (m : outcome A) (k : A -> outcome B) (b : B) :
  mbind k m = Ok b -> exists a, m = Ok a /\ k a = Ok b.
Proof. destruct m as [a| |]; simpl; intros H; try discriminate; eauto. Qed.

Ltac inv_bind H :=
  let a := fresh "a" in
  let Ha := fresh "Ha" in
  apply bind_Ok in H; destruct H as (a & Ha & H).

(** ** Slices and lookups *)

Lemma js_slice_lookup {A} (arr : list A) (i w : Z) (j : nat) :
  0 <= i -> 0 <= w ->
  js_slice arr (Some i) (Some (i + w)) !! j =
    if decide (Z.of_nat j < w) then arr !! (Z.to_nat i + j)%nat else None.
Proof.
  intros Hi Hw. unfold js_slice, relative_index, to_integer. simpl.
  destruct (Z.ltb_spec i 0) as [?|_]; [lia|].
  destruct (Z.ltb_spec (i + w) 0) as [?|_]; [lia|].
  set (len := Z.of_nat (length arr)).
  destruct (decide (Z.of_nat j < Z.min (i + w) len - Z.min i len)) as [Hj|Hj].
  - rewrite lookup_take_lt by lia. rewrite lookup_drop.
    rewrite decide_True by lia. f_equal. lia.
  - rewrite lookup_take_ge by lia.
    case_decide; [|done]. symmetry. apply lookup_ge_None_2. lia.
Qed.

Lemma js_slice_length {A} (arr : list A) (i w : Z) :
  0 <= i -> 0 <= w ->
  Z.of_nat (length (js_slice arr (Some i) (Some (i + w)))) <= w.
Proof.
  intros Hi Hw. unfold js_slice, relative_index, to_integer. simpl.
  destruct (Z.ltb_spec i 0) as [?|_]; [lia|].
  destruct (Z.ltb_spec (i + w) 0) as [?|_]; [lia|].
  rewrite length_take. lia.
Qed.

(** A slice of width 0 (the edge slice when [edge_fields] is empty, or
    when the edge count is missing) is empty. *)
Lemma js_slice_empty_span {A} (arr : list A) (offset : option Z) (c : option Z) :
  js_slice arr offset (js_plus offset (js_mul c 0)) = [].
Proof.
  unfold js_slice.
  assert (Hle : relative_index (Z.of_nat (length arr))
                  (to_integer (js_plus offset (js_mul c 0)))
                <= relative_index (Z.of_nat (length arr)) (to_integer offset)).
  { destruct offset as [o|], c as [c|]; simpl; unfold relative_index;
      repeat case_match; try lia.
    all: repeat match goal with
                | H : (_ <? _) = true |- _ => apply Z.ltb_lt in H
                | H : (_ <? _) = false |- _ => apply Z.ltb_ge in H
                end; try lia. }
  replace (Z.to_nat _) with 0%nat by lia. done.
Qed.

(** ** The loops of the decoder *)

Lemma type_lookup_present (table : list type_entry) (k : option Z) :
  is_Some (table !! 0%nat) -> exists t, type_lookup table k = Ok t.
Proof.
  intros [entry He]. unfold type_lookup. rewrite He.
  destruct entry; eauto.
Qed.

Lemma decode_edge_present (heapData : HeapData) (node_edge : list Z) :
  tables_present heapData -> exists e, decode_edge heapData node_edge = Ok e.
Proof.
  intros [_ He]. unfold decode_edge.
  destruct (type_lookup_present _ (node_edge !! 0%nat) He) as [t ->].
  simpl. eauto.
Qed.

Lemma decode_node_present (heapData : HeapData) (i : Z) :
  tables_present heapData -> exists n, decode_node heapData i = Ok n.
Proof.
  intros [Hn _]. unfold decode_node.
  match goal with
  | |- context [type_lookup ?t ?k] =>
      destruct (type_lookup_present t k Hn) as [ty ->]
  end.
  simpl. eauto.
Qed.

(** Invariants of the inner loop: a property of the cursor and the state
    that each recorded edge preserves holds when the loop exits. *)
Lemma edge_loop_invariant (heapData : HeapData) (desc_id : string)
    (node_edges : list Z)
    (P : Z -> list Edge.t * gmap string EdgeEntry -> Prop) :
  (forall i e st,
      P i st ->
      i < Z.of_nat (length node_edges) ->
      decode_edge heapData
        (js_slice node_edges (Some i)
                  (Some (i + edge_fields_length heapData))) = Ok e ->
      P (i + edge_fields_length heapData) (record_edge desc_id e st)) ->
  forall fuel i st st',
    P i st -> edge_loop fuel heapData desc_id node_edges i st = Ok st' ->
    exists i', P i' st' /\ Z.of_nat (length node_edges) <= i'.
Proof.
  intros Hstep. induction fuel as [|fuel IH]; intros i st st' HP H; [done|].
  simpl in H. destruct (Z.ltb_spec i (Z.of_nat (length node_edges))).
  - inv_bind H. eapply IH; [|exact H]. eapply Hstep; eauto.
  - injection H as <-. eauto.
Qed.

(** The inner loop returns: it is started on a slice that is empty when
    the record width is 0. *)
Lemma edge_loop_returns (heapData : HeapData) (desc_id : string)
    (node_edges : list Z) :
  tables_present heapData ->
  (0 < edge_fields_length heapData \/ node_edges = []) ->
  forall fuel i st,
    0 <= i ->
    (Z.to_nat (Z.of_nat (length node_edges) - i) < fuel)%nat ->
    exists st', edge_loop fuel heapData desc_id node_edges i st = Ok st'.
Proof.
  intros Ht Hw. induction fuel as [|fuel IH]; intros i st Hi Hfuel; [lia|].
  simpl. destruct (Z.ltb_spec i (Z.of_nat (length node_edges))) as [Hlt|Hge].
  - destruct (decode_edge_present heapData
                (js_slice node_edges (Some i)
                   (Some (i + Z.of_nat (length (edge_fields (meta (snapshot heapData)))))))
                Ht) as [e ->].
    simpl. apply IH.
    + unfold edge_fields_length in Hw. lia.
    + destruct Hw as [Hw| ->]; [|simpl in Hlt; lia].
      unfold edge_fields_length in Hw. lia.
  - eauto.
Qed.

Lemma node_step_returns (heapData : HeapData) (i : Z) (st : DecodeState) :
  tables_present heapData -> exists st', node_step heapData i st = Ok st'.
Proof.
  intros Ht. unfold node_step.
  destruct (decode_node_present heapData i Ht) as [n ->].
  cbn -[edge_loop].
  match goal with
  | |- context [edge_loop ?f ?h ?d ?ne ?z ?s] =>
      destruct (edge_loop_returns h d ne Ht) with (fuel := f) (i := z) (st := s)
        as [r ->]
  end; simpl; eauto; try lia.
  destruct (decide (0 < edge_fields_length heapData)) as [?|Hz]; [by left|right].
  unfold edge_fields_length in Hz.
  replace (Z.of_nat (length (edge_fields (meta (snapshot heapData))))) with 0
    by lia.
  apply js_slice_empty_span.
Qed.

(** What one iteration of the outer loop does to the state. *)
Lemma node_step_Ok (heapData : HeapData) (i : Z) (st st' : DecodeState) :
  node_step heapData i st = Ok st' ->
  exists n0 children node_edges,
    decode_node heapData i = Ok n0 /\
    node_edges =
      js_slice (edges heapData) (ds_offset st)
        (js_plus (ds_offset st)
           (js_mul (Node.edge_count n0) (edge_fields_length heapData))) /\
    edge_loop (S (length node_edges)) heapData (Node.id n0) node_edges 0
              ([], ds_edgesMap st) = Ok (children, ds_edgesMap st') /\
    ds_offset st' =
      js_plus (ds_offset st)
        (js_mul (Node.edge_count n0) (edge_fields_length heapData)) /\
    ds_heapArray st' = ds_heapArray st ++ [with_children n0 children] /\
    ds_heapMap st' =
      <[Node.index n0 := with_children n0 children]> (ds_heapMap st).
Proof.
  unfold node_step. intros H. inv_bind H. inv_bind H.
  injection H as <-. simpl.
  destruct a0 as [children em]. exists a, children. eexists.
  split; [done|]. split; [reflexivity|]. split; [exact Ha0|].
  split; [reflexivity|]. done.
Qed.

Lemma node_loop_invariant (heapData : HeapData)
    (P : Z -> DecodeState -> Prop) :
  (forall i st st',
      P i st -> i < Z.of_nat (length (nodes heapData)) ->
      node_step heapData i st = Ok st' ->
      P (i + node_fields_length heapData) st') ->
  forall fuel i st st',
    P i st -> node_loop fuel heapData i st = Ok st' ->
    exists i', P i' st' /\ Z.of_nat (length (nodes heapData)) <= i'.
Proof.
  intros Hstep. induction fuel as [|fuel IH]; intros i st st' HP H; [done|].
  simpl in H. destruct (Z.ltb_spec i (Z.of_nat (length (nodes heapData)))).
  - inv_bind H. eapply IH; [|exact H]. eapply Hstep; eauto.
  - injection H as <-. eauto.
Qed.

Lemma node_loop_returns (heapData : HeapData) :
  tables_present heapData ->
  0 < node_fields_length heapData ->
  forall fuel i st,
    (Z.to_nat (Z.of_nat (length (nodes heapData)) - i) < fuel)%nat ->
    exists st', node_loop fuel heapData i st = Ok st'.
Proof.
  intros Ht Hw. induction fuel as [|fuel IH]; intros i st Hfuel; [lia|].
  simpl. destruct (Z.ltb_spec i (Z.of_nat (length (nodes heapData)))).
  - destruct (node_step_returns heapData i st Ht) as [st1 ->]. simpl.
    apply IH. unfold node_fields_length in Hw. lia.
  - eauto.
Qed.

(** The decoder returns a graph whenever the record width of the nodes
    is not 0 and both type tables are there. *)
Lemma handleHeapData_returns (heapData : HeapData) :
  tables_present heapData ->
  0 < node_fields_length heapData ->
  exists g, handleHeapData heapData = Ok g.
Proof.
  intros Ht Hw. unfold handleHeapData.
  match goal with
  | |- context [node_loop ?f ?h ?z ?s] =>
      destruct (node_loop_returns h Ht Hw f z s) as [st ->]; [lia|]
  end.
  simpl. eauto.
Qed.

Lemma handleHeapData_Ok (heapData : HeapData) (g : HeapGraph) :
  handleHeapData heapData = Ok g ->
  exists st,
    node_loop (S (length (nodes heapData))) heapData 0
      {| ds_offset := Some 0; ds_heapMap := ∅;
         ds_heapArray := []; ds_edgesMap := ∅ |} = Ok st /\
    heapMap g = ds_heapMap st /\
    heapArray g = ds_heapArray st /\
    edgesMap g = ds_edgesMap st /\
    rootIndex g = or_default (root_index (snapshot heapData)) 0 /\
    rootID g =
      "@" +:+ num_to_string
                (js_get (nodes heapData)
                   (Some (or_default (root_index (snapshot heapData)) 0 + 2))).
Proof.
  unfold handleHeapData. intros H. inv_bind H. injection H as <-.
  exists a. simpl. done.
Qed.

(** ** Structure of the decoded array *)

Lemma edge_loop_structure (heapData : HeapData) (desc_id : string)
    (node_edges : list Z) (m : gmap string EdgeEntry) fuel st' :
  edge_loop fuel heapData desc_id node_edges 0 ([], m) = Ok st' ->
  children_of heapData node_edges st'.1.
Proof.
  intros Hloop.
  destruct (edge_loop_invariant heapData desc_id node_edges
    (fun i st =>
       i = Z.of_nat (length st.1) * edge_fields_length heapData /\
       (st.1 = [] \/
        i - edge_fields_length heapData < Z.of_nat (length node_edges)) /\
       forall j e, st.1 !! j = Some e ->
                   decode_edge heapData (chunk heapData node_edges j) = Ok e))
    with (fuel := fuel) (i := 0) (st := ([] : list Edge.t, m)) (st' := st')
    as (i' & (Hi & Hup & Hall) & Hlow); [| |exact Hloop|].
  - intros i e [children em] (Hi & _ & Hall) Hlt He. simpl in *.
    rewrite length_app. simpl. split; [lia|]. split; [right; lia|].
    intros j e' Hj. apply lookup_app_Some in Hj as [Hj|[Hge Hj]]; [eauto|].
    apply list_lookup_singleton_Some in Hj as [Hj <-].
    assert (j = length children) as -> by lia.
    unfold chunk. rewrite <- Hi. done.
  - simpl. split; [lia|]. split; [by left|]. intros j e Hj. done.
  - split; [|done]. unfold chunk_count.
    set (len := Z.of_nat (length node_edges)) in *.
    set (w := edge_fields_length heapData) in *.
    set (c := Z.of_nat (length st'.1)) in *.
    assert (Hw : 0 <= w) by (subst w; unfold edge_fields_length; lia).
    assert (Hlen : 0 <= len) by (subst len; lia).
    destruct Hup as [Hnil|Hup].
    + subst c. rewrite Hnil in *. simpl in *.
      assert (len = 0) by lia.
      destruct (decide (w = 0)) as [->|Hne]; [by rewrite Z.div_0_r|].
      symmetry. apply Z.div_small. lia.
    + assert (0 < w) by nia.
      apply Z.div_unique with (r := len + w - 1 - w * c); [|lia].
      left. nia.
Qed.

Lemma node_loop_structure (heapData : HeapData) fuel st' :
  node_loop fuel heapData 0
    {| ds_offset := Some 0; ds_heapMap := ∅;
       ds_heapArray := []; ds_edgesMap := ∅ |} = Ok st' ->
  exists i',
    (i' = Z.of_nat (length (ds_heapArray st')) * node_fields_length heapData /\
     (i' = 0 \/
      i' - node_fields_length heapData < Z.of_nat (length (nodes heapData))) /\
     ds_offset st' = edge_offset heapData (length (ds_heapArray st')) /\
     forall k n, ds_heapArray st' !! k = Some n -> decoded_at heapData k n) /\
    Z.of_nat (length (nodes heapData)) <= i'.
Proof.
  apply (node_loop_invariant heapData
    (fun i st =>
       i = Z.of_nat (length (ds_heapArray st)) * node_fields_length heapData /\
       (i = 0 \/
        i - node_fields_length heapData < Z.of_nat (length (nodes heapData))) /\
       ds_offset st = edge_offset heapData (length (ds_heapArray st)) /\
       forall k n, ds_heapArray st !! k = Some n -> decoded_at heapData k n)).
  - intros i st st1 (Hi & _ & Hoff & Hall) Hlt Hstep.
    apply node_step_Ok in Hstep
      as (n0 & children & node_edges & Hn0 & Hne & Hloop & Hoff1 & Harr & _).
    assert (Hcount : Node.edge_count n0 =
                     node_record heapData (length (ds_heapArray st)) !! 4%nat).
    { unfold decode_node in Hn0. inv_bind Hn0. injection Hn0 as <-. simpl.
      unfold node_record. rewrite <- Hi. done. }
    assert (Hspan : js_mul (Node.edge_count n0) (edge_fields_length heapData)
                    = edge_span heapData (length (ds_heapArray st)))
      by (unfold edge_span; by rewrite Hcount).
    rewrite Hspan, Hoff in Hne, Hoff1.
    rewrite Harr, length_app. simpl. split; [lia|]. split; [right; lia|].
    split.
    { rewrite Hoff1. replace (length (ds_heapArray st) + 1)%nat
        with (S (length (ds_heapArray st))) by lia. done. }
    intros k n Hk. apply lookup_app_Some in Hk as [Hk|[Hge Hk]]; [eauto|].
    apply list_lookup_singleton_Some in Hk as [Hk <-].
    assert (k = length (ds_heapArray st)) as -> by lia.
    exists n0. rewrite <- Hi. split; [done|]. split; [done|]. simpl.
    apply edge_loop_structure in Hloop. simpl in Hloop.
    unfold node_edges_of. rewrite <- Hne. exact Hloop.
  - simpl. split; [lia|]. split; [by left|]. split; [done|].
    intros k n Hk. done.
Qed.

Lemma stride_count_exact (heapData : HeapData) :
  0 < node_fields_length heapData ->
  Z.of_nat (length (nodes heapData)) mod node_fields_length heapData = 0 ->
  Z.of_nat (stride_count heapData) =
    Z.of_nat (length (nodes heapData)) / node_fields_length heapData.
Proof.
  intros Hw Hmod. unfold stride_count.
  set (len := Z.of_nat (length (nodes heapData))) in *.
  set (w := node_fields_length heapData) in *.
  assert (Hlen : 0 <= len) by (subst len; lia).
  apply Z.div_exact in Hmod; [|lia].
  assert (Hq : 0 <= len / w) by (apply Z.div_pos; lia).
  rewrite Z2Nat.id by (apply Z.div_pos; lia).
  set (q := len / w) in *.
  symmetry. apply Z.div_unique with (r := w - 1); [lia|]. nia.
Qed.

(** The decoded array has one node per stride. *)
Lemma heapArray_length (heapData : HeapData) (g : HeapGraph) :
  0 < node_fields_length heapData ->
  handleHeapData heapData = Ok g ->
  length (heapArray g) = stride_count heapData.
Proof.
  intros Hw H. apply handleHeapData_Ok in H as (st & Hloop & _ & -> & _).
  apply node_loop_structure in Hloop as (i' & (-> & Hup & _ & _) & Hlow).
  unfold stride_count.
  set (len := Z.of_nat (length (nodes heapData))) in *.
  set (w := node_fields_length heapData) in *.
  set (c := length (ds_heapArray st)) in *.
  assert (Hc : Z.of_nat c = (len + w - 1) / w).
  { apply Z.div_unique with (r := len + w - 1 - w * Z.of_nat c); [|lia].
    left. split; [|nia]. destruct Hup as [Hup|Hup]; [|nia].
    assert (len = 0) by (subst len; nia). nia. }
  rewrite <- Hc. lia.
Qed.

Lemma decoded_at_position (heapData : HeapData) (k : nat) (n : Node.t) :
  decoded_at heapData k n ->
  decoded_by_position heapData (node_record heapData k) n /\
  (0 < node_fields_length heapData -> Node.index n = Z.of_nat k).
Proof.
  intros (n0 & Hn0 & -> & _). unfold decode_node in Hn0.
  inv_bind Hn0. injection Hn0 as <-. simpl.
  split; [by repeat split|].
  intros Hw. apply Z.div_mul. unfold node_fields_length in Hw. lia.
Qed.

Lemma decoded_at_children (heapData : HeapData) (k : nat) (n : Node.t) :
  decoded_at heapData k n -> Forall (decoded_edge heapData) (Node.children n).
Proof.
  intros (_ & _ & _ & _ & Hall). apply Forall_forall. intros e He.
  apply list_elem_of_lookup in He as [j Hj].
  exists (chunk heapData (node_edges_of heapData k) j).
  split; [by exists k, j|eauto].
Qed.

Lemma handleHeapData_decoded_at (heapData : HeapData) (g : HeapGraph)
    (k : nat) (n : Node.t) :
  handleHeapData heapData = Ok g ->
  heapArray g !! k = Some n ->
  decoded_at heapData k n.
Proof.
  intros H Hk. apply handleHeapData_Ok in H as (st & Hloop & _ & Harr & _).
  apply node_loop_structure in Hloop as (i' & (_ & _ & _ & Hall) & _).
  rewrite Harr in Hk. eauto.
Qed.

(** ** Nodes *)

(** C9. For a capture whose [nodes] array is a whole number of records
    (and whose type tables are there), the decoder returns a graph whose
    [heapArray] has [nodes.length / node_fields.length] elements; the
    element at position [k] has [index] [k] and was read from the [k]-th
    stride of [nodes]. *)
Theorem heapArray_one_node_per_stride (heapData : HeapData) :
  tables_present heapData ->
  0 < node_fields_length heapData ->
  Z.of_nat (length (nodes heapData)) mod node_fields_length heapData = 0 ->
  exists g,
    handleHeapData heapData = Ok g /\
    Z.of_nat (length (heapArray g)) =
      Z.of_nat (length (nodes heapData)) / node_fields_length heapData /\
    forall k n,
      heapArray g !! k = Some n ->
      Node.index n = Z.of_nat k /\
      decoded_by_position heapData (node_record heapData k) n.
Proof.
  intros Ht Hw Hmod.
  destruct (handleHeapData_returns heapData Ht Hw) as [g Hg].
  exists g. split; [done|]. split.
  - rewrite (heapArray_length heapData g Hw Hg).
    by apply stride_count_exact.
  - intros k n Hk.
    destruct (decoded_at_position heapData k n
                (handleHeapData_decoded_at _ _ _ _ Hg Hk)) as [Hpos Hidx].
    split; [by apply Hidx|done].
Qed.

Lemma heapArray_one_node_per_stride_witness :
  exists g,
    handleHeapData Sample.three_nodes = Ok g /\
    Z.of_nat (length (heapArray g)) = 18 / 6 /\
    forall k n,
      heapArray g !! k = Some n ->
      Node.index n = Z.of_nat k /\
      decoded_by_position Sample.three_nodes
        (node_record Sample.three_nodes k) n.
Proof.
  apply (heapArray_one_node_per_stride Sample.three_nodes).
  - split; eexists; reflexivity.
  - reflexivity.
  - reflexivity.
Defined.

Lemma column_of_v8 (rest : list string) :
  column_of (v8_node_fields ++ rest) "type" = Some 0%nat /\
  column_of (v8_node_fields ++ rest) "name" = Some 1%nat /\
  column_of (v8_node_fields ++ rest) "id" = Some 2%nat /\
  column_of (v8_node_fields ++ rest) "self_size" = Some 3%nat /\
  column_of (v8_node_fields ++ rest) "edge_count" = Some 4%nat /\
  column_of (v8_node_fields ++ rest) "trace_node_id" = Some 5%nat.
Proof. repeat split. Qed.

(** C8, as the code has it. Every decoded node takes [type], [name],
    [id], [self_size], [edge_count] and [trace_node_id] from the columns
    0 to 5 of its record, whatever names [meta.node_fields] declares;
    that is the declared layout when [node_fields] starts with
    type, name, id, self_size, edge_count, trace_node_id. *)
Theorem nodes_decoded_by_position (heapData : HeapData) (g : HeapGraph)
    (k : nat) (n : Node.t) :
  handleHeapData heapData = Ok g ->
  heapArray g !! k = Some n ->
  decoded_by_position heapData (node_record heapData k) n /\
  (take 6 (node_fields (meta (snapshot heapData))) = v8_node_fields ->
   decoded_by_schema heapData (node_record heapData k) n).
Proof.
  intros Hg Hk.
  destruct (decoded_at_position heapData k n
              (handleHeapData_decoded_at _ _ _ _ Hg Hk)) as [Hpos _].
  split; [done|]. intros Hfields.
  unfold decoded_by_schema, field_by_name.
  rewrite <- (take_drop 6 (node_fields (meta (snapshot heapData)))), Hfields.
  destruct (column_of_v8 (drop 6 (node_fields (meta (snapshot heapData)))))
    as (-> & -> & -> & -> & -> & ->).
  exact Hpos.
Qed.

Lemma nodes_decoded_by_position_witness :
  exists g n,
    handleHeapData Sample.three_nodes = Ok g /\
    heapArray g !! 1%nat = Some n /\
    decoded_by_position Sample.three_nodes
      (node_record Sample.three_nodes 1) n /\
    (take 6 (node_fields (meta (snapshot Sample.three_nodes))) = v8_node_fields ->
     decoded_by_schema Sample.three_nodes
       (node_record Sample.three_nodes 1) n).
Proof.
  eexists _, _. split; [vm_compute; reflexivity|]. split; [reflexivity|].
  eapply (nodes_decoded_by_position Sample.three_nodes);
    vm_compute; reflexivity.
Defined.

(** C8, as stated, fails: with the name column declared
    before the type column, the node at index 1 still gets its type from
    column 0. *)
Lemma schema_order_ignored :
  exists g n,
    handleHeapData Sample.name_first = Ok g /\
    heapArray g !! 1%nat = Some n /\
    ~ decoded_by_schema Sample.name_first
        (node_record Sample.name_first 1) n.
Proof.
  eexists _, _. split; [vm_compute; reflexivity|]. split; [reflexivity|].
  intros (Htype & _). vm_compute in Htype. discriminate.
Qed.

(** ** The root *)

Lemma node_record_cell (heapData : HeapData) (k j : nat) :
  Z.of_nat j < node_fields_length heapData ->
  node_record heapData k !! j =
    js_get (nodes heapData)
           (Some (Z.of_nat k * node_fields_length heapData + Z.of_nat j)).
Proof.
  intros Hj. unfold node_record.
  rewrite js_slice_lookup by (unfold node_fields_length in *; lia).
  rewrite decide_True by done. unfold js_get.
  destruct (Z.ltb_spec (Z.of_nat k * node_fields_length heapData + Z.of_nat j) 0)
    as [Hneg|_]; [unfold node_fields_length in *; lia|].
  f_equal. unfold node_fields_length in *. lia.
Qed.

(** What the decoder computes for the root: [rootIndex] is
    [snapshot.root_index], or 0 when that is absent, and [rootID] is
    ["@"] followed by the cell [nodes[rootIndex + 2]]. That cell is the
    identity of the node whose record starts at offset [rootIndex] of
    the flat array; it is the identity of the node at index [rootIndex]
    only for [rootIndex = 0]. *)
Theorem root_identity (heapData : HeapData) (g : HeapGraph) :
  handleHeapData heapData = Ok g ->
  rootIndex g = or_default (root_index (snapshot heapData)) 0 /\
  rootID g =
    "@" +:+ num_to_string (js_get (nodes heapData) (Some (rootIndex g + 2))) /\
  forall k n,
    3 <= node_fields_length heapData ->
    rootIndex g = Z.of_nat k * node_fields_length heapData ->
    heapArray g !! k = Some n ->
    rootID g = Node.id n.
Proof.
  intros Hg.
  destruct (handleHeapData_Ok _ _ Hg) as (st & _ & _ & _ & _ & Hroot & HrootID).
  split; [done|]. rewrite <- Hroot in HrootID. split; [done|].
  intros k n Hw Hk Hn.
  destruct (decoded_at_position heapData k n
              (handleHeapData_decoded_at _ _ _ _ Hg Hn))
    as [(_ & _ & Hid & _) _].
  rewrite HrootID, Hid, Hk.
  rewrite (node_record_cell heapData k 2) by lia. done.
Qed.

Lemma root_identity_witness :
  exists g n,
    handleHeapData Sample.three_nodes = Ok g /\
    heapArray g !! 0%nat = Some n /\
    rootIndex g = 0 /\
    rootID g = Node.id n.
Proof.
  eexists _, _. split; [vm_compute; reflexivity|]. split; [reflexivity|].
  split; [reflexivity|].
  match goal with
  | |- rootID ?g = _ =>
      apply (proj2 (proj2 (root_identity Sample.three_nodes g
                             ltac:(vm_compute; reflexivity))) 0%nat)
  end.
  - vm_compute. discriminate.
  - reflexivity.
  - reflexivity.
Defined.

(** C7. [rootID] should be the identity of the node whose canonical
    index is [rootIndex]; the decoder reads [nodes[rootIndex + 2]]
    without scaling [rootIndex] by the record width. On the capture of
    seven nodes that declares [root_index] 6 it returns ["@3"], the
    identity of node 1, while the node at index 6 has identity ["@13"];
    the ranking, which compares [rootIndex] with node indices, leaves
    out node 6 as the root and lists node 1. *)
Lemma rootID_not_of_indexed_node :
  exists g n r,
    handleHeapData Sample.rooted_at_6 = Ok g /\
    rootIndex g = 6 /\
    heapArray g !! 6%nat = Some n /\
    Node.index n = rootIndex g /\
    rootID g = "@3" /\
    Node.id n = "@13" /\
    rootID g <> Node.id n /\
    fetchHeapUsage (Sample.engine [90; 10; 30; 20; 30; 50; 70]
                                  [2; 2; 2; 3; 3; 4; 2])
                   Sample.rooted_at_6 (Some 7) = Ok r /\
    LeakPoint.index <$> Report.leakPoint r = [0; 1; 2; 3; 4; 5] /\
    LeakPoint.id <$> Report.leakPoint r
      = ["@1"; "@3"; "@5"; "@7"; "@9"; "@11"].
Proof.
  eexists _, _, _. split; [vm_compute; reflexivity|].
  split; [reflexivity|]. split; [reflexivity|]. split; [reflexivity|].
  split; [reflexivity|]. split; [reflexivity|].
  split; [vm_compute; discriminate|].
  split; [vm_compute; reflexivity|]. split; reflexivity.
Qed.

(** ** Truncated captures *)

(** C4, as the code has it. A capture whose edge array is too short for
    the declared edge counts is decoded without any error: the graph
    that is returned has one node per stride of [nodes], and the
    children of each node are the records found in what
    [edges.slice(offset, offset + edge_count * edge_fields.length)]
    returns, a range that [slice] clamps to the end of the array. *)
Theorem truncated_snapshot_decodes (heapData : HeapData) :
  truncated heapData = true ->
  tables_present heapData ->
  0 < node_fields_length heapData ->
  exists g,
    handleHeapData heapData = Ok g /\
    length (heapArray g) = stride_count heapData /\
    forall k n,
      heapArray g !! k = Some n ->
      children_of heapData (node_edges_of heapData k) (Node.children n).
Proof.
  intros _ Ht Hw.
  destruct (handleHeapData_returns heapData Ht Hw) as [g Hg].
  exists g. split; [done|]. split; [by apply heapArray_length|].
  intros k n Hk.
  by destruct (handleHeapData_decoded_at _ _ _ _ Hg Hk) as (_ & _ & _ & H).
Qed.

Lemma truncated_snapshot_decodes_witness :
  exists g,
    handleHeapData Sample.cut_short = Ok g /\
    length (heapArray g) = stride_count Sample.cut_short /\
    forall k n,
      heapArray g !! k = Some n ->
      children_of Sample.cut_short (node_edges_of Sample.cut_short k)
                  (Node.children n).
Proof.
  apply (truncated_snapshot_decodes Sample.cut_short).
  - reflexivity.
  - split; eexists; reflexivity.
  - reflexivity.
Defined.

(** C4, as stated, fails: the capture whose last edge record
    is missing is decoded into a graph of three nodes, the node whose
    edge is missing having no children. *)
Lemma truncated_snapshot_no_error :
  truncated Sample.cut_short = true /\
  exists g n,
    handleHeapData Sample.cut_short = Ok g /\
    length (heapArray g) = 3%nat /\
    heapArray g !! 1%nat = Some n /\
    Node.edge_count n = Some 1 /\
    Node.children n = [].
Proof.
  split; [reflexivity|].
  eexists _, _. split; [vm_compute; reflexivity|]. repeat split.
Qed.

(** ** The adjacency index *)

Lemma extends_refl (m : gmap string EdgeEntry) : extends m m.
Proof. intros key entry H. exists entry. done. Qed.

Lemma extends_trans (m1 m2 m3 : gmap string EdgeEntry) :
  extends m1 m2 -> extends m2 m3 -> extends m1 m3.
Proof.
  intros H12 H23 key e1 H1.
  destruct (H12 key e1 H1) as (e2 & H2 & Hf2 & Ht2).
  destruct (H23 key e2 H2) as (e3 & H3 & Hf3 & Ht3).
  exists e3. split; [done|]. split; set_solver.
Qed.

Lemma push_from_ids_extends (m : gmap string EdgeEntry) key info :
  extends m (push_from_ids m key info).
Proof.
  intros key' entry H. unfold push_from_ids.
  destruct (decide (key = key')) as [->|Hne].
  - rewrite H, lookup_insert_eq. eexists. split; [done|]. simpl.
    split; set_solver.
  - destruct (m !! key); rewrite lookup_insert_ne by done;
      exists entry; done.
Qed.

Lemma push_to_ids_extends (m : gmap string EdgeEntry) key info :
  extends m (push_to_ids m key info).
Proof.
  intros key' entry H. unfold push_to_ids.
  destruct (decide (key = key')) as [->|Hne].
  - rewrite H, lookup_insert_eq. eexists. split; [done|]. simpl.
    split; set_solver.
  - destruct (m !! key); rewrite lookup_insert_ne by done;
      exists entry; done.
Qed.

Lemma push_from_ids_has (m : gmap string EdgeEntry) key info :
  exists entry, push_from_ids m key info !! key = Some entry /\
                info ∈ from_ids entry.
Proof.
  unfold push_from_ids. destruct (m !! key);
    rewrite lookup_insert_eq; eexists; (split; [done|]); simpl; set_solver.
Qed.

Lemma push_to_ids_has (m : gmap string EdgeEntry) key info :
  exists entry, push_to_ids m key info !! key = Some entry /\
                info ∈ to_ids entry.
Proof.
  unfold push_to_ids. destruct (m !! key);
    rewrite lookup_insert_eq; eexists; (split; [done|]); simpl; set_solver.
Qed.

Lemma linked_extends (m m' : gmap string EdgeEntry) owner_id e :
  extends m m' -> linked m owner_id e -> linked m' owner_id e.
Proof.
  intros Hext [(ef & Hf & Hfin) (et & Ht & Htin)]. split.
  - destruct (Hext _ _ Hf) as (ef' & Hf' & Hsub & _). exists ef'.
    split; [done|]. set_solver.
  - destruct (Hext _ _ Ht) as (et' & Ht' & _ & Hsub). exists et'.
    split; [done|]. set_solver.
Qed.

Lemma record_edge_extends desc_id e (st : list Edge.t * gmap string EdgeEntry) :
  extends st.2 (record_edge desc_id e st).2.
Proof.
  destruct st as [children m]. simpl.
  eapply extends_trans; [apply push_from_ids_extends|apply push_to_ids_extends].
Qed.

Lemma record_edge_linked desc_id e (st : list Edge.t * gmap string EdgeEntry) :
  linked (record_edge desc_id e st).2 desc_id e.
Proof.
  destruct st as [children m]. simpl. split.
  - destruct (push_from_ids_has m (Edge.to_node e) (from_info desc_id e))
      as (entry & Hentry & Hin).
    destruct (push_to_ids_extends
                (push_from_ids m (Edge.to_node e) (from_info desc_id e))
                desc_id (to_info e) _ _ Hentry) as (entry' & H' & Hsub & _).
    exists entry'. split; [exact H'|]. set_solver.
  - apply push_to_ids_has.
Qed.

Lemma edge_loop_linked (heapData : HeapData) (desc_id : string)
    (node_edges : list Z) (m0 : gmap string EdgeEntry) fuel i st st' :
  Forall (linked st.2 desc_id) st.1 ->
  extends m0 st.2 ->
  edge_loop fuel heapData desc_id node_edges i st = Ok st' ->
  Forall (linked st'.2 desc_id) st'.1 /\ extends m0 st'.2.
Proof.
  intros Hl He Hloop.
  destruct (edge_loop_invariant heapData desc_id node_edges
              (fun _ st => Forall (linked st.2 desc_id) st.1
                           /\ extends m0 st.2))
    with (fuel := fuel) (i := i) (st := st) (st' := st')
    as (_ & H & _); [|done|done|done].
  clear. intros _ e st [Hl He] _ _. split.
  - pose proof (record_edge_extends desc_id e st) as Hext.
    pose proof (record_edge_linked desc_id e st) as Hnew.
    destruct st as [children m]. simpl in *.
    apply Forall_app. split.
    + eapply Forall_impl; [exact Hl|]. intros e'. by apply linked_extends.
    + by constructor.
  - eapply extends_trans; [exact He|apply record_edge_extends].
Qed.

Lemma node_loop_linked (heapData : HeapData) fuel i st st' :
  all_linked st ->
  node_loop fuel heapData i st = Ok st' ->
  all_linked st'.
Proof.
  intros Hst Hloop.
  destruct (node_loop_invariant heapData (fun _ st => all_linked st))
    with (fuel := fuel) (i := i) (st := st) (st' := st')
    as (_ & H & _); [|done|done|done].
  clear. intros i st st1 Hall _ Hstep.
  apply node_step_Ok in Hstep
    as (n0 & children & node_edges & Hn0 & Hne & Hloop & _ & Harr & _).
  eapply edge_loop_linked with (m0 := ds_edgesMap st) in Hloop;
    [|by constructor|apply extends_refl].
  simpl in Hloop. destruct Hloop as [Hnew Hext].
  intros n Hn. rewrite Harr in Hn. apply elem_of_app in Hn as [Hn|Hn].
  - eapply Forall_impl; [exact (Hall n Hn)|].
    intros e. by apply linked_extends.
  - apply list_elem_of_singleton in Hn as ->. exact Hnew.
Qed.

Lemma handleHeapData_linked (heapData : HeapData) (g : HeapGraph)
    (n : Node.t) (e : Edge.t) :
  handleHeapData heapData = Ok g ->
  n ∈ heapArray g -> e ∈ Node.children n ->
  linked (edgesMap g) (Node.id n) e.
Proof.
  intros Hg Hn He.
  apply handleHeapData_Ok in Hg as (st & Hloop & _ & Harr & Hem & _).
  apply node_loop_linked in Hloop.
  - rewrite Harr in Hn. rewrite Hem.
    pose proof (Hloop n Hn) as Hall. rewrite Forall_forall in Hall. eauto.
  - intros n' Hn'. simpl in Hn'. by apply elem_of_nil in Hn'.
Qed.

(** An edge whose [index] is the whole number [k] was read from a record
    whose target cell is the offset of record [k]. *)
Lemma js_div_whole (a : option Z) (b : Z) (k : Z) :
  0 < b -> js_div a b = Num k 1 -> a = Some (k * b).
Proof.
  intros Hb. unfold js_div. destruct a as [a|]; [|done].
  destruct (Z.eqb_spec b 0) as [?|_]; [lia|].
  intros [= Hk Hd].
  pose proof (Z.gcd_nonneg a b) as Hg0.
  destruct (Z.gcd_divide_l a b) as [qa Ha].
  destruct (Z.gcd_divide_r a b) as [qb Hqb].
  set (g := Z.gcd a b) in *.
  assert (Hgne : g <> 0) by (intros Hz; rewrite Hz in Hqb; lia).
  assert (Hgpos : 0 < g) by lia.
  assert (Hbg : b / g = qb) by (rewrite Hqb at 1; apply Z.div_mul; lia).
  assert (Hag : a / g = qa) by (rewrite Ha at 1; apply Z.div_mul; lia).
  assert (Hqbpos : 0 < qb) by nia.
  rewrite Hbg in Hd.
  assert (qb = 1) by lia.
  f_equal. nia.
Qed.

Lemma decoded_edge_target (heapData : HeapData) (node_edge : list Z)
    (e : Edge.t) (k : nat) :
  0 < node_fields_length heapData ->
  decode_edge heapData node_edge = Ok e ->
  Edge.index e = Num (Z.of_nat k) 1 ->
  Edge.to_node e =
    "@" +:+ num_to_string
              (js_get (nodes heapData)
                 (Some (Z.of_nat k * node_fields_length heapData + 2))).
Proof.
  intros Hw He Hidx. unfold decode_edge in He. inv_bind He.
  injection He as <-. simpl in *.
  apply js_div_whole in Hidx; [|exact Hw].
  rewrite Hidx. done.
Qed.

(** C5. In the graph the decoder returns, for every edge [e] held by a
    node [A] and leading to the node [B] (the node at the canonical index
    the edge carries), [e.to_node] is the identity of [B], the entry of
    [edgesMap] under the identity of [B] has in [from_ids] an element
    with the identity of [A], and the entry under the identity of [A]
    has in [to_ids] an element with the identity of [B], both with the
    type and the label of the edge. *)
Theorem edgesMap_bidirectional (heapData : HeapData) (g : HeapGraph)
    (a k : nat) (A B : Node.t) (e : Edge.t) :
  handleHeapData heapData = Ok g ->
  3 <= node_fields_length heapData ->
  heapArray g !! a = Some A ->
  e ∈ Node.children A ->
  Edge.index e = Num (Z.of_nat k) 1 ->
  heapArray g !! k = Some B ->
  Edge.to_node e = Node.id B /\
  (exists entry info,
      edgesMap g !! Node.id B = Some entry /\
      info ∈ from_ids entry /\
      AddressInfo.id info = Node.id A /\
      AddressInfo.type info = Edge.type e /\
      AddressInfo.name_or_index info = Edge.name_or_index e) /\
  (exists entry info,
      edgesMap g !! Node.id A = Some entry /\
      info ∈ to_ids entry /\
      AddressInfo.id info = Node.id B /\
      AddressInfo.type info = Edge.type e /\
      AddressInfo.name_or_index info = Edge.name_or_index e).
Proof.
  intros Hg Hw HA He Hidx HB.
  assert (Hto : Edge.to_node e = Node.id B).
  { pose proof (decoded_at_children _ _ _
                  (handleHeapData_decoded_at _ _ _ _ Hg HA)) as Hch.
    rewrite Forall_forall in Hch.
    destruct (Hch e He) as (node_edge & _ & Hdec).
    rewrite (decoded_edge_target heapData node_edge e k) by (done || lia).
    destruct (decoded_at_position heapData k B
                (handleHeapData_decoded_at _ _ _ _ Hg HB))
      as [(_ & _ & -> & _) _].
    rewrite (node_record_cell heapData k 2) by lia. done. }
  split; [done|].
  assert (HAin : A ∈ heapArray g) by (eapply list_elem_of_lookup_2; eauto).
  destruct (handleHeapData_linked heapData g A e Hg HAin He)
    as [(ef & Hef & Hfin) (et & Het & Htin)].
  split.
  - exists ef, (from_info (Node.id A) e). rewrite <- Hto. done.
  - exists et, (to_info e). rewrite <- Hto. done.
Qed.

Lemma edgesMap_bidirectional_witness :
  exists g A B e,
    handleHeapData Sample.three_nodes = Ok g /\
    heapArray g !! 0%nat = Some A /\
    Node.children A !! 0%nat = Some e /\
    heapArray g !! 1%nat = Some B /\
    Edge.to_node e = Node.id B /\
    (exists entry info,
        edgesMap g !! Node.id B = Some entry /\
        info ∈ from_ids entry /\
        AddressInfo.id info = Node.id A /\
        AddressInfo.type info = Edge.type e /\
        AddressInfo.name_or_index info = Edge.name_or_index e) /\
    (exists entry info,
        edgesMap g !! Node.id A = Some entry /\
        info ∈ to_ids entry /\
        AddressInfo.id info = Node.id B /\
        AddressInfo.type info = Edge.type e /\
        AddressInfo.name_or_index info = Edge.name_or_index e).
Proof.
  eexists _, _, _, _. split; [vm_compute; reflexivity|].
  split; [reflexivity|]. split; [reflexivity|]. split; [reflexivity|].
  eapply (edgesMap_bidirectional Sample.three_nodes _ 0 1).
  - vm_compute. reflexivity.
  - vm_compute. discriminate.
  - reflexivity.
  - simpl. left.
  - reflexivity.
  - reflexivity.
Defined.

(** ** Edge labels *)

Lemma v8_edge_type_element_or_hidden (k : option Z) :
  (js_get v8_edge_type_names k = Some "element" \/
   js_get v8_edge_type_names k = Some "hidden") <->
  is_element_or_hidden k = true.
Proof.
  destruct k as [t|]; [|simpl; intuition congruence].
  destruct (decide (t < 0)) as [Hneg|Hpos].
  { unfold js_get, is_element_or_hidden, HeapGraphEdgeType.kElement,
      HeapGraphEdgeType.kHidden.
    destruct (Z.ltb_spec t 0); [|lia].
    destruct (Z.eqb_spec t 1); [lia|]. destruct (Z.eqb_spec t 4); [lia|].
    simpl. intuition congruence. }
  destruct (decide (7 <= t)) as [Hbig|Hsmall].
  { unfold js_get, is_element_or_hidden, HeapGraphEdgeType.kElement,
      HeapGraphEdgeType.kHidden.
    destruct (Z.ltb_spec t 0); [lia|].
    rewrite lookup_ge_None_2 by (simpl; lia).
    destruct (Z.eqb_spec t 1); [lia|]. destruct (Z.eqb_spec t 4); [lia|].
    simpl. intuition congruence. }
  assert (Hcases : t = 0 \/ t = 1 \/ t = 2 \/ t = 3 \/ t = 4 \/ t = 5 \/ t = 6)
    by lia.
  destruct Hcases as [->|[->|[->|[->|[->|[->| ->]]]]]];
    vm_compute; intuition congruence.
Qed.

(** C6, as the code has it. The label of a decoded edge is decided by the
    raw type cell of its record: the bracketed raw name cell when that
    cell is 1 (kElement) or 4 (kHidden), the string-table entry of the
    name cell otherwise. With V8's table of edge type names this is
    the case exactly when the edge's type is "element" or "hidden". *)
Theorem edge_label_by_raw_type (heapData : HeapData) (g : HeapGraph)
    (a : nat) (A : Node.t) (e : Edge.t) :
  handleHeapData heapData = Ok g ->
  heapArray g !! a = Some A ->
  e ∈ Node.children A ->
  exists node_edge,
    edge_record heapData node_edge /\
    type_lookup (edge_types (meta (snapshot heapData))) (node_edge !! 0%nat)
      = Ok (Edge.type e) /\
    Edge.name_or_index e =
      (if is_element_or_hidden (node_edge !! 0%nat)
       then "[" +:+ num_to_string (node_edge !! 1%nat) +:+ "]"
       else str_to_string (js_get (strings heapData) (node_edge !! 1%nat))) /\
    (edge_types (meta (snapshot heapData)) !! 0%nat
       = Some (Enum v8_edge_type_names) ->
     (Edge.type e = Some "element" \/ Edge.type e = Some "hidden") <->
     is_element_or_hidden (node_edge !! 0%nat) = true).
Proof.
  intros Hg HA He.
  pose proof (decoded_at_children _ _ _
                (handleHeapData_decoded_at _ _ _ _ Hg HA)) as Hch.
  rewrite Forall_forall in Hch.
  destruct (Hch e He) as (node_edge & Hrec & Hdec).
  exists node_edge. split; [done|].
  unfold decode_edge in Hdec. apply bind_Ok in Hdec as (ty & Hty & Hdec).
  injection Hdec as <-. simpl.
  split; [done|]. split; [done|].
  intros Htable. unfold type_lookup in Hty. rewrite Htable in Hty.
  injection Hty as <-. apply v8_edge_type_element_or_hidden.
Qed.

Lemma edge_label_by_raw_type_witness :
  exists g A e,
    handleHeapData Sample.three_nodes = Ok g /\
    heapArray g !! 0%nat = Some A /\
    Node.children A !! 0%nat = Some e /\
    Edge.type e = Some "element" /\
    Edge.name_or_index e = "[3]" /\
    exists node_edge,
      edge_record Sample.three_nodes node_edge /\
      type_lookup (edge_types (meta (snapshot Sample.three_nodes)))
                  (node_edge !! 0%nat) = Ok (Edge.type e) /\
      Edge.name_or_index e =
        (if is_element_or_hidden (node_edge !! 0%nat)
         then "[" +:+ num_to_string (node_edge !! 1%nat) +:+ "]"
         else str_to_string
                (js_get (strings Sample.three_nodes) (node_edge !! 1%nat))) /\
      (edge_types (meta (snapshot Sample.three_nodes)) !! 0%nat
         = Some (Enum v8_edge_type_names) ->
       (Edge.type e = Some "element" \/ Edge.type e = Some "hidden") <->
       is_element_or_hidden (node_edge !! 0%nat) = true).
Proof.
  eexists _, _, _. split; [vm_compute; reflexivity|].
  split; [reflexivity|]. split; [reflexivity|]. split; [reflexivity|].
  split; [reflexivity|].
  eapply (edge_label_by_raw_type Sample.three_nodes _ 0).
  - vm_compute. reflexivity.
  - reflexivity.
  - simpl. left.
Defined.

(** C6, as stated, fails: under a table that names type 2
    "element", an edge of type "element" with name cell 1 is labelled
    with the string-table entry ["a"] and not with ["[1]"]. *)
Lemma element_edge_labelled_from_string_table :
  exists g A e,
    handleHeapData Sample.renumbered_edge_types = Ok g /\
    heapArray g !! 0%nat = Some A /\
    Node.children A !! 1%nat = Some e /\
    Edge.type e = Some "element" /\
    Edge.name_or_index e = "a" /\
    Edge.name_or_index e <> "[" +:+ num_to_string (Some 1) +:+ "]".
Proof.
  eexists _, _, _. split; [vm_compute; reflexivity|].
  repeat split. vm_compute. discriminate.
Qed.

(** ** Sorting *)

(** The two facts about [sort] that the ranking results rest on: the
    array keeps its elements, and afterwards no entry is followed by one
    of larger size. *)

Lemma CountAndMakeRun_perm {A} (comparefn : A -> A -> Z) (l : list A) :
  (CountAndMakeRun comparefn l).1 ++ (CountAndMakeRun comparefn l).2 ≡ₚ l.
Proof.
  unfold CountAndMakeRun. destruct l as [|h [|w rest]]; [done|done|].
  cbv zeta. set (n := (2 + _)%nat).
  destruct (comparefn w h <? 0); cbn [fst snd];
    rewrite <- ?Permutation_rev; by rewrite take_drop.
Qed.

Lemma binary_insert_perm {A} (comparefn : A -> A -> Z) (l : list A) (x : A) :
  binary_insert comparefn l x ≡ₚ x :: l.
Proof.
  unfold binary_insert. cbv zeta. rewrite <- Permutation_middle.
  by rewrite take_drop.
Qed.

Lemma array_sort_perm {A} (comparefn : A -> A -> Z) (l : list A) :
  array_sort comparefn l ≡ₚ l.
Proof.
  unfold array_sort. pose proof (CountAndMakeRun_perm comparefn l) as Hrun.
  destruct (CountAndMakeRun comparefn l) as [run rest]. cbn [fst snd] in Hrun.
  rewrite <- Hrun. clear Hrun. revert run.
  induction rest as [|x rest IH]; intros run; simpl.
  - by rewrite app_nil_r.
  - rewrite IH, binary_insert_perm. by rewrite <- Permutation_middle.
Qed.

#[local] Instance size_ge_trans : Transitive size_ge.
Proof. unfold size_ge. intros x y z. lia. Qed.

#[local] Instance size_le_trans : Transitive size_le.
Proof. unfold size_le. intros x y z. lia. Qed.

Lemma rev_descending (l : list LeakPoint.t) :
  StronglySorted size_le l -> StronglySorted size_ge (rev l).
Proof.
  induction 1 as [|t l Hl IH Ht]; simpl; [constructor|].
  apply StronglySorted_app_2; [|done|repeat constructor].
  intros x1 x2 H1 H2. apply list_elem_of_singleton in H2 as ->.
  apply list_elem_of_In, in_rev, list_elem_of_In in H1.
  rewrite Forall_forall in Ht. exact (Ht _ H1).
Qed.

(** A run found by [CountAndMakeRun]: each element stands to the one
    before it as the first two do. *)
Lemma run_sorted (isDescending : bool) (prev : LeakPoint.t)
    (rest : list LeakPoint.t) :
  Sorted (if isDescending then size_le else size_ge)
         (prev :: take (run_length_from by_size_desc isDescending prev rest)
                       rest).
Proof.
  revert prev. induction rest as [|cur rest IH]; intros prev; simpl.
  - repeat constructor.
  - assert (Hcmp : by_size_desc cur prev =
                   if LeakPoint.size cur <? LeakPoint.size prev then 1 else -1)
      by done.
    rewrite Hcmp. clear Hcmp.
    destruct isDescending;
      destruct (Z.ltb_spec (LeakPoint.size cur) (LeakPoint.size prev));
      simpl.
    + constructor; constructor.
    + constructor; [apply IH|]. constructor. unfold size_le. lia.
    + constructor; [apply IH|]. constructor. unfold size_ge. lia.
    + constructor; constructor.
Qed.

Lemma CountAndMakeRun_descending (l : list LeakPoint.t) :
  StronglySorted size_ge (CountAndMakeRun by_size_desc l).1.
Proof.
  unfold CountAndMakeRun. destruct l as [|h [|w rest]].
  - constructor.
  - repeat constructor.
  - cbv zeta.
    pose proof (run_sorted (by_size_desc w h <? 0) w rest) as Hrun.
    assert (Hcmp : by_size_desc w h =
                   if LeakPoint.size w <? LeakPoint.size h then 1 else -1)
      by done.
    rewrite Hcmp in *. clear Hcmp.
    destruct (Z.ltb_spec (LeakPoint.size w) (LeakPoint.size h)) as [Hlt|Hge];
      simpl in *.
    + apply Sorted_StronglySorted; [apply _|].
      constructor; [done|]. constructor. unfold size_ge. lia.
    + apply (rev_descending
               (h :: w :: take (run_length_from by_size_desc true w rest)
                               rest)).
      apply Sorted_StronglySorted; [apply _|].
      constructor; [done|]. constructor. unfold size_le. lia.
Qed.

Lemma StronglySorted_lookup {A} (R : relation A) (l : list A) (i j : nat)
    (x y : A) :
  StronglySorted R l -> (i < j)%nat ->
  l !! i = Some x -> l !! j = Some y -> R x y.
Proof.
  intros Hl Hij Hi Hj. rewrite <- (take_drop j l) in Hl.
  apply StronglySorted_app in Hl as (Hrel & _ & _). apply Hrel.
  - apply list_elem_of_lookup. exists i. by rewrite lookup_take_lt.
  - apply list_elem_of_lookup. exists 0%nat.
    rewrite lookup_drop. by rewrite Nat.add_0_r.
Qed.

(** Where the binary search stops: every entry in front of that place is
    larger than the pivot, none behind it is. *)
Lemma insertion_point_spec (pivot : LeakPoint.t) (l : list LeakPoint.t) :
  StronglySorted size_ge l ->
  forall fuel left right,
    (right - left <= fuel)%nat -> (left <= right <= length l)%nat ->
    (forall j x, (j < left)%nat -> l !! j = Some x ->
                 LeakPoint.size pivot < LeakPoint.size x) ->
    (forall j x, (right <= j)%nat -> l !! j = Some x ->
                 LeakPoint.size x <= LeakPoint.size pivot) ->
    let p := insertion_point by_size_desc pivot l fuel left right in
    (forall j x, (j < p)%nat -> l !! j = Some x ->
                 LeakPoint.size pivot < LeakPoint.size x) /\
    (forall j x, (p <= j)%nat -> l !! j = Some x ->
                 LeakPoint.size x <= LeakPoint.size pivot).
Proof.
  intros Hl. induction fuel as [|fuel IH]; intros left right Hfuel Hlr HL HR.
  - simpl. assert (left = right) as -> by lia. done.
  - simpl. destruct (Nat.ltb_spec left right) as [Hlt|Hge].
    2: { assert (left = right) as -> by lia. done. }
    assert (Hmid : (left <= left + Nat.div2 (right - left) < right)%nat).
    { pose proof (Nat.lt_div2 (right - left) ltac:(lia)) as Hhalf.
      revert Hhalf. generalize (Nat.div2 (right - left)). intros d Hd. lia. }
    set (mid := (left + Nat.div2 (right - left))%nat) in *.
    destruct (lookup_lt_is_Some_2 l mid ltac:(lia)) as [x Hx]. rewrite Hx.
    assert (Hcmp : by_size_desc pivot x =
                   if LeakPoint.size pivot <? LeakPoint.size x then 1 else -1)
      by done.
    rewrite Hcmp. clear Hcmp.
    destruct (Z.ltb_spec (LeakPoint.size pivot) (LeakPoint.size x))
      as [Hsmall|Hlarge]; simpl.
    + apply IH; [lia|lia| |done].
      intros j y Hj Hy. destruct (decide (j = mid)) as [->|Hne].
      * rewrite Hx in Hy. injection Hy as <-. done.
      * pose proof (StronglySorted_lookup _ _ j mid y x Hl ltac:(lia) Hy Hx)
          as Hrel.
        unfold size_ge in Hrel. lia.
    + apply IH; [lia|lia|done|].
      intros j y Hj Hy. destruct (decide (j = mid)) as [->|Hne].
      * rewrite Hx in Hy. injection Hy as <-. done.
      * pose proof (StronglySorted_lookup _ _ mid j x y Hl ltac:(lia) Hx Hy)
          as Hrel.
        unfold size_ge in Hrel. lia.
Qed.

Lemma binary_insert_descending (l : list LeakPoint.t) (pivot : LeakPoint.t) :
  StronglySorted size_ge l ->
  StronglySorted size_ge (binary_insert by_size_desc l pivot).
Proof.
  intros Hl. unfold binary_insert. cbv zeta.
  destruct (insertion_point_spec pivot l Hl (length l) 0 (length l))
    as [Hfront Hback]; [lia|lia| | |].
  { intros j x Hj. lia. }
  { intros j x Hj Hx. apply lookup_lt_Some in Hx. lia. }
  set (p := insertion_point by_size_desc pivot l (length l) 0 (length l)) in *.
  pose proof Hl as Hl'. rewrite <- (take_drop p l) in Hl'.
  apply StronglySorted_app in Hl' as (Hrel & Htake & Hdrop).
  apply StronglySorted_app_2; [|done|].
  - intros x1 x2 H1 H2. apply elem_of_cons in H2 as [->|H2]; [|by apply Hrel].
    apply list_elem_of_lookup in H1 as [j Hj].
    pose proof (lookup_lt_Some _ _ _ Hj) as Hlt. rewrite length_take in Hlt.
    rewrite lookup_take_lt in Hj by lia.
    pose proof (Hfront j x1 ltac:(lia) Hj). unfold size_ge. lia.
  - constructor; [done|]. apply Forall_forall. intros y Hy.
    apply list_elem_of_lookup in Hy as [j Hj]. rewrite lookup_drop in Hj.
    pose proof (Hback (p + j)%nat y ltac:(lia) Hj). unfold size_ge. lia.
Qed.

Lemma array_sort_descending (l : list LeakPoint.t) :
  StronglySorted size_ge (array_sort by_size_desc l).
Proof.
  unfold array_sort. pose proof (CountAndMakeRun_descending l) as Hrun.
  destruct (CountAndMakeRun by_size_desc l) as [run rest]. cbn [fst] in Hrun.
  revert run Hrun. induction rest as [|x rest IH]; intros run Hrun; simpl.
  - done.
  - apply IH. by apply binary_insert_descending.
Qed.

Lemma array_sort_sorted_desc (l : list LeakPoint.t) :
  sorted_desc (array_sort by_size_desc l).
Proof. apply StronglySorted_Sorted, array_sort_descending. Qed.

(** After the sort the last entry has the smallest size. *)
Lemma array_sort_last (l : list LeakPoint.t) (m : Z) :
  smallest_size m l ->
  exists kept smallest,
    array_sort by_size_desc l = kept ++ [smallest] /\
    LeakPoint.size smallest = m /\
    StronglySorted size_ge kept.
Proof.
  intros [(e & He & Hem) Hall].
  pose proof (array_sort_perm by_size_desc l) as Hperm.
  pose proof (array_sort_descending l) as Hsorted.
  destruct (last (array_sort by_size_desc l)) as [s|] eqn:Hlast.
  - apply last_Some in Hlast as [kept Hkept]. exists kept, s.
    split; [done|]. rewrite Hkept in Hsorted, Hperm.
    apply StronglySorted_app in Hsorted as (Hrel & Hk & _).
    split; [|done].
    assert (Hs : s ∈ l) by (rewrite <- Hperm; set_solver).
    rewrite Forall_forall in Hall. pose proof (Hall s Hs) as Hms.
    assert (He' : e ∈ kept ++ [s]) by (by rewrite Hperm).
    apply elem_of_app in He' as [He'|He'].
    + pose proof (Hrel e s He' ltac:(set_solver)) as Hes.
      unfold size_ge in Hes. lia.
    + apply list_elem_of_singleton in He' as ->. done.
  - apply last_None in Hlast. rewrite Hlast in Hperm.
    apply Permutation_nil_l in Hperm. subst l. by apply elem_of_nil in He.
Qed.

(** ** Ranking *)

Lemma reduce_invariant {S A} (callback : S -> A -> Z -> outcome S)
    (arr : list A) (P : nat -> S -> Prop) (init st' : S) :
  P 0%nat init ->
  (forall i st x st1,
      arr !! i = Some x -> P i st ->
      callback st x (Z.of_nat i) = Ok st1 -> P (Datatypes.S i) st1) ->
  reduce callback arr init = Ok st' ->
  P (length arr) st'.
Proof.
  intros Hinit Hstep. unfold reduce.
  assert (H : forall rest visited st,
             arr = visited ++ rest -> P (length visited) st ->
             reduce_from callback rest (Z.of_nat (length visited)) st = Ok st' ->
             P (length arr) st').
  { induction rest as [|x rest IH]; intros visited st Harr HP Hred.
    - simpl in Hred. injection Hred as <-.
      rewrite Harr, app_nil_r. done.
    - simpl in Hred. inv_bind Hred.
      apply (IH (visited ++ [x]) a).
      + rewrite Harr, <- app_assoc. done.
      + rewrite length_app. simpl.
        replace (length visited + 1)%nat with (Datatypes.S (length visited))
          by lia.
        eapply Hstep; [|exact HP|exact Ha].
        rewrite Harr. rewrite lookup_app_r by lia.
        by rewrite Nat.sub_diag.
      + rewrite length_app. simpl.
        replace (Z.of_nat (length visited + 1))
          with (Z.of_nat (length visited) + 1) by lia.
        done. }
  apply (H arr [] init); done.
Qed.

Section RankingProperties.
Context {Statistics Aggregates : Type}.
Implicit Types pre : Pre.t Statistics Aggregates.
Implicit Types st : gmap Z Node.t * Pre.t Statistics Aggregates.

(** The cases of one call of the callback. *)
Lemma leak_step_Ok rootIndex distancesList limit heapMap pre next index
      heapMap' pre' :
  leak_step rootIndex distancesList limit (heapMap, pre) next index
    = Ok (heapMap', pre') ->
  exists node,
    heapMap !! index = Some node /\
    heapMap' =
      <[index := annotate node next (js_get distancesList (Some index))]>
        heapMap /\
    ((eligible rootIndex distancesList index = false /\ pre' = pre) \/
     (eligible rootIndex distancesList index = true /\
      let entry := {| LeakPoint.index := index;
                      LeakPoint.id := Node.id node;
                      LeakPoint.size := next |} in
      ((Pre.length pre < limit /\
        pre' = set_leakPoint pre (Pre.leakPoint pre ++ [entry])
                             (Pre.length pre + 1)) \/
       (limit <= Pre.length pre /\
        exists kept smallest,
          array_sort by_size_desc (Pre.leakPoint pre) = kept ++ [smallest] /\
          ((LeakPoint.size smallest < next /\
            pre' = set_leakPoint pre (kept ++ [entry]) (Pre.length pre)) \/
           (next <= LeakPoint.size smallest /\
            pre' = set_leakPoint pre (kept ++ [smallest])
                                 (Pre.length pre))))))).
Proof.
  unfold leak_step, eligible. intros H.
  destruct (heapMap !! index) as [node|]; [|done].
  exists node. split; [done|].
  destruct (Z.eqb_spec index rootIndex) as [Hroot|Hroot]; cbn [negb andb].
  { injection H as <- <-. split; [done|]. by left. }
  destruct (distance_excluded (js_get distancesList (Some index)));
    cbn [negb andb].
  { injection H as <- <-. split; [done|]. by left. }
  destruct (Z.ltb_spec (Pre.length pre) limit) as [Hroom|Hfull].
  { injection H as <- <-. split; [done|]. right. split; [done|].
    left. done. }
  destruct (last (array_sort by_size_desc (Pre.leakPoint pre)))
    as [smallest|] eqn:Hlast; [|done].
  apply last_Some in Hlast as [kept Hkept]. rewrite Hkept in H.
  rewrite removelast_last in H.
  destruct (Z.ltb_spec (LeakPoint.size smallest) next) as [Hlt|Hge];
    injection H as <- <-; (split; [done|]); right; (split; [done|]);
    right; (split; [done|]); exists kept, smallest; (split; [done|]).
  - by left.
  - by right.
Qed.

(** The callback returns when [heapMap] has the node and the list
    tracked by [pre.length] can be popped. *)
Lemma leak_step_returns rootIndex distancesList limit heapMap pre next index :
  is_Some (heapMap !! index) ->
  Pre.length pre = Z.of_nat (length (Pre.leakPoint pre)) ->
  0 < limit ->
  exists heapMap' pre',
    leak_step rootIndex distancesList limit (heapMap, pre) next index
      = Ok (heapMap', pre').
Proof.
  intros [node Hnode] Hlen Hlimit. unfold leak_step. rewrite Hnode.
  destruct (index =? rootIndex); [eauto|].
  destruct (distance_excluded _); [eauto|].
  destruct (Z.ltb_spec (Pre.length pre) limit) as [Hroom|Hfull]; [eauto|].
  destruct (last (array_sort by_size_desc (Pre.leakPoint pre)))
    as [smallest|] eqn:Hlast.
  - destruct (LeakPoint.size smallest <? next); eauto.
  - apply last_None in Hlast.
    pose proof (array_sort_perm by_size_desc (Pre.leakPoint pre)) as Hperm.
    rewrite Hlast in Hperm. apply Permutation_nil_l in Hperm.
    rewrite <- Hperm in Hlen. simpl in Hlen. lia.
Qed.

Lemma within_limit_step rootIndex distancesList limit i st next st1 :
  within_limit rootIndex distancesList limit i st ->
  leak_step rootIndex distancesList limit st next (Z.of_nat i) = Ok st1 ->
  within_limit rootIndex distancesList limit (S i) st1.
Proof.
  destruct st as [heapMap pre], st1 as [heapMap1 pre1].
  intros (Hlen & Hmax & Hall) Hstep. simpl in *.
  assert (Hall' :
            Forall (fun e =>
                      0 <= LeakPoint.index e < Z.of_nat (S i) /\
                      eligible rootIndex distancesList (LeakPoint.index e)
                        = true) (Pre.leakPoint pre)).
  { eapply Forall_impl; [exact Hall|]. simpl. intros e [? ?].
    split; [lia|done]. }
  apply leak_step_Ok in Hstep as (node & _ & _ & Hcases).
  destruct Hcases as [[_ ->]|[Hel Hcases]]; [done|].
  destruct Hcases
    as [[Hroom ->]|(Hfull & kept & smallest & Hsort & Hcases)].
  - unfold within_limit. simpl. rewrite length_app. simpl.
    split; [lia|]. split; [lia|].
    apply Forall_app. split; [done|]. constructor; [|done]. simpl.
    split; [lia|done].
  - pose proof (array_sort_perm by_size_desc (Pre.leakPoint pre)) as Hperm.
    rewrite Hsort in Hperm.
    assert (Hsorted : Forall (fun e =>
              0 <= LeakPoint.index e < Z.of_nat (S i) /\
              eligible rootIndex distancesList (LeakPoint.index e) = true)
              (kept ++ [smallest])) by (by rewrite Hperm).
    assert (Hlength : length (kept ++ [smallest])
                      = length (Pre.leakPoint pre))
      by (by rewrite Hperm).
    apply Forall_app in Hsorted as [Hkept Hsmallest].
    rewrite length_app in Hlength. simpl in Hlength.
    destruct Hcases as [[_ ->]|[_ ->]]; unfold within_limit; simpl;
      rewrite length_app; simpl.
    + split; [lia|]. split; [done|].
      apply Forall_app. split; [done|]. constructor; [|done]. simpl.
      split; [lia|done].
    + split; [lia|]. split; [done|]. apply Forall_app. done.
Qed.

Lemma eligible_distance rootIndex distancesList index :
  0 <= index < Z.of_nat (length distancesList) ->
  eligible rootIndex distancesList index = true ->
  index <> rootIndex /\
  exists d, js_get distancesList (Some index) = Some d /\
            1 < d < 100000000.
Proof.
  intros Hrange. unfold eligible. intros H.
  apply andb_true_iff in H as [Hroot Hd].
  apply negb_true_iff in Hroot, Hd. apply Z.eqb_neq in Hroot.
  split; [done|]. unfold js_get in *.
  destruct (Z.ltb_spec index 0); [lia|].
  destruct (lookup_lt_is_Some_2 distancesList (Z.to_nat index)) as [d Hlook];
    [lia|].
  rewrite Hlook in *. exists d. split; [done|]. simpl in Hd.
  apply orb_false_iff in Hd as [H1 H2].
  apply Z.leb_gt in H1. rewrite Z.geb_leb in H2. apply Z.leb_gt in H2.
  lia.
Qed.

Lemma candidates_snoc rootIndex distancesList retained i next :
  retained !! i = Some next ->
  candidates rootIndex distancesList (take (S i) retained) =
    candidates rootIndex distancesList (take i retained)
    ++ (if eligible rootIndex distancesList (Z.of_nat i)
        then [(Z.of_nat i, next)] else []).
Proof.
  intros Hi. unfold candidates.
  rewrite (take_S_r _ _ _ Hi), imap_app, filter_app. f_equal.
  rewrite length_take_le by (apply lookup_lt_Some in Hi; lia).
  simpl. rewrite Nat.add_0_r.
  rewrite filter_cons, filter_nil. simpl.
  destruct (eligible rootIndex distancesList (Z.of_nat i));
    case_decide; done.
Qed.

Lemma encounter_or_sorted_step rootIndex distancesList retained limit
      i st next st1 :
  retained !! i = Some next ->
  encounter_or_sorted rootIndex distancesList retained limit i st ->
  leak_step rootIndex distancesList limit st next (Z.of_nat i) = Ok st1 ->
  encounter_or_sorted rootIndex distancesList retained limit (S i) st1.
Proof.
  destruct st as [heapMap pre], st1 as [heapMap1 pre1].
  intros Hi (Hlen & Horder & Hsorted) Hstep.
  unfold encounter_or_sorted in *. simpl in *.
  rewrite (candidates_snoc _ _ _ _ _ Hi).
  set (seen := candidates rootIndex distancesList (take i retained)) in *.
  apply leak_step_Ok in Hstep as (node & _ & _ & Hcases).
  destruct Hcases as [[Hel ->]|[Hel Hcases]]; rewrite Hel.
  { rewrite app_nil_r. done. }
  rewrite length_app. simpl.
  destruct Hcases
    as [[Hroom ->]|(Hfull & kept & smallest & Hsort & Hcases)].
  - simpl. rewrite length_app. simpl.
    assert (Hseen : Z.of_nat (length seen) <= limit).
    { destruct (decide (Z.of_nat (length seen) <= limit)); [done|].
      destruct Hsorted; lia. }
    specialize (Horder Hseen).
    assert (Hsame : length seen = length (Pre.leakPoint pre))
      by (by rewrite <- Horder, length_fmap).
    split; [lia|]. split; [|lia].
    intros _. rewrite fmap_app, Horder. done.
  - pose proof (array_sort_perm by_size_desc (Pre.leakPoint pre)) as Hperm.
    pose proof (array_sort_descending (Pre.leakPoint pre)) as Hdesc.
    rewrite Hsort in Hperm, Hdesc.
    assert (Hlength : length (kept ++ [smallest])
                      = length (Pre.leakPoint pre))
      by (by rewrite Hperm).
    rewrite length_app in Hlength. simpl in Hlength.
    apply StronglySorted_app_1_l, StronglySorted_Sorted in Hdesc.
    assert (Hover : limit < Z.of_nat (length seen + 1)).
    { destruct (decide (Z.of_nat (length seen) <= limit)) as [Hseen|]; [|lia].
      specialize (Horder Hseen).
      assert (length seen = length (Pre.leakPoint pre))
        by (by rewrite <- Horder, length_fmap).
      lia. }
    destruct Hcases as [[_ ->]|[_ ->]]; simpl; rewrite length_app; simpl;
      rewrite removelast_last; (split; [lia|]); (split; [lia|]); done.
Qed.

(** Over any run of the callback, an entry stays in the list as long as
    no node of strictly larger size comes in. *)
Lemma entry_outlives_smaller_or_equal rootIndex distancesList limit
      (e : LeakPoint.t) :
  forall (arr : list Z) (i : Z) st st',
    e ∈ Pre.leakPoint st.2 ->
    Forall (fun next => next <= LeakPoint.size e) arr ->
    reduce_from (leak_step rootIndex distancesList limit) arr i st = Ok st' ->
    e ∈ Pre.leakPoint st'.2.
Proof.
  induction arr as [|next arr IH]; intros i st st' He Hall Hrun.
  - simpl in Hrun. by injection Hrun as <-.
  - simpl in Hrun. apply bind_Ok in Hrun as (st1 & Hstep & Hrun).
    apply Forall_cons in Hall as [Hnext Hall].
    apply (IH (i + 1) st1 st'); [|done|done].
    destruct st as [heapMap pre], st1 as [heapMap1 pre1]. simpl in *.
    apply leak_step_Ok in Hstep as (node & _ & _ & Hcases).
    destruct Hcases as [[_ ->]|[_ Hcases]]; [done|].
    destruct Hcases
      as [[_ ->]|(_ & kept & smallest & Hsort & Hcases)]; simpl.
    + set_solver.
    + pose proof (array_sort_perm by_size_desc (Pre.leakPoint pre)) as Hperm.
      rewrite Hsort in Hperm. rewrite <- Hperm in He.
      destruct Hcases as [[Hlt ->]|[_ ->]]; simpl; [|done].
      apply elem_of_app in He as [He|He]; [set_solver|].
      apply list_elem_of_singleton in He as ->. lia.
Qed.
End RankingProperties.

Lemma peakLeakPoint_Ok {Statistics Aggregates}
    (new_JSHeapSnapshot :
       HeapData -> HeapSnapshotWorker.JSHeapSnapshot Statistics Aggregates)
    (P : nat -> gmap Z Node.t * Pre.t Statistics Aggregates -> Prop)
    rootIndex heapData heapMap limit st' :
  let snap := new_JSHeapSnapshot heapData in
  (forall init, Pre.leakPoint init.2 = [] -> Pre.length init.2 = 0 ->
                P 0%nat init) ->
  (forall i st next st1,
      HeapSnapshotWorker._retainedSizes snap !! i = Some next ->
      P i st ->
      leak_step rootIndex (HeapSnapshotWorker._nodeDistances snap)
                (or_default limit 5) st next (Z.of_nat i) = Ok st1 ->
      P (S i) st1) ->
  peakLeakPoint new_JSHeapSnapshot rootIndex heapData heapMap limit = Ok st' ->
  P (length (HeapSnapshotWorker._retainedSizes snap)) st'.
Proof.
  intros snap Hinit Hstep Hrun. unfold peakLeakPoint in Hrun.
  eapply (reduce_invariant _ _ P); [|exact Hstep|exact Hrun].
  by apply Hinit.
Qed.

(** C1, as the code has it. With distances given for every node that has
    a retained size, the list [peakLeakPoint] returns has at most
    [limit || 5] entries (the limit itself unless it is 0 or omitted,
    5 then; none when that is negative), no entry has the index
    [rootIndex], and every entry has a distance strictly between 1 and
    10^8. *)
Theorem peakLeakPoint_candidates {Statistics Aggregates}
    (new_JSHeapSnapshot :
       HeapData -> HeapSnapshotWorker.JSHeapSnapshot Statistics Aggregates)
    (rootIndex : Z) (heapData : HeapData) (heapMap : gmap Z Node.t)
    (limit : option Z) (heapMap' : gmap Z Node.t)
    (pre : Pre.t Statistics Aggregates) :
  let snap := new_JSHeapSnapshot heapData in
  length (HeapSnapshotWorker._nodeDistances snap)
    = length (HeapSnapshotWorker._retainedSizes snap) ->
  peakLeakPoint new_JSHeapSnapshot rootIndex heapData heapMap limit
    = Ok (heapMap', pre) ->
  (length (Pre.leakPoint pre) <= Z.to_nat (or_default limit 5))%nat /\
  Forall (fun e =>
            LeakPoint.index e <> rootIndex /\
            exists d,
              js_get (HeapSnapshotWorker._nodeDistances snap)
                     (Some (LeakPoint.index e)) = Some d /\
              1 < d < 100000000)
         (Pre.leakPoint pre).
Proof.
  intros snap Haligned Hrun.
  apply (peakLeakPoint_Ok new_JSHeapSnapshot
           (within_limit rootIndex (HeapSnapshotWorker._nodeDistances snap)
                         (or_default limit 5))) in Hrun.
  - destruct Hrun as (Hlen & Hmax & Hall). simpl in *. split; [lia|].
    eapply Forall_impl; [exact Hall|]. simpl. intros e [Hrange Hel].
    apply eligible_distance; [|done]. fold snap in Hrange. lia.
  - intros [hm init] Hnil Hzero. unfold within_limit. simpl in *.
    rewrite Hnil, Hzero. simpl. split; [done|]. split; [lia|constructor].
  - intros i st next st1 _. apply within_limit_step.
Qed.

Lemma peakLeakPoint_candidates_witness :
  exists heapMap' pre,
    peakLeakPoint (Sample.engine [1010; 1000; 1000] [0; 1; 2]) 0
                  Sample.three_nodes (Sample.heapMap_of Sample.three_nodes)
                  (Some 5)
      = Ok (heapMap', pre) /\
    Pre.leakPoint pre =
      [{| LeakPoint.index := 2; LeakPoint.id := "@9";
          LeakPoint.size := 1000 |}] /\
    (length (Pre.leakPoint pre) <= Z.to_nat 5)%nat /\
    Forall (fun e =>
              LeakPoint.index e <> 0 /\
              exists d,
                js_get [0; 1; 2] (Some (LeakPoint.index e)) = Some d /\
                1 < d < 100000000)
           (Pre.leakPoint pre).
Proof.
  eexists _, _. split; [vm_compute; reflexivity|]. split; [reflexivity|].
  eapply (peakLeakPoint_candidates
            (Sample.engine [1010; 1000; 1000] [0; 1; 2]) 0
            Sample.three_nodes (Sample.heapMap_of Sample.three_nodes)
            (Some 5)).
  - reflexivity.
  - vm_compute. reflexivity.
Defined.

(** C1, as stated, fails: called with [limit] 0 the ranking
    returns one entry, more than the limit it was given. *)
Lemma limit_zero_is_no_bound :
  exists heapMap' pre,
    peakLeakPoint (Sample.engine [1010; 1000; 1000] [0; 1; 2]) 0
                  Sample.three_nodes (Sample.heapMap_of Sample.three_nodes)
                  (Some 0)
      = Ok (heapMap', pre) /\
    ~ (Z.of_nat (length (Pre.leakPoint pre)) <= 0).
Proof.
  eexists _, _. split; [vm_compute; reflexivity|]. simpl. lia.
Qed.




(** Over any run of the callback, an entry leaves the list only when a
    node that passes the filters comes in with a strictly larger size. *)
Lemma entry_leaves_for_larger {Statistics Aggregates}
    rootIndex distancesList limit (e : LeakPoint.t) :
  forall (arr : list Z) (i : Z)
         (st st' : gmap Z Node.t * Pre.t Statistics Aggregates),
    e ∈ Pre.leakPoint st.2 ->
    reduce_from (leak_step rootIndex distancesList limit) arr i st = Ok st' ->
    e ∉ Pre.leakPoint st'.2 ->
    exists (j : nat) next,
      arr !! j = Some next /\
      eligible rootIndex distancesList (i + Z.of_nat j) = true /\
      LeakPoint.size e < next.
Proof.
  induction arr as [|next arr IH]; intros i st st' He Hrun Hout.
  - simpl in Hrun. by injection Hrun as <-.
  - simpl in Hrun. apply bind_Ok in Hrun as (st1 & Hstep & Hrun).
    destruct (decide (eligible rootIndex distancesList i = true /\
                      LeakPoint.size e < next)) as [[Hel Hlt]|Hno].
    { exists 0%nat, next. by rewrite Z.add_0_r. }
    assert (He1 : e ∈ Pre.leakPoint st1.2).
    { destruct st as [heapMap pre], st1 as [heapMap1 pre1].
      cbn [fst snd] in *.
      apply leak_step_Ok in Hstep as (node & _ & _ & Hcases).
      destruct Hcases as [[_ ->]|[Hel Hcases]]; [done|].
      destruct Hcases
        as [[_ ->]|(_ & kept & smallest & Hsort & Hcases)]; simpl.
      - set_solver.
      - pose proof (array_sort_perm by_size_desc (Pre.leakPoint pre)) as Hperm.
        rewrite Hsort in Hperm. rewrite <- Hperm in He.
        destruct Hcases as [[Hlt ->]|[_ ->]]; simpl; [|done].
        apply elem_of_app in He as [He|He]; [set_solver|].
        apply list_elem_of_singleton in He as ->. by destruct Hno. }
    destruct (IH (i + 1) st1 st' He1 Hrun Hout) as (j & nx & Hj & Hel & Hlt).
    exists (S j), nx. split; [done|]. split; [|done].
    by replace (i + Z.of_nat (S j)) with (i + 1 + Z.of_nat j) by lia.
Qed.

(** C3, as the code has it. When the list is full and a node that passes
    the filters comes in, the callback returns and: an incoming size not
    above the smallest kept size (equal to it, in particular) is not
    admitted and the kept entries stay; only a strictly larger size puts
    the incoming node in, in place of an entry of the smallest size; and
    an entry whose size is not below the incoming size is never the one
    that leaves. Over any run of the callback, an entry that was in the
    list and is no longer there was followed by a node that passes the
    filters and has a strictly larger size. Which entry of the smallest
    size leaves when several have it is left to the sort. *)
Theorem only_larger_size_evicts {Statistics Aggregates}
    (rootIndex : Z) (distancesList : list Z) (limit : Z) :
  (forall (heapMap : gmap Z Node.t) (pre : Pre.t Statistics Aggregates)
          (next index : Z) (node : Node.t) (m : Z),
      heapMap !! index = Some node ->
      eligible rootIndex distancesList index = true ->
      Pre.length pre = Z.of_nat (length (Pre.leakPoint pre)) ->
      Z.of_nat (length (Pre.leakPoint pre)) = limit ->
      smallest_size m (Pre.leakPoint pre) ->
      exists heapMap' pre',
        leak_step rootIndex distancesList limit (heapMap, pre) next index
          = Ok (heapMap', pre') /\
        (next <= m -> Pre.leakPoint pre' ≡ₚ Pre.leakPoint pre) /\
        (m < next ->
         exists kept victim,
           Pre.leakPoint pre ≡ₚ kept ++ [victim] /\
           LeakPoint.size victim = m /\
           Pre.leakPoint pre' =
             kept ++ [{| LeakPoint.index := index;
                         LeakPoint.id := Node.id node;
                         LeakPoint.size := next |}]) /\
        (forall e, e ∈ Pre.leakPoint pre -> next <= LeakPoint.size e ->
                   e ∈ Pre.leakPoint pre')) /\
  (forall (arr : list Z) (i : Z)
          (st st' : gmap Z Node.t * Pre.t Statistics Aggregates)
          (e : LeakPoint.t),
      reduce_from (leak_step rootIndex distancesList limit) arr i st
        = Ok st' ->
      e ∈ Pre.leakPoint st.2 ->
      e ∉ Pre.leakPoint st'.2 ->
      exists (j : nat) next,
        arr !! j = Some next /\
        eligible rootIndex distancesList (i + Z.of_nat j) = true /\
        LeakPoint.size e < next).
Proof.
  split.
  2: { intros arr i st st' e Hrun He Hout.
       exact (entry_leaves_for_larger rootIndex distancesList limit e
                arr i st st' He Hrun Hout). }
  intros heapMap pre next index node m Hnode Hel Hsync Hfull Hmin.
  assert (Hpos : 0 < limit).
  { destruct Hmin as [(e & He & _) _].
    destruct (Pre.leakPoint pre); [by apply elem_of_nil in He|].
    simpl in Hfull. lia. }
  destruct (leak_step_returns rootIndex distancesList limit heapMap pre
              next index) as (heapMap' & pre' & Hstep); [eauto|done|done|].
  exists heapMap', pre'. split; [done|].
  apply leak_step_Ok in Hstep as (node' & Hnode' & _ & Hcases).
  rewrite Hnode in Hnode'. injection Hnode' as <-.
  destruct Hcases as [[Hno _]|[_ Hcases]]; [congruence|].
  destruct Hcases
    as [[Hroom _]|(_ & kept & smallest & Hsort & Hcases)]; [lia|].
  destruct (array_sort_last _ _ Hmin) as (kept' & smallest' & Hsort' & Hm & _).
  rewrite Hsort in Hsort'. apply app_inj_tail in Hsort' as [<- <-].
  pose proof (array_sort_perm by_size_desc (Pre.leakPoint pre)) as Hperm.
  rewrite Hsort in Hperm.
  destruct Hcases as [[Hlt ->]|[Hge ->]]; simpl.
  - split; [lia|]. split.
    + intros _. exists kept, smallest. done.
    + intros e He Hsize. rewrite <- Hperm in He.
      apply elem_of_app in He as [He|He]; [set_solver|].
      apply list_elem_of_singleton in He as ->. lia.
  - split; [done|]. split; [lia|].
    intros e He _. by rewrite Hperm.
Qed.

Lemma only_larger_size_evicts_witness :
  (exists heapMap' pre',
      leak_step (Statistics := unit) (Aggregates := unit)
        0 [0; 2; 2; 3; 3; 4; 1] 2
        (Sample.heapMap_of Sample.seven_nodes,
         {| Pre.leakPoint :=
              [{| LeakPoint.index := 1; LeakPoint.id := "@3";
                  LeakPoint.size := 10 |};
               {| LeakPoint.index := 2; LeakPoint.id := "@5";
                  LeakPoint.size := 30 |}];
            Pre.length := 2;
            Pre.statistics := tt;
            Pre.aggregates := tt |})
        10 3
        = Ok (heapMap', pre') /\
      LeakPoint.index <$> Pre.leakPoint pre' = [2; 1]) /\
  (exists (j : nat) next,
      [10; 20] !! j = Some next /\
      eligible 0 [0; 2; 2; 2; 2] (3 + Z.of_nat j) = true /\
      10 < next).
Proof.
  pose proof (only_larger_size_evicts (Statistics := unit) (Aggregates := unit)
                0 [0; 2; 2; 3; 3; 4; 1] 2) as [Hstep _].
  pose proof (only_larger_size_evicts (Statistics := unit) (Aggregates := unit)
                0 [0; 2; 2; 2; 2] 2) as [_ Hrun].
  split.
  - destruct (Hstep
                (Sample.heapMap_of Sample.seven_nodes)
                {| Pre.leakPoint :=
                     [{| LeakPoint.index := 1; LeakPoint.id := "@3";
                         LeakPoint.size := 10 |};
                      {| LeakPoint.index := 2; LeakPoint.id := "@5";
                         LeakPoint.size := 30 |}];
                   Pre.length := 2;
                   Pre.statistics := tt;
                   Pre.aggregates := tt |}
                10 3
                {| Node.index := 3; Node.type := Some "object";
                   Node.name := Some "a"; Node.id := "@7";
                   Node.self_size := Num 8 1; Node.retain_size := Num 8 1;
                   Node.edge_count := Some 0; Node.trace_node_id := Some 0;
                   Node.children := []; Node.retainedSize := None;
                   Node.distance := None |}
                10)
      as (heapMap' & pre' & Hs & _).
    + vm_compute. reflexivity.
    + reflexivity.
    + reflexivity.
    + reflexivity.
    + split.
      * eexists. split; [apply list_elem_of_here|reflexivity].
      * repeat constructor; simpl; lia.
    + exists heapMap', pre'. split; [exact Hs|].
      vm_compute in Hs. injection Hs as _ <-. reflexivity.
  - destruct (reduce_from (leak_step (Statistics := unit) (Aggregates := unit)
                             0 [0; 2; 2; 2; 2] 2)
                [10; 20] 3
                (Sample.heapMap_of Sample.seven_nodes,
                 {| Pre.leakPoint :=
                      [{| LeakPoint.index := 1; LeakPoint.id := "@3";
                          LeakPoint.size := 10 |};
                       {| LeakPoint.index := 2; LeakPoint.id := "@5";
                          LeakPoint.size := 5 |}];
                    Pre.length := 2;
                    Pre.statistics := tt;
                    Pre.aggregates := tt |}))
      as [st'| |] eqn:Hr; [|vm_compute in Hr; discriminate..].
    apply (Hrun _ _ _ st'
             {| LeakPoint.index := 1; LeakPoint.id := "@3";
                LeakPoint.size := 10 |} Hr).
    + apply list_elem_of_here.
    + vm_compute in Hr. injection Hr as <-. simpl.
      rewrite !elem_of_cons, elem_of_nil. intros [[=]|[[=]|[]]].
Defined.

(** C3, as stated, fails for whole sequences. With room for two, node 1
    (size 10) and node 2 (size 5) fill the list; node 3 comes in with
    size 10, the size of node 1, and takes the place of node 2; node 4
    (size 20) then takes the place of node 1, the earlier of the two
    entries of size 10, and node 3 stays: the sort that precedes the
    eviction has put node 3 in front of node 1. *)
Lemma later_tie_outlives_earlier :
  (exists r,
      fetchHeapUsage (Sample.engine [100; 10; 5] [0; 2; 2; 2; 2])
                     Sample.seven_nodes (Some 2) = Ok r /\
      entry_key <$> Report.leakPoint r = [(1, 10); (2, 5)]) /\
  (exists r,
      fetchHeapUsage (Sample.engine [100; 10; 5; 10] [0; 2; 2; 2; 2])
                     Sample.seven_nodes (Some 2) = Ok r /\
      entry_key <$> Report.leakPoint r = [(1, 10); (3, 10)]) /\
  (exists r,
      fetchHeapUsage (Sample.engine [100; 10; 5; 10; 20] [0; 2; 2; 2; 2])
                     Sample.seven_nodes (Some 2) = Ok r /\
      entry_key <$> Report.leakPoint r = [(3, 10); (4, 20)]).
Proof.
  repeat split; eexists; (split; [vm_compute; reflexivity|reflexivity]).
Qed.

(** C10. A [limit] of 0, like an omitted one, is replaced by 5 in
    [peakLeakPoint] and so in [fetchHeapUsage]; called with [limit] 0
    on seven nodes of which six pass the filters, the main entry returns
    five candidates. *)
Theorem falsy_limit_defaults_to_5 :
  (forall (Statistics Aggregates : Type)
          (new_JSHeapSnapshot :
             HeapData ->
             HeapSnapshotWorker.JSHeapSnapshot Statistics Aggregates)
          (rootIndex : Z) (heapData : HeapData) (heapMap : gmap Z Node.t),
      peakLeakPoint new_JSHeapSnapshot rootIndex heapData heapMap (Some 0)
        = peakLeakPoint new_JSHeapSnapshot rootIndex heapData heapMap (Some 5)
      /\
      peakLeakPoint new_JSHeapSnapshot rootIndex heapData heapMap None
        = peakLeakPoint new_JSHeapSnapshot rootIndex heapData heapMap (Some 5)
      /\
      fetchHeapUsage new_JSHeapSnapshot heapData (Some 0)
        = fetchHeapUsage new_JSHeapSnapshot heapData (Some 5)
      /\
      fetchHeapUsage new_JSHeapSnapshot heapData None
        = fetchHeapUsage new_JSHeapSnapshot heapData (Some 5)) /\
  (exists r,
      fetchHeapUsage (Sample.engine [90; 10; 30; 20; 30; 50; 5]
                                    [0; 2; 2; 3; 3; 4; 2])
                     Sample.seven_nodes (Some 0) = Ok r /\
      length (Report.leakPoint r) = 5%nat).
Proof.
  split.
  - intros. repeat split.
  - eexists. split; [vm_compute; reflexivity|]. reflexivity.
Qed.

(** ** The calls return *)

Lemma node_loop_heapMap (heapData : HeapData) fuel st' :
  0 < node_fields_length heapData ->
  node_loop fuel heapData 0
    {| ds_offset := Some 0; ds_heapMap := ∅;
       ds_heapArray := []; ds_edgesMap := ∅ |} = Ok st' ->
  forall k : nat, ds_heapMap st' !! Z.of_nat k = ds_heapArray st' !! k.
Proof.
  intros Hw Hloop.
  destruct (node_loop_invariant heapData
    (fun i st =>
       i = Z.of_nat (length (ds_heapArray st)) * node_fields_length heapData /\
       forall k : nat, ds_heapMap st !! Z.of_nat k = ds_heapArray st !! k))
    with (fuel := fuel) (i := 0)
         (st := {| ds_offset := Some 0; ds_heapMap := ∅;
                   ds_heapArray := []; ds_edgesMap := ∅ |}) (st' := st')
    as (_ & [_ H] & _); [|simpl; split; [lia|done]|done|done].
  clear Hloop. intros i st st1 [Hi Hall] _ Hstep.
  apply node_step_Ok in Hstep
    as (n0 & children & node_edges & Hn0 & _ & _ & _ & Harr & Hmap).
  assert (Hidx : Node.index n0 = Z.of_nat (length (ds_heapArray st))).
  { unfold decode_node in Hn0. inv_bind Hn0. injection Hn0 as <-. simpl.
    rewrite Hi. apply Z.div_mul. unfold node_fields_length in Hw. lia. }
  rewrite Harr, Hmap, Hidx. split.
  - rewrite length_app. simpl. lia.
  - intros k. destruct (decide (k = length (ds_heapArray st))) as [->|Hne].
    + rewrite lookup_insert_eq, lookup_app_r by lia.
      by rewrite Nat.sub_diag.
    + rewrite lookup_insert_ne by lia. rewrite Hall.
      destruct (decide (k < length (ds_heapArray st))%nat).
      * by rewrite lookup_app_l by lia.
      * rewrite !lookup_ge_None_2; [done| |lia].
        rewrite length_app. simpl. lia.
Qed.

(** [heapMap] holds, under each index, the node at that position of
    [heapArray]. *)
Lemma heapMap_heapArray (heapData : HeapData) (g : HeapGraph) (k : nat) :
  0 < node_fields_length heapData ->
  handleHeapData heapData = Ok g ->
  heapMap g !! Z.of_nat k = heapArray g !! k.
Proof.
  intros Hw Hg. apply handleHeapData_Ok in Hg as (st & Hloop & -> & -> & _).
  by eapply node_loop_heapMap.
Qed.

Lemma reduce_from_returns {Statistics Aggregates}
    (rootIndex : Z) (distancesList : list Z) (limit : Z) :
  0 < limit ->
  forall (arr : list Z) (i : nat)
         (st : gmap Z Node.t * Pre.t Statistics Aggregates),
    within_limit rootIndex distancesList limit i st ->
    (forall j, (i <= j < i + length arr)%nat -> is_Some (st.1 !! Z.of_nat j)) ->
    exists st',
      reduce_from (leak_step rootIndex distancesList limit) arr
                  (Z.of_nat i) st = Ok st'.
Proof.
  intros Hlimit. induction arr as [|next arr IH]; intros i st Hin Hdom.
  - simpl. eauto.
  - simpl. destruct st as [heapMap pre].
    destruct (leak_step_returns rootIndex distancesList limit heapMap pre
                next (Z.of_nat i)) as (heapMap1 & pre1 & Hstep).
    + apply (Hdom i). simpl. lia.
    + by destruct Hin.
    + done.
    + rewrite Hstep. simpl.
      replace (Z.of_nat i + 1) with (Z.of_nat (S i)) by lia.
      apply IH.
      * eapply within_limit_step; eauto.
      * intros j Hj. simpl.
        apply leak_step_Ok in Hstep as (node & _ & -> & _).
        destruct (decide (Z.of_nat i = Z.of_nat j)) as [->|Hne].
        -- rewrite lookup_insert_eq. eauto.
        -- rewrite lookup_insert_ne by done. apply (Hdom j). simpl in *. lia.
Qed.

(** The ranking returns when [heapMap] has a node for every retained
    size and the limit is not negative. *)
Lemma peakLeakPoint_returns {Statistics Aggregates}
    (new_JSHeapSnapshot :
       HeapData -> HeapSnapshotWorker.JSHeapSnapshot Statistics Aggregates)
    (rootIndex : Z) (heapData : HeapData) (heapMap : gmap Z Node.t)
    (limit : option Z) :
  (forall j : nat,
      (j < length (HeapSnapshotWorker._retainedSizes
                     (new_JSHeapSnapshot heapData)))%nat ->
      is_Some (heapMap !! Z.of_nat j)) ->
  0 < or_default limit 5 ->
  exists st',
    peakLeakPoint new_JSHeapSnapshot rootIndex heapData heapMap limit = Ok st'.
Proof.
  intros Hdom Hlimit. unfold peakLeakPoint, reduce.
  apply (reduce_from_returns rootIndex _ _ Hlimit _ 0%nat).
  - unfold within_limit. simpl. split; [done|]. split; [lia|constructor].
  - intros j Hj. simpl. apply Hdom. lia.
Qed.

(** The main entry returns a report when the capture has a record width
    and type tables, the engine gives one retained size per decoded
    node, and the limit is not negative. *)
Lemma fetchHeapUsage_returns {Statistics Aggregates}
    (new_JSHeapSnapshot :
       HeapData -> HeapSnapshotWorker.JSHeapSnapshot Statistics Aggregates)
    (heapData : HeapData) (limit : option Z) :
  tables_present heapData ->
  0 < node_fields_length heapData ->
  length (HeapSnapshotWorker._retainedSizes (new_JSHeapSnapshot heapData))
    = stride_count heapData ->
  0 < or_default limit 5 ->
  exists r, fetchHeapUsage new_JSHeapSnapshot heapData limit = Ok r.
Proof.
  intros Ht Hw Hlen Hlimit. unfold fetchHeapUsage.
  destruct (handleHeapData_returns heapData Ht Hw) as [g Hg].
  rewrite Hg. simpl.
  destruct (peakLeakPoint_returns new_JSHeapSnapshot (rootIndex g) heapData
              (heapMap g) limit) as [st' Hst']; [|done|].
  - intros j Hj. rewrite (heapMap_heapArray heapData g j Hw Hg).
    apply lookup_lt_is_Some_2.
    rewrite (heapArray_length heapData g Hw Hg). lia.
  - rewrite Hst'. simpl. eauto.
Qed.

(** * Further properties of the decoder *)

Lemma node_loop_heapMap_keys (heapData : HeapData) fuel st' :
  0 < node_fields_length heapData ->
  node_loop fuel heapData 0
    {| ds_offset := Some 0; ds_heapMap := ∅;
       ds_heapArray := []; ds_edgesMap := ∅ |} = Ok st' ->
  forall key : Z, key < 0 -> ds_heapMap st' !! key = None.
Proof.
  intros Hw Hloop.
  destruct (node_loop_invariant heapData
    (fun i st =>
       i = Z.of_nat (length (ds_heapArray st)) * node_fields_length heapData /\
       forall key : Z, key < 0 -> ds_heapMap st !! key = None))
    with (fuel := fuel) (i := 0)
         (st := {| ds_offset := Some 0; ds_heapMap := ∅;
                   ds_heapArray := []; ds_edgesMap := ∅ |}) (st' := st')
    as (_ & [_ H] & _); [|simpl; split; [lia|done]|done|done].
  clear Hloop. intros i st st1 [Hi Hall] _ Hstep.
  apply node_step_Ok in Hstep
    as (n0 & children & node_edges & Hn0 & _ & _ & _ & Harr & Hmap).
  assert (Hidx : Node.index n0 = Z.of_nat (length (ds_heapArray st))).
  { unfold decode_node in Hn0. inv_bind Hn0. injection Hn0 as <-. simpl.
    rewrite Hi. apply Z.div_mul. unfold node_fields_length in Hw. lia. }
  rewrite Harr, Hmap, Hidx, length_app. simpl. split; [lia|].
  intros key Hkey. rewrite lookup_insert_ne by lia. by apply Hall.
Qed.

(** X1. [heapMap] and [heapArray] hold the same nodes: the map has a node
    under a key exactly when the key is a position of the array and the
    node is the one at that position; looking a decoded node up under
    its own [index] gives the node back. *)
Theorem heapMap_lookup_by_index (heapData : HeapData) (g : HeapGraph) :
  0 < node_fields_length heapData ->
  handleHeapData heapData = Ok g ->
  (forall key n,
      heapMap g !! key = Some n <->
      exists k : nat, key = Z.of_nat k /\ heapArray g !! k = Some n) /\
  (forall n, n ∈ heapArray g -> heapMap g !! Node.index n = Some n).
Proof.
  intros Hw Hg.
  assert (Hpos : forall k : nat, heapMap g !! Z.of_nat k = heapArray g !! k)
    by (intros k; by apply (heapMap_heapArray heapData)).
  assert (Hneg : forall key, key < 0 -> heapMap g !! key = None).
  { destruct (handleHeapData_Ok _ _ Hg) as (st & Hloop & -> & _).
    by apply (node_loop_heapMap_keys heapData _ _ Hw Hloop). }
  split.
  - intros key n. split.
    + intros Hkey. destruct (decide (key < 0)) as [Hlt|Hge].
      * rewrite Hneg in Hkey by done. discriminate.
      * exists (Z.to_nat key). split; [lia|].
        rewrite <- Hpos. by rewrite Z2Nat.id by lia.
    + intros (k & -> & Hk). by rewrite Hpos.
  - intros n Hn. apply list_elem_of_lookup in Hn as [k Hk].
    destruct (decoded_at_position heapData k n
                (handleHeapData_decoded_at _ _ _ _ Hg Hk)) as [_ Hidx].
    rewrite (Hidx Hw), Hpos. done.
Qed.

Lemma heapMap_lookup_by_index_witness :
  exists g,
    handleHeapData Sample.three_nodes = Ok g /\
    (forall key n,
        heapMap g !! key = Some n <->
        exists k : nat, key = Z.of_nat k /\ heapArray g !! k = Some n) /\
    (forall n, n ∈ heapArray g -> heapMap g !! Node.index n = Some n).
Proof.
  eexists. split; [vm_compute; reflexivity|].
  apply (heapMap_lookup_by_index Sample.three_nodes).
  - reflexivity.
  - vm_compute. reflexivity.
Defined.

Lemma handleHeapData_no_nodes (heapData : HeapData) :
  nodes heapData = [] -> exists g, handleHeapData heapData = Ok g.
Proof.
  intros Hn. unfold handleHeapData. cbn [node_loop]. rewrite Hn. simpl.
  eauto.
Qed.

Lemma handleHeapData_no_node_types (heapData : HeapData) :
  node_types (meta (snapshot heapData)) !! 0%nat = None ->
  nodes heapData <> [] ->
  handleHeapData heapData = TypeError.
Proof.
  intros Htable Hnodes. unfold handleHeapData. cbn [node_loop].
  destruct (Z.ltb_spec 0 (Z.of_nat (length (nodes heapData)))) as [_|Hle].
  - unfold node_step, decode_node, type_lookup. rewrite Htable. reflexivity.
  - destruct (nodes heapData); [done|simpl in Hle; lia].
Qed.

(** X2. Without [meta.node_types[0]] the decoder throws on the first
    node: for a capture with at least one node cell the call, and with
    it the main entry, ends in a TypeError. *)
Theorem missing_node_types_throws {Statistics Aggregates}
    (new_JSHeapSnapshot :
       HeapData -> HeapSnapshotWorker.JSHeapSnapshot Statistics Aggregates)
    (heapData : HeapData) (limit : option Z) :
  node_types (meta (snapshot heapData)) !! 0%nat = None ->
  nodes heapData <> [] ->
  handleHeapData heapData = TypeError /\
  fetchHeapUsage new_JSHeapSnapshot heapData limit = TypeError.
Proof.
  intros Htable Hnodes.
  pose proof (handleHeapData_no_node_types heapData Htable Hnodes) as H.
  split; [done|]. unfold fetchHeapUsage. rewrite H. reflexivity.
Qed.

Lemma js_slice_nan_end {A} (arr : list A) (offset : option Z) :
  js_slice arr offset (js_plus offset None) = [].
Proof.
  unfold js_slice, js_plus, relative_index, to_integer.
  destruct offset as [o|]; simpl; repeat case_match;
    replace (Z.to_nat _) with 0%nat by lia; done.
Qed.

Lemma js_slice_nan_start {A} (arr : list A) (span : option Z) :
  js_slice arr None (js_plus None span) = [].
Proof.
  unfold js_slice, js_plus, relative_index, to_integer. simpl.
  replace (Z.to_nat _) with 0%nat by lia. done.
Qed.

Lemma decode_node_edge_count (heapData : HeapData) (i : Z) (n : Node.t) :
  decode_node heapData i = Ok n ->
  Node.edge_count n =
    js_slice (nodes heapData) (Some i)
             (Some (i + node_fields_length heapData)) !! 4%nat.
Proof.
  unfold decode_node. intros H. inv_bind H. by injection H as <-.
Qed.

Lemma decode_node_node_table (heapData : HeapData) (i : Z) :
  is_Some (node_types (meta (snapshot heapData)) !! 0%nat) ->
  exists n, decode_node heapData i = Ok n.
Proof.
  intros Hn. unfold decode_node.
  match goal with
  | |- context [type_lookup ?t ?k] =>
      destruct (type_lookup_present t k Hn) as [ty ->]
  end.
  simpl. eauto.
Qed.

Lemma type_lookup_not_diverges (table : list type_entry) (k : option Z) :
  type_lookup table k <> Diverges.
Proof. unfold type_lookup. repeat case_match; discriminate. Qed.

Lemma decode_edge_not_diverges (heapData : HeapData) (node_edge : list Z) :
  decode_edge heapData node_edge <> Diverges.
Proof.
  unfold decode_edge.
  match goal with
  | |- context [type_lookup ?t ?k] =>
      pose proof (type_lookup_not_diverges t k);
      destruct (type_lookup t k)
  end; simpl; congruence.
Qed.

Lemma decode_node_not_diverges (heapData : HeapData) (i : Z) :
  decode_node heapData i <> Diverges.
Proof.
  unfold decode_node.
  match goal with
  | |- context [type_lookup ?t ?k] =>
      pose proof (type_lookup_not_diverges t k);
      destruct (type_lookup t k)
  end; simpl; congruence.
Qed.

Lemma edge_loop_not_diverges (heapData : HeapData) (desc_id : string)
    (node_edges : list Z) :
  (0 < edge_fields_length heapData \/ node_edges = []) ->
  forall fuel i st,
    0 <= i ->
    (Z.to_nat (Z.of_nat (length node_edges) - i) < fuel)%nat ->
    edge_loop fuel heapData desc_id node_edges i st <> Diverges.
Proof.
  intros Hw. induction fuel as [|fuel IH]; intros i st Hi Hfuel; [lia|].
  simpl. destruct (Z.ltb_spec i (Z.of_nat (length node_edges))) as [Hlt|Hge];
    [|done].
  match goal with
  | |- context [decode_edge ?h ?ne] =>
      pose proof (decode_edge_not_diverges h ne);
      destruct (decode_edge h ne) as [e| |]
  end; simpl; [|discriminate|done].
  apply IH.
  - unfold edge_fields_length in Hw. lia.
  - destruct Hw as [Hw| ->]; [|simpl in Hlt; lia].
    unfold edge_fields_length in Hw. lia.
Qed.

Lemma node_step_not_diverges (heapData : HeapData) (i : Z) (st : DecodeState) :
  node_step heapData i st <> Diverges.
Proof.
  unfold node_step. pose proof (decode_node_not_diverges heapData i).
  destruct (decode_node heapData i) as [n| |]; [|discriminate|done].
  cbn -[edge_loop].
  match goal with
  | |- context [edge_loop ?f ?h ?d ?ne ?z ?s] =>
      pose proof (edge_loop_not_diverges h d ne) as Hnd;
      destruct (edge_loop f h d ne z s) as [r| |] eqn:Hr
  end; [discriminate|discriminate|].
  exfalso. eapply Hnd; [| | |exact Hr]; [|lia|lia].
  destruct (decide (0 < edge_fields_length heapData)) as [?|Hz]; [by left|].
  right. unfold edge_fields_length in Hz.
  replace (Z.of_nat (length (edge_fields (meta (snapshot heapData))))) with 0
    by lia.
  apply js_slice_empty_span.
Qed.

Lemma node_loop_not_diverges (heapData : HeapData) :
  0 < node_fields_length heapData ->
  forall fuel i st,
    (Z.to_nat (Z.of_nat (length (nodes heapData)) - i) < fuel)%nat ->
    node_loop fuel heapData i st <> Diverges.
Proof.
  intros Hw. induction fuel as [|fuel IH]; intros i st Hfuel; [lia|].
  simpl. destruct (Z.ltb_spec i (Z.of_nat (length (nodes heapData))));
    [|done].
  pose proof (node_step_not_diverges heapData i st) as Hstep.
  destruct (node_step heapData i st) as [st1| |]; simpl;
    [|discriminate|done].
  apply IH. unfold node_fields_length in Hw. lia.
Qed.

(** X3. The decoder fails to return exactly when [meta.node_fields] is
    empty while there is a node cell to read and a node type table to
    read it with: the counter of the outer loop then stays at 0 and
    every iteration completes, so no number of iterations ends the loop.
    With a non-empty [node_fields] the call always ends, in a graph or
    in a TypeError. *)
Theorem handleHeapData_diverges_iff (heapData : HeapData) :
  (handleHeapData heapData = Diverges <->
   node_fields (meta (snapshot heapData)) = [] /\
   nodes heapData <> [] /\
   is_Some (node_types (meta (snapshot heapData)) !! 0%nat)) /\
  (node_fields (meta (snapshot heapData)) = [] ->
   nodes heapData <> [] ->
   is_Some (node_types (meta (snapshot heapData)) !! 0%nat) ->
   forall fuel st, node_loop fuel heapData 0 st = Diverges).
Proof.
  assert (Hnever :
            node_fields (meta (snapshot heapData)) = [] ->
            nodes heapData <> [] ->
            is_Some (node_types (meta (snapshot heapData)) !! 0%nat) ->
            forall fuel st, node_loop fuel heapData 0 st = Diverges).
  { intros Hfields Hnodes Htable.
    assert (Hw : node_fields_length heapData = 0)
      by (unfold node_fields_length; by rewrite Hfields).
    assert (Hlen : 0 < Z.of_nat (length (nodes heapData)))
      by (destruct (nodes heapData); [done|simpl; lia]).
    assert (Hstep : forall st, exists st', node_step heapData 0 st = Ok st').
    { intros st. unfold node_step.
      destruct (decode_node_node_table heapData 0 Htable) as [n Hn].
      pose proof (decode_node_edge_count _ _ _ Hn) as Hcount.
      rewrite Hw in Hcount.
      assert (Hnil : js_slice (nodes heapData) (Some 0) (Some (0 + 0)) = []).
      { apply length_zero_iff_nil.
        pose proof (js_slice_length (nodes heapData) 0 0). lia. }
      rewrite Hnil in Hcount. simpl in Hcount.
      rewrite Hn. cbn -[edge_loop js_slice]. rewrite Hcount.
      unfold js_mul. simpl fmap. rewrite js_slice_nan_end. simpl. eauto. }
    induction fuel as [|fuel IH]; intros st; [done|].
    simpl. destruct (Z.ltb_spec 0 (Z.of_nat (length (nodes heapData))));
      [|lia].
    destruct (Hstep st) as [st' ->]. simpl.
    rewrite Hfields. simpl. apply IH. }
  split; [|exact Hnever]. split.
  - intros Hdiv.
    destruct (node_fields (meta (snapshot heapData))) as [|f fields] eqn:Hf.
    + destruct (decide (nodes heapData = [])) as [Hn|Hn].
      { destruct (handleHeapData_no_nodes heapData Hn) as [g Hg].
        congruence. }
      split; [done|]. split; [done|].
      destruct (node_types (meta (snapshot heapData)) !! 0%nat) eqn:Ht; [eauto|].
      rewrite (handleHeapData_no_node_types heapData Ht Hn) in Hdiv.
      discriminate.
    + exfalso. unfold handleHeapData in Hdiv.
      match type of Hdiv with
      | context [node_loop ?f ?h ?z ?s] =>
          pose proof (node_loop_not_diverges h) as Hnd;
          destruct (node_loop f h z s) as [r| |] eqn:Hr
      end; [discriminate|discriminate|].
      eapply Hnd; [| |exact Hr].
      * unfold node_fields_length. rewrite Hf. simpl. lia.
      * lia.
  - intros (Hfields & Hnodes & Htable).
    unfold handleHeapData. rewrite Hnever by done. reflexivity.
Qed.

(** ** Nothing else in the adjacency index *)

Lemma sound_for_mono (pairs pairs' : list (string * Edge.t))
    (m : gmap string EdgeEntry) :
  pairs ⊆ pairs' -> sound_for pairs m -> sound_for pairs' m.
Proof.
  intros Hsub Hs key entry Hkey.
  destruct (Hs key entry Hkey) as (Hne & Hf & Ht).
  split; [done|]. split.
  - intros info Hin. destruct (Hf info Hin) as (p & Hp & ?). eauto.
  - intros info Hin. destruct (Ht info Hin) as (p & Hp & ?). eauto.
Qed.

Lemma push_from_ids_sound (pairs : list (string * Edge.t))
    (m : gmap string EdgeEntry) (p : string * Edge.t) :
  p ∈ pairs -> sound_for pairs m ->
  sound_for pairs (push_from_ids m (Edge.to_node p.2) (from_info p.1 p.2)).
Proof.
  intros Hp Hs key entry. unfold push_from_ids.
  destruct (decide (Edge.to_node p.2 = key)) as [<-|Hne].
  - destruct (m !! Edge.to_node p.2) as [old|] eqn:Hold;
      rewrite lookup_insert_eq; intros [= <-]; simpl.
    + destruct (Hs _ _ Hold) as (_ & Hf & Ht).
      split; [left; by destruct (from_ids old)|]. split; [|done].
      intros info Hin. apply elem_of_app in Hin as [Hin|Hin]; [eauto|].
      apply list_elem_of_singleton in Hin as ->. eauto.
    + split; [by left|]. split.
      * intros info Hin. apply list_elem_of_singleton in Hin as ->. eauto.
      * intros info Hin. by apply elem_of_nil in Hin.
  - destruct (m !! Edge.to_node p.2); rewrite lookup_insert_ne by done;
      apply Hs.
Qed.

Lemma push_to_ids_sound (pairs : list (string * Edge.t))
    (m : gmap string EdgeEntry) (p : string * Edge.t) :
  p ∈ pairs -> sound_for pairs m ->
  sound_for pairs (push_to_ids m p.1 (to_info p.2)).
Proof.
  intros Hp Hs key entry. unfold push_to_ids.
  destruct (decide (p.1 = key)) as [<-|Hne].
  - destruct (m !! p.1) as [old|] eqn:Hold;
      rewrite lookup_insert_eq; intros [= <-]; simpl.
    + destruct (Hs _ _ Hold) as (_ & Hf & Ht).
      split; [right; by destruct (to_ids old)|]. split; [done|].
      intros info Hin. apply elem_of_app in Hin as [Hin|Hin]; [eauto|].
      apply list_elem_of_singleton in Hin as ->. eauto.
    + split; [by right|]. split.
      * intros info Hin. by apply elem_of_nil in Hin.
      * intros info Hin. apply list_elem_of_singleton in Hin as ->. eauto.
  - destruct (m !! p.1); rewrite lookup_insert_ne by done; apply Hs.
Qed.

Lemma record_edge_sound (pairs : list (string * Edge.t)) (desc_id : string)
    (e : Edge.t) (st : list Edge.t * gmap string EdgeEntry) :
  sound_for (pairs ++ ((fun e => (desc_id, e)) <$> st.1)) st.2 ->
  sound_for (pairs ++ ((fun e => (desc_id, e)) <$> (record_edge desc_id e st).1))
            (record_edge desc_id e st).2.
Proof.
  destruct st as [children m]. simpl. intros Hs.
  rewrite fmap_app. simpl.
  set (all := pairs ++ ((fun e => (desc_id, e)) <$> children) ++ [(desc_id, e)]).
  assert (Hin : (desc_id, e) ∈ all) by (subst all; set_solver).
  assert (Hs' : sound_for all m).
  { eapply sound_for_mono; [|exact Hs]. subst all. intros x Hx.
    apply elem_of_app in Hx as [Hx|Hx]; rewrite !elem_of_app; tauto. }
  apply (push_to_ids_sound all _ (desc_id, e) Hin).
  apply (push_from_ids_sound all _ (desc_id, e) Hin Hs').
Qed.

Lemma edge_loop_sound (heapData : HeapData) (desc_id : string)
    (node_edges : list Z) (pairs : list (string * Edge.t)) fuel i st st' :
  sound_for (pairs ++ ((fun e => (desc_id, e)) <$> st.1)) st.2 ->
  edge_loop fuel heapData desc_id node_edges i st = Ok st' ->
  sound_for (pairs ++ ((fun e => (desc_id, e)) <$> st'.1)) st'.2.
Proof.
  intros Hs Hloop.
  destruct (edge_loop_invariant heapData desc_id node_edges
              (fun _ st =>
                 sound_for (pairs ++ ((fun e => (desc_id, e)) <$> st.1)) st.2))
    with (fuel := fuel) (i := i) (st := st) (st' := st')
    as (_ & H & _); [|done|done|done].
  clear. intros _ e st Hs _ _. by apply record_edge_sound.
Qed.

Lemma node_loop_sound (heapData : HeapData) fuel i st st' :
  sound_for (graph_pairs (ds_heapArray st)) (ds_edgesMap st) ->
  node_loop fuel heapData i st = Ok st' ->
  sound_for (graph_pairs (ds_heapArray st')) (ds_edgesMap st').
Proof.
  intros Hst Hloop.
  destruct (node_loop_invariant heapData
              (fun _ st =>
                 sound_for (graph_pairs (ds_heapArray st)) (ds_edgesMap st)))
    with (fuel := fuel) (i := i) (st := st) (st' := st')
    as (_ & H & _); [|done|done|done].
  clear. intros i st st1 Hs _ Hstep.
  apply node_step_Ok in Hstep
    as (n0 & children & node_edges & Hn0 & _ & Hloop & _ & Harr & _).
  eapply edge_loop_sound with (pairs := graph_pairs (ds_heapArray st))
    in Hloop; [|simpl; by rewrite app_nil_r].
  simpl in Hloop. rewrite Harr. unfold graph_pairs.
  rewrite bind_app. simpl. rewrite app_nil_r. exact Hloop.
Qed.

Lemma handleHeapData_sound (heapData : HeapData) (g : HeapGraph) :
  handleHeapData heapData = Ok g ->
  sound_for (graph_pairs (heapArray g)) (edgesMap g).
Proof.
  intros Hg. apply handleHeapData_Ok in Hg as (st & Hloop & _ & -> & -> & _).
  eapply node_loop_sound; [|exact Hloop].
  intros key entry Hkey. simpl in Hkey. by rewrite lookup_empty in Hkey.
Qed.

Lemma elem_of_graph_pairs (arr : list Node.t) (p : string * Edge.t) :
  p ∈ graph_pairs arr <->
  exists A, A ∈ arr /\ p.2 ∈ Node.children A /\ p.1 = Node.id A.
Proof.
  unfold graph_pairs. rewrite list_elem_of_bind. split.
  - intros (A & Hp & HA). apply list_elem_of_fmap in Hp as (e & -> & He).
    exists A. done.
  - intros (A & HA & He & Hid). exists A. split; [|done].
    apply list_elem_of_fmap. exists p.2. split; [|done].
    destruct p as [a e]. simpl in *. by subst.
Qed.

(** X4. [edgesMap] holds nothing but the decoded edges: every entry has
    an element, every element of [from_ids] under a key was pushed for
    an edge of some decoded node [A] whose [to_node] is the key, and
    every element of [to_ids] under a key for an edge of a decoded node
    whose identity is the key. *)
Theorem edgesMap_only_decoded_edges (heapData : HeapData) (g : HeapGraph)
    (key : string) (entry : EdgeEntry) :
  handleHeapData heapData = Ok g ->
  edgesMap g !! key = Some entry ->
  (from_ids entry <> [] \/ to_ids entry <> []) /\
  (forall info, info ∈ from_ids entry ->
     exists A e, A ∈ heapArray g /\ e ∈ Node.children A /\
                 Edge.to_node e = key /\ info = from_info (Node.id A) e) /\
  (forall info, info ∈ to_ids entry ->
     exists A e, A ∈ heapArray g /\ e ∈ Node.children A /\
                 Node.id A = key /\ info = to_info e).
Proof.
  intros Hg Hkey.
  destruct (handleHeapData_sound heapData g Hg key entry Hkey)
    as (Hne & Hf & Ht).
  split; [done|]. split.
  - intros info Hin. destruct (Hf info Hin) as ([a e] & Hp & Hto & ->).
    apply elem_of_graph_pairs in Hp as (A & HA & He & Hid).
    simpl in *. subst a. eauto 10.
  - intros info Hin. destruct (Ht info Hin) as ([a e] & Hp & Hid' & ->).
    apply elem_of_graph_pairs in Hp as (A & HA & He & Hid).
    simpl in *. subst. eauto 10.
Qed.

Lemma edgesMap_only_decoded_edges_witness :
  exists g entry,
    handleHeapData Sample.three_nodes = Ok g /\
    edgesMap g !! "@9" = Some entry /\
    length (from_ids entry) = 2%nat /\
    (forall info, info ∈ from_ids entry ->
       exists A e, A ∈ heapArray g /\ e ∈ Node.children A /\
                   Edge.to_node e = "@9" /\ info = from_info (Node.id A) e).
Proof.
  eexists _, _. split; [vm_compute; reflexivity|].
  split; [vm_compute; reflexivity|]. split; [reflexivity|].
  eapply (edgesMap_only_decoded_edges Sample.three_nodes).
  - vm_compute. reflexivity.
  - vm_compute. reflexivity.
Defined.

(** ** Missing tables and missing cells *)

Lemma children_of_nil (heapData : HeapData) (children : list Edge.t) :
  children_of heapData [] children -> children = [].
Proof.
  intros [Hcount _].
  assert (Hw : 0 <= edge_fields_length heapData)
    by (unfold edge_fields_length; lia).
  assert (Hz : chunk_count heapData [] = 0).
  { unfold chunk_count. change (Z.of_nat (length [])) with 0.
    destruct (decide (edge_fields_length heapData = 0)) as [->|Hne];
      [done|]. apply Z.div_small. lia. }
  rewrite Hz in Hcount. destruct children; [done|simpl in Hcount; lia].
Qed.

Lemma children_of_nonempty (heapData : HeapData) (node_edges : list Z)
    (children : list Edge.t) :
  0 < edge_fields_length heapData ->
  node_edges <> [] ->
  children_of heapData node_edges children ->
  children <> [].
Proof.
  intros Hw Hne [Hcount _] ->. simpl in Hcount. unfold chunk_count in Hcount.
  assert (Hlen : 0 < Z.of_nat (length node_edges))
    by (destruct node_edges; [done|simpl; lia]).
  assert (0 < (Z.of_nat (length node_edges) + edge_fields_length heapData - 1)
              / edge_fields_length heapData); [|lia].
  apply Z.div_str_pos. lia.
Qed.

Lemma node_edges_of_width (heapData : HeapData) (k : nat) :
  node_edges_of heapData k <> [] -> 0 < edge_fields_length heapData.
Proof.
  intros Hne. destruct (decide (0 < edge_fields_length heapData)); [done|].
  exfalso. apply Hne. unfold node_edges_of, edge_span.
  replace (edge_fields_length heapData) with 0
    by (unfold edge_fields_length in *; lia).
  apply js_slice_empty_span.
Qed.

(** X5. Without [meta.edge_types[0]] no edge can be decoded: a graph the
    decoder returns has no child on any node and an empty [edgesMap],
    and the call throws as soon as some node has an edge record to
    read. *)
Theorem missing_edge_types (heapData : HeapData) :
  edge_types (meta (snapshot heapData)) !! 0%nat = None ->
  (forall g, handleHeapData heapData = Ok g ->
     (forall n, n ∈ heapArray g -> Node.children n = []) /\
     edgesMap g = ∅) /\
  (0 < node_fields_length heapData ->
   forall k, (k < stride_count heapData)%nat ->
             node_edges_of heapData k <> [] ->
             handleHeapData heapData = TypeError).
Proof.
  intros Htable.
  assert (Hnone : forall g, handleHeapData heapData = Ok g ->
                    forall n, n ∈ heapArray g -> Node.children n = []).
  { intros g Hg n Hn. apply list_elem_of_lookup in Hn as [k Hk].
    pose proof (decoded_at_children _ _ _
                  (handleHeapData_decoded_at _ _ _ _ Hg Hk)) as Hch.
    destruct (Node.children n) as [|e rest]; [done|].
    apply Forall_cons in Hch as [(node_edge & _ & Hdec) _].
    unfold decode_edge, type_lookup in Hdec. rewrite Htable in Hdec.
    discriminate. }
  split.
  - intros g Hg. split; [by apply Hnone|].
    apply map_empty. intros key.
    destruct (edgesMap g !! key) as [entry|] eqn:Hkey; [|done].
    exfalso.
    destruct (handleHeapData_sound heapData g Hg key entry Hkey)
      as (Hne & Hf & Ht).
    assert (Hno : forall p, p ∈ graph_pairs (heapArray g) -> False).
    { intros p Hp. apply elem_of_graph_pairs in Hp as (A & HA & He & _).
      rewrite (Hnone g Hg A HA) in He. by apply elem_of_nil in He. }
    destruct Hne as [Hne|Hne].
    + destruct (from_ids entry) as [|info rest]; [done|].
      destruct (Hf info) as (p & Hp & _); [left|]. eauto.
    + destruct (to_ids entry) as [|info rest]; [done|].
      destruct (Ht info) as (p & Hp & _); [left|]. eauto.
  - intros Hw k Hk Hedges.
    destruct (handleHeapData heapData) as [g| |] eqn:Hg; [|done|].
    + exfalso.
      destruct (lookup_lt_is_Some_2 (heapArray g) k) as [n Hn].
      { rewrite (heapArray_length heapData g Hw Hg). done. }
      destruct (handleHeapData_decoded_at _ _ _ _ Hg Hn) as (_ & _ & _ & Hch).
      apply (children_of_nonempty heapData _ _
               (node_edges_of_width heapData k Hedges) Hedges Hch).
      apply (Hnone g eq_refl). eapply list_elem_of_lookup_2; eauto.
    + exfalso. unfold handleHeapData in Hg.
      match type of Hg with
      | context [node_loop ?f ?h ?z ?s] =>
          pose proof (node_loop_not_diverges h Hw f z s) as Hnd;
          destruct (node_loop f h z s)
      end; [discriminate|discriminate|]. apply Hnd; [lia|done].
Qed.

Lemma edge_offset_nan (heapData : HeapData) (k : nat) :
  edge_span heapData k = None ->
  forall k', (k < k')%nat -> edge_offset heapData k' = None.
Proof.
  intros Hspan. induction k' as [|k' IH]; intros Hlt; [lia|].
  simpl. destruct (decide (k = k')) as [->|Hne].
  - rewrite Hspan. by destruct (edge_offset heapData k').
  - rewrite IH by lia. done.
Qed.

(** X6. A node whose record has no edge count cell (a record cut short,
    or fewer than five node fields) gets no children, and neither does
    any node after it: the running offset into [edges] is [NaN] from
    then on. *)
Theorem no_children_after_missing_edge_count (heapData : HeapData)
    (g : HeapGraph) (k : nat) :
  handleHeapData heapData = Ok g ->
  node_record heapData k !! 4%nat = None ->
  forall k' n,
    (k <= k')%nat -> heapArray g !! k' = Some n -> Node.children n = [].
Proof.
  intros Hg Hcell k' n Hle Hn.
  destruct (handleHeapData_decoded_at _ _ _ _ Hg Hn) as (_ & _ & _ & Hch).
  apply (children_of_nil heapData).
  assert (Hspan : edge_span heapData k = None)
    by (unfold edge_span; by rewrite Hcell).
  assert (Hedges : node_edges_of heapData k' = []).
  { unfold node_edges_of. destruct (decide (k = k')) as [<-|Hne].
    - rewrite Hspan. apply js_slice_nan_end.
    - rewrite (edge_offset_nan heapData k Hspan k') by lia.
      apply js_slice_nan_start. }
  by rewrite Hedges in Hch.
Qed.

(** ** The edges of a well-formed capture *)






(** ** Field names *)

Section FieldNames.
Variables hd hd' : HeapData.
Hypothesis Hsame : same_up_to_field_names hd hd'.

Lemma decode_edge_field_names (node_edge : list Z) :
  decode_edge hd node_edge = decode_edge hd' node_edge.
Proof.
  destruct Hsame as (Hnf & _ & _ & Het & _ & Hn & _ & Hs).
  unfold decode_edge. by rewrite Hnf, Het, Hn, Hs.
Qed.

Lemma edge_loop_field_names (desc_id : string) (node_edges : list Z) :
  forall fuel i st,
    edge_loop fuel hd desc_id node_edges i st
      = edge_loop fuel hd' desc_id node_edges i st.
Proof.
  destruct Hsame as (_ & Hef & _).
  induction fuel as [|fuel IH]; intros i st; [done|].
  simpl. rewrite Hef. case_match; [|done].
  rewrite decode_edge_field_names.
  destruct (decode_edge hd' _); simpl; [apply IH|done|done].
Qed.

Lemma decode_node_field_names (i : Z) :
  decode_node hd i = decode_node hd' i.
Proof.
  destruct Hsame as (Hnf & _ & Hnt & _ & _ & Hn & _ & Hs).
  unfold decode_node. by rewrite Hnf, Hnt, Hn, Hs.
Qed.

Lemma node_step_field_names (i : Z) (st : DecodeState) :
  node_step hd i st = node_step hd' i st.
Proof.
  destruct Hsame as (_ & Hef & _ & _ & _ & _ & He & _).
  unfold node_step. rewrite decode_node_field_names, Hef, He.
  destruct (decode_node hd' i); [|done|done].
  cbn -[edge_loop]. by rewrite edge_loop_field_names.
Qed.

Lemma node_loop_field_names :
  forall fuel i st, node_loop fuel hd i st = node_loop fuel hd' i st.
Proof.
  destruct Hsame as (Hnf & _ & _ & _ & _ & Hn & _).
  induction fuel as [|fuel IH]; intros i st; [done|].
  simpl. rewrite Hnf, Hn. case_match; [|done].
  rewrite node_step_field_names.
  destruct (node_step hd' i st); simpl; [apply IH|done|done].
Qed.
End FieldNames.

(** X8. The decoder never reads a field name: two captures that differ
    only in the names listed in [meta.node_fields] and
    [meta.edge_fields], the lists keeping their lengths, are decoded to
    the same result, graph or failure. *)
Theorem field_names_are_ignored (hd hd' : HeapData) :
  same_up_to_field_names hd hd' ->
  handleHeapData hd = handleHeapData hd'.
Proof.
  intros Hsame. unfold handleHeapData.
  rewrite (node_loop_field_names hd hd' Hsame).
  destruct Hsame as (_ & _ & _ & _ & Hroot & Hn & _).
  by rewrite Hroot, Hn.
Qed.

Lemma field_names_are_ignored_witness :
  handleHeapData Sample.three_nodes = handleHeapData Sample.name_first.
Proof.
  apply (field_names_are_ignored Sample.three_nodes Sample.name_first).
  repeat split.
Defined.

(** * Further properties of the ranking *)

Lemma annotated_take_self (heapMap : gmap Z Node.t)
    (retained distances : list Z) (i : nat) :
  annotated heapMap (take i retained) distances (Z.of_nat i)
    = heapMap !! Z.of_nat i.
Proof.
  unfold annotated, js_get.
  destruct (Z.ltb_spec (Z.of_nat i) 0); [lia|].
  rewrite Nat2Z.id, lookup_take_ge by lia. done.
Qed.

Lemma annotated_take_S (heapMap : gmap Z Node.t)
    (retained distances : list Z) (i : nat) (next : Z) (key : Z) :
  retained !! i = Some next ->
  annotated heapMap (take (S i) retained) distances key =
    if decide (key = Z.of_nat i)
    then (fun n => annotate n next (js_get distances (Some key)))
           <$> heapMap !! key
    else annotated heapMap (take i retained) distances key.
Proof.
  intros Hi. unfold annotated, js_get.
  destruct (Z.ltb_spec key 0) as [Hneg|Hpos].
  { rewrite decide_False by lia. done. }
  rewrite (take_S_r _ _ _ Hi).
  assert (Hlen : length (take i retained) = i).
  { apply length_take_le. apply lookup_lt_Some in Hi. lia. }
  destruct (decide (key = Z.of_nat i)) as [->|Hne].
  - rewrite Nat2Z.id, lookup_app_r by lia.
    rewrite Hlen, Nat.sub_diag. done.
  - destruct (decide (Z.to_nat key < i)%nat).
    + rewrite lookup_app_l by lia. done.
    + rewrite lookup_app_r by lia. rewrite Hlen.
      rewrite (lookup_ge_None_2 (take i retained)) by lia.
      destruct (Z.to_nat key - i)%nat as [|d] eqn:Hd; [lia|done].
Qed.

Lemma leak_step_not_diverges {Statistics Aggregates}
    rootIndex distancesList limit
    (st : gmap Z Node.t * Pre.t Statistics Aggregates) next index :
  leak_step rootIndex distancesList limit st next index <> Diverges.
Proof.
  destruct st as [heapMap pre]. unfold leak_step.
  repeat case_match; discriminate.
Qed.

Lemma reduce_from_not_diverges {Statistics Aggregates}
    rootIndex distancesList limit (arr : list Z) :
  forall i (st : gmap Z Node.t * Pre.t Statistics Aggregates),
    reduce_from (leak_step rootIndex distancesList limit) arr i st
      <> Diverges.
Proof.
  induction arr as [|next arr IH]; intros i st; [discriminate|].
  simpl.
  pose proof (leak_step_not_diverges rootIndex distancesList limit st next i).
  destruct (leak_step rootIndex distancesList limit st next i);
    simpl; [apply IH|discriminate|done].
Qed.

Lemma listed_node_mono (heapMap : gmap Z Node.t) rootIndex distancesList
    retained (i : nat) (e : LeakPoint.t) :
  listed_node heapMap rootIndex distancesList retained i e ->
  listed_node heapMap rootIndex distancesList retained (S i) e.
Proof.
  intros (k & node & ? & ? & ?). exists k, node. split; [done|].
  split; [lia|done].
Qed.

Lemma listed_node_index_lt (heapMap : gmap Z Node.t) rootIndex distancesList
    retained (i : nat) (l : list LeakPoint.t) :
  Forall (listed_node heapMap rootIndex distancesList retained i) l ->
  Z.of_nat i ∉ LeakPoint.index <$> l.
Proof.
  intros Hall Hin. apply list_elem_of_fmap in Hin as (e & Hidx & He).
  rewrite Forall_forall in Hall.
  destruct (Hall e He) as (k & _ & Hk & Hlt & _). lia.
Qed.

Lemma sorted_last_smallest (kept : list LeakPoint.t) (smallest : LeakPoint.t)
    (l : list LeakPoint.t) :
  array_sort by_size_desc l = kept ++ [smallest] ->
  Forall (fun x => LeakPoint.size smallest <= LeakPoint.size x)
         (kept ++ [smallest]).
Proof.
  intros Hsort. pose proof (array_sort_descending l) as Hdesc.
  rewrite Hsort in Hdesc. apply StronglySorted_app in Hdesc as (Hrel & _ & _).
  apply Forall_app. split.
  - apply Forall_forall. intros x Hx.
    apply (Hrel x smallest Hx). apply list_elem_of_here.
  - constructor; [lia|constructor].
Qed.

Lemma top_ranked_step {Statistics Aggregates} (heapMap0 : gmap Z Node.t)
    rootIndex distancesList retained limit (i : nat)
    (st st1 : gmap Z Node.t * Pre.t Statistics Aggregates) (next : Z) :
  retained !! i = Some next ->
  top_ranked heapMap0 rootIndex distancesList retained limit i st ->
  leak_step rootIndex distancesList limit st next (Z.of_nat i) = Ok st1 ->
  top_ranked heapMap0 rootIndex distancesList retained limit (S i) st1.
Proof.
  destruct st as [heapMap pre], st1 as [heapMap1 pre1].
  intros Hi (Hlen & Hmap & Hdom & Hnodup & Hlisted & Hcover) Hstep.
  simpl in *.
  apply leak_step_Ok in Hstep as (node & Hnode & -> & Hcases).
  assert (Hnode0 : heapMap0 !! Z.of_nat i = Some node)
    by (by rewrite <- annotated_take_self
          with (retained := retained) (distances := distancesList),
          <- Hmap).
  assert (Hmap1 : forall key,
            <[Z.of_nat i := annotate node next
                              (js_get distancesList (Some (Z.of_nat i)))]>
              heapMap !! key
            = annotated heapMap0 (take (S i) retained) distancesList key).
  { intros key. rewrite (annotated_take_S _ _ _ _ _ _ Hi).
    destruct (decide (key = Z.of_nat i)) as [->|Hne].
    - rewrite lookup_insert_eq, Hnode0. done.
    - rewrite lookup_insert_ne by done. apply Hmap. }
  assert (Hdom1 : forall k, (k < S i)%nat -> is_Some (heapMap0 !! Z.of_nat k)).
  { intros k Hk. destruct (decide (k = i)) as [->|Hne]; [eauto|].
    apply Hdom. lia. }
  assert (Hlisted1 : Forall (listed_node heapMap0 rootIndex distancesList
                               retained (S i)) (Pre.leakPoint pre)).
  { eapply Forall_impl; [exact Hlisted|]. apply listed_node_mono. }
  pose proof (listed_node_index_lt _ _ _ _ _ _ Hlisted) as Hfresh.
  set (entry := {| LeakPoint.index := Z.of_nat i;
                   LeakPoint.id := Node.id node;
                   LeakPoint.size := next |}) in *.
  destruct Hcases as [[Hel ->]|[Hel Hcases]].
  { (* the node does not pass the filters *)
    repeat split; try done.
    intros k s Hk Hs Helig.
    destruct (decide (k = i)) as [->|Hne]; [congruence|].
    apply Hcover; [lia|done|done]. }
  assert (Hentry : listed_node heapMap0 rootIndex distancesList retained
                     (S i) entry).
  { exists i, node. simpl. repeat split; try done. lia. }
  destruct Hcases
    as [[Hroom ->]|(Hfull & kept & smallest & Hsort & Hcases)].
  { (* there is room: push *)
    unfold top_ranked. simpl. rewrite length_app. simpl.
    split; [lia|]. split; [done|]. split; [done|]. split.
    { rewrite fmap_app. apply NoDup_app. split; [done|]. split.
      - intros x Hx Hx'. simpl in Hx'.
        apply list_elem_of_singleton in Hx' as ->. done.
      - simpl. apply NoDup_singleton. }
    split; [apply Forall_app; split; [done|by constructor]|].
    intros k s Hk Hs Helig. left.
    destruct (decide (k = i)) as [->|Hne].
    - exists entry. split; [set_solver|done].
    - destruct (Hcover k s ltac:(lia) Hs Helig) as [(e & He & Hidx)|[? _]];
        [|lia].
      exists e. split; [set_solver|done]. }
  (* the list is full: sort, then replace the last entry or not *)
  pose proof (array_sort_perm by_size_desc (Pre.leakPoint pre)) as Hperm.
  rewrite Hsort in Hperm.
  pose proof (sorted_last_smallest _ _ _ Hsort) as Hmin.
  apply Forall_app in Hmin as [Hminkept _].
  assert (Hlength : length (kept ++ [smallest]) = length (Pre.leakPoint pre))
    by (by rewrite Hperm).
  rewrite length_app in Hlength. simpl in Hlength.
  assert (Hnodup' : NoDup (LeakPoint.index <$> kept ++ [smallest]))
    by (by rewrite Hperm).
  assert (Hlisted' : Forall (listed_node heapMap0 rootIndex distancesList
                               retained (S i)) (kept ++ [smallest]))
    by (by rewrite Hperm).
  assert (Hfresh' : Z.of_nat i ∉ LeakPoint.index <$> kept ++ [smallest])
    by (by rewrite Hperm).
  apply Forall_app in Hlisted' as [Hlkept Hlsmallest].
  destruct Hcases as [[Hlt ->]|[Hge ->]]; unfold top_ranked; simpl;
    rewrite length_app; simpl.
  - (* the incoming node replaces the smallest entry *)
    split; [lia|]. split; [done|]. split; [done|]. split.
    { rewrite fmap_app in Hnodup', Hfresh'. rewrite fmap_app.
      apply NoDup_app in Hnodup' as (Hk & _ & _).
      apply NoDup_app. split; [done|]. split.
      - intros x Hx Hx'. simpl in Hx'.
        apply list_elem_of_singleton in Hx' as ->.
        apply Hfresh'. apply elem_of_app. by left.
      - simpl. apply NoDup_singleton. }
    split; [apply Forall_app; split; [done|by constructor]|].
    intros k s Hk Hs Helig.
    destruct (decide (k = i)) as [->|Hne].
    { left. exists entry. split; [set_solver|done]. }
    assert (Hdominated :
              s <= LeakPoint.size smallest ->
              Forall (fun e => s <= LeakPoint.size e) (kept ++ [entry])).
    { intros Hs'. apply Forall_app. split.
      - eapply Forall_impl; [exact Hminkept|]. simpl. intros; lia.
      - constructor; [simpl; lia|constructor]. }
    destruct (Hcover k s ltac:(lia) Hs Helig) as [(e & He & Hidx)|[_ Hall]].
    + rewrite <- Hperm in He. apply elem_of_app in He as [He|He].
      * left. exists e. split; [set_solver|done].
      * apply list_elem_of_singleton in He as ->. right. split; [lia|].
        apply Hdominated. apply Forall_inv in Hlsmallest.
        destruct Hlsmallest as (k' & _ & Hk' & _ & Hsize & _).
        assert (k' = k) as -> by lia. rewrite Hs in Hsize.
        injection Hsize as ->. lia.
    + right. split; [lia|]. apply Hdominated.
      rewrite <- Hperm in Hall. apply Forall_app in Hall as [_ Hall].
      by apply Forall_inv in Hall.
  - (* the incoming node is dropped *)
    split; [lia|]. split; [done|]. split; [done|]. split; [done|].
    split; [apply Forall_app; split; done|].
    intros k s Hk Hs Helig.
    destruct (decide (k = i)) as [->|Hne].
    { right. split; [lia|]. rewrite Hi in Hs. injection Hs as <-.
      apply Forall_app. split.
      - eapply Forall_impl; [exact Hminkept|]. simpl. intros; lia.
      - constructor; [lia|constructor]. }
    destruct (Hcover k s ltac:(lia) Hs Helig) as [(e & He & Hidx)|[? Hall]].
    + left. exists e. split; [by rewrite Hperm|done].
    + right. split; [lia|]. by rewrite Hperm.
Qed.

Lemma peakLeakPoint_top_ranked {Statistics Aggregates}
    (new_JSHeapSnapshot :
       HeapData -> HeapSnapshotWorker.JSHeapSnapshot Statistics Aggregates)
    rootIndex heapData heapMap limit st' :
  let snap := new_JSHeapSnapshot heapData in
  peakLeakPoint new_JSHeapSnapshot rootIndex heapData heapMap limit = Ok st' ->
  top_ranked heapMap rootIndex (HeapSnapshotWorker._nodeDistances snap)
             (HeapSnapshotWorker._retainedSizes snap) (or_default limit 5)
             (length (HeapSnapshotWorker._retainedSizes snap)) st'.
Proof.
  intros snap Hrun. unfold peakLeakPoint in Hrun.
  eapply (reduce_invariant _ _
            (top_ranked heapMap rootIndex
               (HeapSnapshotWorker._nodeDistances snap)
               (HeapSnapshotWorker._retainedSizes snap)
               (or_default limit 5))); [| |exact Hrun].
  - unfold top_ranked. simpl. split; [done|]. split.
    { intros key. unfold annotated, js_get. rewrite take_0.
      by destruct (key <? 0). }
    split; [intros k Hk; lia|]. split; [constructor|].
    split; [constructor|]. intros k s Hk. lia.
  - intros i st next st1 Hi. by apply top_ranked_step.
Qed.

Lemma annotated_all (heapMap : gmap Z Node.t) (retained distances : list Z)
    (key : Z) :
  annotated heapMap (take (length retained) retained) distances key
    = annotated heapMap retained distances key.
Proof. by rewrite firstn_all. Qed.

(** X9. The list holds the largest retained sizes among the nodes that
    pass the filters: each such node is either listed, or the list is
    full and none of its entries is smaller than the node. *)
Theorem leakPoint_holds_the_largest {Statistics Aggregates}
    (new_JSHeapSnapshot :
       HeapData -> HeapSnapshotWorker.JSHeapSnapshot Statistics Aggregates)
    (rootIndex : Z) (heapData : HeapData) (heapMap : gmap Z Node.t)
    (limit : option Z) (heapMap' : gmap Z Node.t)
    (pre : Pre.t Statistics Aggregates) (k : nat) (s : Z) :
  let snap := new_JSHeapSnapshot heapData in
  peakLeakPoint new_JSHeapSnapshot rootIndex heapData heapMap limit
    = Ok (heapMap', pre) ->
  HeapSnapshotWorker._retainedSizes snap !! k = Some s ->
  eligible rootIndex (HeapSnapshotWorker._nodeDistances snap) (Z.of_nat k)
    = true ->
  (exists e, e ∈ Pre.leakPoint pre /\
             LeakPoint.index e = Z.of_nat k /\ LeakPoint.size e = s) \/
  (or_default limit 5 <= Z.of_nat (length (Pre.leakPoint pre)) /\
   Forall (fun e => s <= LeakPoint.size e) (Pre.leakPoint pre)).
Proof.
  intros snap Hrun Hs Hel.
  apply peakLeakPoint_top_ranked in Hrun
    as (Hlen & _ & _ & _ & Hlisted & Hcover). simpl in *. fold snap in Hcover.
  destruct (Hcover k s) as [(e & He & Hidx)|[Hfull Hall]];
    [by eapply lookup_lt_Some|done|done| |].
  - left. exists e. split; [done|]. split; [done|].
    rewrite Forall_forall in Hlisted.
    destruct (Hlisted e He) as (k' & _ & Hk' & _ & Hsize & _).
    assert (k' = k) as -> by lia. fold snap in Hsize. congruence.
  - right. split; [lia|done].
Qed.

Lemma leakPoint_holds_the_largest_witness :
  exists heapMap' pre,
    peakLeakPoint (Sample.engine [90; 10; 30; 20; 30; 50; 5]
                                 [0; 2; 2; 3; 3; 4; 2])
                  0 Sample.seven_nodes (Sample.heapMap_of Sample.seven_nodes)
                  (Some 3)
      = Ok (heapMap', pre) /\
    LeakPoint.size <$> Pre.leakPoint pre = [50; 30; 30] /\
    ((exists e, e ∈ Pre.leakPoint pre /\
                LeakPoint.index e = 3 /\ LeakPoint.size e = 20) \/
     (3 <= Z.of_nat (length (Pre.leakPoint pre)) /\
      Forall (fun e => 20 <= LeakPoint.size e) (Pre.leakPoint pre))).
Proof.
  eexists _, _. split; [vm_compute; reflexivity|]. split; [reflexivity|].
  eapply (leakPoint_holds_the_largest
            (Sample.engine [90; 10; 30; 20; 30; 50; 5] [0; 2; 2; 3; 3; 4; 2])
            0 Sample.seven_nodes (Sample.heapMap_of Sample.seven_nodes)
            (Some 3) _ _ 3 20).
  - vm_compute. reflexivity.
  - reflexivity.
  - reflexivity.
Defined.

(** X10. Every entry of the list is a node of [heapMap] that passed the
    filters: its [index] is the position of a retained size, [size] is
    that retained size, [id] is the [id] of the node [heapMap] holds
    under that index; and no node is listed twice. *)
Theorem leakPoint_entries_are_nodes {Statistics Aggregates}
    (new_JSHeapSnapshot :
       HeapData -> HeapSnapshotWorker.JSHeapSnapshot Statistics Aggregates)
    (rootIndex : Z) (heapData : HeapData) (heapMap : gmap Z Node.t)
    (limit : option Z) (heapMap' : gmap Z Node.t)
    (pre : Pre.t Statistics Aggregates) :
  let snap := new_JSHeapSnapshot heapData in
  peakLeakPoint new_JSHeapSnapshot rootIndex heapData heapMap limit
    = Ok (heapMap', pre) ->
  NoDup (LeakPoint.index <$> Pre.leakPoint pre) /\
  forall e, e ∈ Pre.leakPoint pre ->
    exists (k : nat) node,
      LeakPoint.index e = Z.of_nat k /\
      HeapSnapshotWorker._retainedSizes snap !! k = Some (LeakPoint.size e) /\
      eligible rootIndex (HeapSnapshotWorker._nodeDistances snap)
               (Z.of_nat k) = true /\
      heapMap !! Z.of_nat k = Some node /\
      LeakPoint.id e = Node.id node.
Proof.
  intros snap Hrun.
  apply peakLeakPoint_top_ranked in Hrun
    as (_ & _ & _ & Hnodup & Hlisted & _). simpl in *.
  split; [done|]. intros e He. rewrite Forall_forall in Hlisted.
  destruct (Hlisted e He) as (k & node & ? & _ & ? & ? & ? & ?).
  exists k, node. done.
Qed.

Lemma leakPoint_entries_are_nodes_witness :
  exists heapMap' pre,
    peakLeakPoint (Sample.engine [90; 10; 30; 20; 30; 50; 5]
                                 [0; 2; 2; 3; 3; 4; 2])
                  0 Sample.seven_nodes (Sample.heapMap_of Sample.seven_nodes)
                  (Some 3)
      = Ok (heapMap', pre) /\
    NoDup (LeakPoint.index <$> Pre.leakPoint pre) /\
    forall e, e ∈ Pre.leakPoint pre ->
      exists (k : nat) node,
        LeakPoint.index e = Z.of_nat k /\
        [90; 10; 30; 20; 30; 50; 5] !! k = Some (LeakPoint.size e) /\
        eligible 0 [0; 2; 2; 3; 3; 4; 2] (Z.of_nat k) = true /\
        Sample.heapMap_of Sample.seven_nodes !! Z.of_nat k = Some node /\
        LeakPoint.id e = Node.id node.
Proof.
  eexists _, _. split; [vm_compute; reflexivity|].
  eapply (leakPoint_entries_are_nodes
            (Sample.engine [90; 10; 30; 20; 30; 50; 5] [0; 2; 2; 3; 3; 4; 2])
            0 Sample.seven_nodes (Sample.heapMap_of Sample.seven_nodes)
            (Some 3)).
  vm_compute. reflexivity.
Defined.

Lemma leak_step_keeps_engine_objects {Statistics Aggregates}
    rootIndex distancesList limit
    (st st1 : gmap Z Node.t * Pre.t Statistics Aggregates) next index :
  leak_step rootIndex distancesList limit st next index = Ok st1 ->
  Pre.statistics st1.2 = Pre.statistics st.2 /\
  Pre.aggregates st1.2 = Pre.aggregates st.2.
Proof.
  destruct st as [heapMap pre], st1 as [heapMap1 pre1]. intros Hstep.
  apply leak_step_Ok in Hstep as (node & _ & _ & Hcases). simpl.
  destruct Hcases as [[_ ->]|[_ Hcases]]; [done|].
  destruct Hcases as [[_ ->]|(_ & kept & smallest & _ & Hcases)]; [done|].
  by destruct Hcases as [[_ ->]|[_ ->]].
Qed.

Lemma fetchHeapUsage_report_annotated {Statistics Aggregates}
    (new_JSHeapSnapshot :
       HeapData -> HeapSnapshotWorker.JSHeapSnapshot Statistics Aggregates)
    (heapData : HeapData) (limit : option Z)
    (r : Report.t Statistics Aggregates) :
  fetchHeapUsage new_JSHeapSnapshot heapData limit = Ok r ->
  exists g,
    handleHeapData heapData = Ok g /\
    Report.rootIndex r = rootIndex g /\
    Report.statistics r
      = HeapSnapshotWorker._statistics (new_JSHeapSnapshot heapData) /\
    Report.aggregates r
      = HeapSnapshotWorker._aggregates_allObjects
          (new_JSHeapSnapshot heapData) /\
    (forall k : nat,
        (k < length (HeapSnapshotWorker._retainedSizes
                       (new_JSHeapSnapshot heapData)))%nat ->
        is_Some (heapMap g !! Z.of_nat k)) /\
    forall key,
      Report.heapMap r !! key =
        annotated (heapMap g)
                  (HeapSnapshotWorker._retainedSizes
                     (new_JSHeapSnapshot heapData))
                  (HeapSnapshotWorker._nodeDistances
                     (new_JSHeapSnapshot heapData)) key.
Proof.
  intros Hrun. unfold fetchHeapUsage in Hrun.
  apply bind_Ok in Hrun as (g & Hg & Hrun).
  apply bind_Ok in Hrun as (st' & Hrank & Hrun).
  injection Hrun as <-. simpl. exists g. split; [done|]. split; [done|].
  set (snap := new_JSHeapSnapshot heapData) in *.
  assert (Hobjects :
            Pre.statistics st'.2 = HeapSnapshotWorker._statistics snap /\
            Pre.aggregates st'.2
              = HeapSnapshotWorker._aggregates_allObjects snap).
  { unfold peakLeakPoint in Hrank.
    eapply (reduce_invariant _ _
              (fun _ st =>
                 Pre.statistics st.2 = HeapSnapshotWorker._statistics snap /\
                 Pre.aggregates st.2
                   = HeapSnapshotWorker._aggregates_allObjects snap));
      [| |exact Hrank]; [done|].
    intros i st next st1 _ [Hs Ha] Hstep.
    apply leak_step_keeps_engine_objects in Hstep as [-> ->]. done. }
  destruct Hobjects as [Hs Ha]. split; [done|]. split; [done|].
  apply peakLeakPoint_top_ranked in Hrank as (_ & Hmap & Hdom & _).
  split; [exact Hdom|].
  intros key. rewrite Hmap. apply annotated_all.
Qed.

(** X11. What the main entry hands back: when [fetchHeapUsage] returns a
    report, the decoder returned a graph, and the report carries its
    [rootIndex] and the engine's [_statistics] and
    [_aggregates.allObjects] as they were. Its [heapMap] has, under the
    index [k] of each retained size, the node the decoder put there with
    [retainedSize] set to that retained size and [distance] to the
    engine's distance at [k] ([undefined] when the engine gave none),
    every field the decoder wrote being as decoded; under any other key
    it is the decoder's [heapMap]. *)
Theorem fetchHeapUsage_report {Statistics Aggregates}
    (new_JSHeapSnapshot :
       HeapData -> HeapSnapshotWorker.JSHeapSnapshot Statistics Aggregates)
    (heapData : HeapData) (limit : option Z)
    (r : Report.t Statistics Aggregates) :
  let snap := new_JSHeapSnapshot heapData in
  fetchHeapUsage new_JSHeapSnapshot heapData limit = Ok r ->
  exists g,
    handleHeapData heapData = Ok g /\
    Report.rootIndex r = rootIndex g /\
    Report.statistics r = HeapSnapshotWorker._statistics snap /\
    Report.aggregates r = HeapSnapshotWorker._aggregates_allObjects snap /\
    (forall (k : nat) (next : Z),
        HeapSnapshotWorker._retainedSizes snap !! k = Some next ->
        exists n n',
          heapMap g !! Z.of_nat k = Some n /\
          Report.heapMap r !! Z.of_nat k = Some n' /\
          Node.retainedSize n' = Some next /\
          Node.distance n' = HeapSnapshotWorker._nodeDistances snap !! k /\
          same_decoded_fields n n') /\
    (forall key,
        key < 0 \/
        Z.of_nat (length (HeapSnapshotWorker._retainedSizes snap)) <= key ->
        Report.heapMap r !! key = heapMap g !! key).
Proof.
  intros snap Hrun. subst snap.
  apply fetchHeapUsage_report_annotated in Hrun
    as (g & Hg & Hroot & Hs & Ha & Hdom & Hmap).
  exists g. split; [done|]. split; [done|]. split; [done|]. split; [done|].
  split.
  - intros k next Hk.
    destruct (Hdom k (lookup_lt_Some _ _ _ Hk)) as [n Hn].
    exists n, (annotate n next
                 (HeapSnapshotWorker._nodeDistances
                    (new_JSHeapSnapshot heapData) !! k)).
    split; [done|]. split; [|by repeat split].
    rewrite Hmap. unfold annotated, js_get.
    destruct (Z.ltb_spec (Z.of_nat k) 0) as [Hneg|_]; [lia|].
    rewrite Nat2Z.id, Hk, Hn. done.
  - intros key Hkey. rewrite Hmap. unfold annotated, js_get.
    destruct (Z.ltb_spec key 0) as [Hneg|Hpos]; [done|].
    rewrite lookup_ge_None_2 by lia. done.
Qed.

Lemma fetchHeapUsage_report_witness :
  exists r g,
    fetchHeapUsage (Sample.engine [1010; 1000; 1000] [0; 1])
                   Sample.three_nodes (Some 5) = Ok r /\
    handleHeapData Sample.three_nodes = Ok g /\
    Report.rootIndex r = rootIndex g /\
    Report.statistics r = tt /\
    Report.aggregates r = tt /\
    (exists n n',
        heapMap g !! 1 = Some n /\
        Report.heapMap r !! 1 = Some n' /\
        Node.retainedSize n' = Some 1000 /\
        Node.distance n' = Some 1 /\
        same_decoded_fields n n') /\
    (exists n n',
        heapMap g !! 2 = Some n /\
        Report.heapMap r !! 2 = Some n' /\
        Node.retainedSize n' = Some 1000 /\
        Node.distance n' = None /\
        same_decoded_fields n n') /\
    Report.heapMap r !! 3 = heapMap g !! 3.
Proof.
  destruct (fetchHeapUsage (Sample.engine [1010; 1000; 1000] [0; 1])
                           Sample.three_nodes (Some 5)) as [r| |] eqn:Hr;
    [|vm_compute in Hr; discriminate..].
  destruct (fetchHeapUsage_report _ _ _ _ Hr)
    as (g & Hg & Hroot & Hs & Ha & Hnodes & Hrest).
  exists r, g. split; [reflexivity|]. split; [exact Hg|].
  split; [exact Hroot|]. split; [exact Hs|]. split; [exact Ha|].
  split; [exact (Hnodes 1%nat 1000 eq_refl)|].
  split; [exact (Hnodes 2%nat 1000 eq_refl)|].
  apply Hrest. right. simpl. lia.
Defined.

(** X12. The number of candidates returned: as many as passed the filters,
    up to the limit in force ([limit || 5], none when that is
    negative). *)
Theorem leakPoint_length {Statistics Aggregates}
    (new_JSHeapSnapshot :
       HeapData -> HeapSnapshotWorker.JSHeapSnapshot Statistics Aggregates)
    (rootIndex : Z) (heapData : HeapData) (heapMap : gmap Z Node.t)
    (limit : option Z) (heapMap' : gmap Z Node.t)
    (pre : Pre.t Statistics Aggregates) :
  let snap := new_JSHeapSnapshot heapData in
  peakLeakPoint new_JSHeapSnapshot rootIndex heapData heapMap limit
    = Ok (heapMap', pre) ->
  Z.of_nat (length (Pre.leakPoint pre)) =
    Z.min (Z.max 0 (or_default limit 5))
          (Z.of_nat (length (candidates rootIndex
                               (HeapSnapshotWorker._nodeDistances snap)
                               (HeapSnapshotWorker._retainedSizes snap)))).
Proof.
  intros snap Hrun.
  apply (peakLeakPoint_Ok new_JSHeapSnapshot
           (fun i st =>
              within_limit rootIndex
                (HeapSnapshotWorker._nodeDistances snap)
                (or_default limit 5) i st /\
              encounter_or_sorted rootIndex
                (HeapSnapshotWorker._nodeDistances snap)
                (HeapSnapshotWorker._retainedSizes snap)
                (or_default limit 5) i st)) in Hrun.
  - destruct Hrun as [(Hlen & Hmax & _) (_ & Horder & Hsorted)].
    simpl in *. fold snap in Horder, Hsorted.
    rewrite firstn_all in Horder, Hsorted.
    set (seen := candidates rootIndex
                   (HeapSnapshotWorker._nodeDistances snap)
                   (HeapSnapshotWorker._retainedSizes snap)) in *.
    destruct (decide (Z.of_nat (length seen) <= or_default limit 5))
      as [Hfew|Hmany].
    + rewrite <- (Horder Hfew), length_fmap.
      rewrite <- (Horder Hfew), length_fmap in Hfew. lia.
    + destruct (Hsorted ltac:(lia)) as [Hfull _]. lia.
  - intros [hm init] Hnil Hzero. split.
    + unfold within_limit. simpl in *. rewrite Hnil, Hzero. simpl.
      split; [done|]. split; [lia|constructor].
    + unfold encounter_or_sorted. simpl in *. rewrite Hnil, Hzero. simpl.
      split; [done|]. unfold candidates. simpl. split; [done|].
      intros Hneg. split; [lia|constructor].
  - intros i st next st1 Hi [Hw He] Hstep. split.
    + by eapply within_limit_step.
    + by eapply encounter_or_sorted_step.
Qed.

Lemma leakPoint_length_witness :
  exists heapMap' pre,
    peakLeakPoint (Sample.engine [90; 10; 30; 20; 30; 50; 5]
                                 [0; 2; 2; 3; 3; 4; 2])
                  0 Sample.seven_nodes (Sample.heapMap_of Sample.seven_nodes)
                  (Some 3)
      = Ok (heapMap', pre) /\
    Z.of_nat (length (Pre.leakPoint pre)) =
      Z.min (Z.max 0 3)
            (Z.of_nat (length (candidates 0 [0; 2; 2; 3; 3; 4; 2]
                                          [90; 10; 30; 20; 30; 50; 5]))).
Proof.
  eexists _, _. split; [vm_compute; reflexivity|].
  eapply (leakPoint_length
            (Sample.engine [90; 10; 30; 20; 30; 50; 5] [0; 2; 2; 3; 3; 4; 2])
            0 Sample.seven_nodes (Sample.heapMap_of Sample.seven_nodes)
            (Some 3)).
  vm_compute. reflexivity.
Defined.

Lemma peakLeakPoint_not_diverges {Statistics Aggregates}
    (new_JSHeapSnapshot :
       HeapData -> HeapSnapshotWorker.JSHeapSnapshot Statistics Aggregates)
    rootIndex heapData heapMap limit :
  peakLeakPoint new_JSHeapSnapshot rootIndex heapData heapMap limit
    <> Diverges.
Proof. unfold peakLeakPoint, reduce. apply reduce_from_not_diverges. Qed.

(** X13. The engine and the graph must agree on the number of nodes in one
    direction only. For a capture the decoder accepts and a limit in
    force that is positive, the main entry returns a report exactly when
    the engine gives at most one retained size per decoded node; given
    more, it ends in a TypeError (the write to a node that is not in
    [heapMap]). *)
Theorem fetchHeapUsage_returns_iff {Statistics Aggregates}
    (new_JSHeapSnapshot :
       HeapData -> HeapSnapshotWorker.JSHeapSnapshot Statistics Aggregates)
    (heapData : HeapData) (limit : option Z) :
  let retained :=
    HeapSnapshotWorker._retainedSizes (new_JSHeapSnapshot heapData) in
  tables_present heapData ->
  0 < node_fields_length heapData ->
  0 < or_default limit 5 ->
  ((exists r, fetchHeapUsage new_JSHeapSnapshot heapData limit = Ok r) <->
   (length retained <= stride_count heapData)%nat) /\
  ((stride_count heapData < length retained)%nat ->
   fetchHeapUsage new_JSHeapSnapshot heapData limit = TypeError).
Proof.
  intros retained Ht Hw Hlimit.
  destruct (handleHeapData_returns heapData Ht Hw) as [g Hg].
  pose proof (heapArray_length heapData g Hw Hg) as Hcount.
  assert (Hshort : (length retained <= stride_count heapData)%nat ->
                   exists r, fetchHeapUsage new_JSHeapSnapshot heapData limit
                             = Ok r).
  { intros Hle. unfold fetchHeapUsage. rewrite Hg. simpl.
    destruct (peakLeakPoint_returns new_JSHeapSnapshot (rootIndex g) heapData
                (heapMap g) limit) as [st' Hst']; [|done|].
    - intros j Hj. rewrite (heapMap_heapArray heapData g j Hw Hg).
      apply lookup_lt_is_Some_2. fold retained in Hj. lia.
    - rewrite Hst'. simpl. eauto. }
  assert (Hlong : (stride_count heapData < length retained)%nat ->
                  fetchHeapUsage new_JSHeapSnapshot heapData limit
                  = TypeError).
  { intros Hlt. unfold fetchHeapUsage. rewrite Hg. simpl.
    pose proof (peakLeakPoint_not_diverges new_JSHeapSnapshot (rootIndex g)
                  heapData (heapMap g) limit) as Hnd.
    destruct (peakLeakPoint new_JSHeapSnapshot (rootIndex g) heapData
                (heapMap g) limit) as [st'| |] eqn:Hrank; [|done|done].
    exfalso. apply peakLeakPoint_top_ranked in Hrank as (_ & _ & Hdom & _).
    destruct (Hdom (stride_count heapData) Hlt) as [n Hn].
    rewrite (heapMap_heapArray heapData g _ Hw Hg) in Hn.
    apply lookup_lt_Some in Hn. lia. }
  split; [|done]. split; [|done].
  intros [r Hr]. destruct (decide (length retained <= stride_count heapData)%nat)
    as [|Hgt]; [done|].
  rewrite Hlong in Hr by lia. discriminate.
Qed.

Lemma fetchHeapUsage_returns_iff_witness :
  fetchHeapUsage (Sample.engine [1010; 1000; 1000; 7] [0; 1; 2; 2])
                 Sample.three_nodes (Some 5) = TypeError.
Proof.
  apply (fetchHeapUsage_returns_iff
           (Sample.engine [1010; 1000; 1000; 7] [0; 1; 2; 2])
           Sample.three_nodes (Some 5)).
  - split; eexists; reflexivity.
  - reflexivity.
  - reflexivity.
  - vm_compute. lia.
Defined.

Lemma negative_limit_keeps_nothing {Statistics Aggregates}
    (new_JSHeapSnapshot :
       HeapData -> HeapSnapshotWorker.JSHeapSnapshot Statistics Aggregates)
    rootIndex heapData heapMap limit st' :
  let snap := new_JSHeapSnapshot heapData in
  or_default limit 5 < 0 ->
  peakLeakPoint new_JSHeapSnapshot rootIndex heapData heapMap limit = Ok st' ->
  Pre.leakPoint st'.2 = [] /\
  candidates rootIndex (HeapSnapshotWorker._nodeDistances snap)
             (HeapSnapshotWorker._retainedSizes snap) = [].
Proof.
  intros snap Hneg Hrun. subst snap.
  apply (peakLeakPoint_Ok new_JSHeapSnapshot
           (fun i st =>
              Pre.leakPoint st.2 = [] /\ Pre.length st.2 = 0 /\
              candidates rootIndex
                (HeapSnapshotWorker._nodeDistances
                   (new_JSHeapSnapshot heapData))
                (take i (HeapSnapshotWorker._retainedSizes
                           (new_JSHeapSnapshot heapData))) = []))
    in Hrun.
  - destruct Hrun as (Hnil & _ & Hcand).
    rewrite firstn_all in Hcand. done.
  - intros init Hnil Hzero. done.
  - intros i [hm pre] next [hm1 pre1] Hi (Hnil & Hzero & Hcand) Hstep.
    cbn [fst snd] in *. rewrite (candidates_snoc _ _ _ _ _ Hi), Hcand.
    apply leak_step_Ok in Hstep as (node & _ & _ & Hcases).
    destruct Hcases as [[Hel ->]|[_ Hcases]]; [by rewrite Hel|].
    destruct Hcases
      as [[Hroom _]|(_ & kept & smallest & Hsort & _)]; [lia|].
    rewrite Hnil in Hsort. by destruct kept.
Qed.

(** X14. A negative limit makes the ranking throw as soon as a node passes
    the filters (the list to pop from is empty): the call ends in a
    TypeError when some node passes them, and a call that returns
    returns an empty list. *)
Theorem negative_limit_throws {Statistics Aggregates}
    (new_JSHeapSnapshot :
       HeapData -> HeapSnapshotWorker.JSHeapSnapshot Statistics Aggregates)
    (rootIndex : Z) (heapData : HeapData) (heapMap : gmap Z Node.t)
    (limit : option Z) :
  let snap := new_JSHeapSnapshot heapData in
  or_default limit 5 < 0 ->
  (candidates rootIndex (HeapSnapshotWorker._nodeDistances snap)
              (HeapSnapshotWorker._retainedSizes snap) <> [] ->
   peakLeakPoint new_JSHeapSnapshot rootIndex heapData heapMap limit
     = TypeError) /\
  (forall heapMap' pre,
      peakLeakPoint new_JSHeapSnapshot rootIndex heapData heapMap limit
        = Ok (heapMap', pre) ->
      Pre.leakPoint pre = []).
Proof.
  intros snap Hneg. split.
  - intros Hcand.
    pose proof (peakLeakPoint_not_diverges new_JSHeapSnapshot rootIndex
                  heapData heapMap limit) as Hnd.
    destruct (peakLeakPoint new_JSHeapSnapshot rootIndex heapData heapMap
                limit) as [st'| |] eqn:Hrun; [|done|done].
    destruct (negative_limit_keeps_nothing _ _ _ _ _ _ Hneg Hrun) as [_ Hnil].
    done.
  - intros heapMap' pre Hrun.
    destruct (negative_limit_keeps_nothing _ _ _ _ _ _ Hneg Hrun) as [Hnil _].
    done.
Qed.

Lemma negative_limit_throws_witness :
  peakLeakPoint (Sample.engine [1010; 1000; 1000] [0; 1; 2]) 0
                Sample.three_nodes (Sample.heapMap_of Sample.three_nodes)
                (Some (-1))
    = TypeError.
Proof.
  apply (negative_limit_throws
           (Sample.engine [1010; 1000; 1000] [0; 1; 2]) 0
           Sample.three_nodes (Sample.heapMap_of Sample.three_nodes)
           (Some (-1))).
  - reflexivity.
  - vm_compute. discriminate.
Defined.

(** ** Instances of the error cases *)

Lemma missing_node_types_throws_witness :
  handleHeapData Sample.no_node_types = TypeError /\
  fetchHeapUsage (Sample.engine [1010; 1000; 1000] [0; 1; 2])
                 Sample.no_node_types (Some 5) = TypeError.
Proof.
  apply (missing_node_types_throws
           (Sample.engine [1010; 1000; 1000] [0; 1; 2])
           Sample.no_node_types (Some 5)).
  - reflexivity.
  - discriminate.
Defined.

Lemma handleHeapData_diverges_iff_witness :
  handleHeapData Sample.no_node_fields = Diverges.
Proof.
  apply (proj1 (handleHeapData_diverges_iff Sample.no_node_fields)).
  split; [reflexivity|]. split; [discriminate|]. eexists. reflexivity.
Defined.

Lemma missing_edge_types_witness :
  handleHeapData Sample.no_edge_types = TypeError.
Proof.
  apply (proj2 (missing_edge_types Sample.no_edge_types eq_refl)
           ltac:(reflexivity) 0%nat).
  - vm_compute. lia.
  - vm_compute. discriminate.
Defined.

Lemma no_children_after_missing_edge_count_witness :
  exists g n,
    handleHeapData Sample.four_fields = Ok g /\
    heapArray g !! 1%nat = Some n /\
    Node.edge_count n = None /\
    Node.children n = [].
Proof.
  eexists _, _. split; [vm_compute; reflexivity|]. split; [reflexivity|].
  split; [reflexivity|].
  eapply (no_children_after_missing_edge_count Sample.four_fields _ 0%nat).
  - vm_compute. reflexivity.
  - reflexivity.
  - apply Nat.le_succ_diag_r.
  - reflexivity.
Defined.

(** * The adjacency index, exactly *)

Lemma from_ids_of_snoc (pairs : list (string * Edge.t))
    (p : string * Edge.t) (key : string) :
  from_ids_of (pairs ++ [p]) key =
    from_ids_of pairs key
    ++ (if decide (Edge.to_node p.2 = key) then [from_info p.1 p.2] else []).
Proof.
  unfold from_ids_of. rewrite filter_app, fmap_app. f_equal.
  rewrite filter_cons, filter_nil. by case_decide.
Qed.

Lemma to_ids_of_snoc (pairs : list (string * Edge.t))
    (p : string * Edge.t) (key : string) :
  to_ids_of (pairs ++ [p]) key =
    to_ids_of pairs key ++ (if decide (p.1 = key) then [to_info p.2] else []).
Proof.
  unfold to_ids_of. rewrite filter_app, fmap_app. f_equal.
  rewrite filter_cons, filter_nil. by case_decide.
Qed.

Lemma push_from_ids_exact (pf pt : list (string * Edge.t))
    (m : gmap string EdgeEntry) (p : string * Edge.t) :
  exact_for pf pt m ->
  exact_for (pf ++ [p]) pt
            (push_from_ids m (Edge.to_node p.2) (from_info p.1 p.2)).
Proof.
  intros Hm key. specialize (Hm key). rewrite from_ids_of_snoc.
  unfold push_from_ids.
  destruct (decide (Edge.to_node p.2 = key)) as [<-|Hne].
  - destruct (m !! Edge.to_node p.2) as [old|];
      rewrite lookup_insert_eq; simpl; destruct Hm as [-> ->]; done.
  - rewrite app_nil_r.
    destruct (m !! Edge.to_node p.2); by rewrite lookup_insert_ne.
Qed.

Lemma push_to_ids_exact (pf pt : list (string * Edge.t))
    (m : gmap string EdgeEntry) (p : string * Edge.t) :
  exact_for pf pt m ->
  exact_for pf (pt ++ [p]) (push_to_ids m p.1 (to_info p.2)).
Proof.
  intros Hm key. specialize (Hm key). rewrite to_ids_of_snoc.
  unfold push_to_ids.
  destruct (decide (p.1 = key)) as [<-|Hne].
  - destruct (m !! p.1) as [old|];
      rewrite lookup_insert_eq; simpl; destruct Hm as [-> ->]; done.
  - rewrite app_nil_r. destruct (m !! p.1); by rewrite lookup_insert_ne.
Qed.

Lemma record_edge_exact (pairs : list (string * Edge.t)) (desc_id : string)
    (e : Edge.t) (st : list Edge.t * gmap string EdgeEntry) :
  let here st := pairs ++ ((fun e => (desc_id, e)) <$> st.1) in
  exact_for (here st) (here st) st.2 ->
  exact_for (here (record_edge desc_id e st)) (here (record_edge desc_id e st))
            (record_edge desc_id e st).2.
Proof.
  destruct st as [children m]. simpl. intros Hm.
  rewrite fmap_app, app_assoc. simpl.
  apply (push_to_ids_exact _ _ _ (desc_id, e)).
  apply (push_from_ids_exact _ _ _ (desc_id, e)). exact Hm.
Qed.

Lemma edge_loop_exact (heapData : HeapData) (desc_id : string)
    (node_edges : list Z) (pairs : list (string * Edge.t)) fuel i st st' :
  let here st := pairs ++ ((fun e => (desc_id, e)) <$> st.1) in
  exact_for (here st) (here st) st.2 ->
  edge_loop fuel heapData desc_id node_edges i st = Ok st' ->
  exact_for (here st') (here st') st'.2.
Proof.
  intros here Hs Hloop.
  destruct (edge_loop_invariant heapData desc_id node_edges
              (fun _ st => exact_for (here st) (here st) st.2))
    with (fuel := fuel) (i := i) (st := st) (st' := st')
    as (_ & H & _); [|done|done|done].
  clear. intros _ e st Hs _ _. by apply record_edge_exact.
Qed.

Lemma node_loop_exact (heapData : HeapData) fuel i st st' :
  exact_for (graph_pairs (ds_heapArray st)) (graph_pairs (ds_heapArray st))
            (ds_edgesMap st) ->
  node_loop fuel heapData i st = Ok st' ->
  exact_for (graph_pairs (ds_heapArray st')) (graph_pairs (ds_heapArray st'))
            (ds_edgesMap st').
Proof.
  intros Hst Hloop.
  destruct (node_loop_invariant heapData
              (fun _ st =>
                 exact_for (graph_pairs (ds_heapArray st))
                           (graph_pairs (ds_heapArray st)) (ds_edgesMap st)))
    with (fuel := fuel) (i := i) (st := st) (st' := st')
    as (_ & H & _); [|done|done|done].
  clear. intros i st st1 Hs _ Hstep.
  apply node_step_Ok in Hstep
    as (n0 & children & node_edges & Hn0 & _ & Hloop & _ & Harr & _).
  eapply edge_loop_exact with (pairs := graph_pairs (ds_heapArray st))
    in Hloop; [|simpl; by rewrite app_nil_r].
  simpl in Hloop. rewrite Harr. unfold graph_pairs.
  rewrite bind_app. simpl. rewrite app_nil_r. exact Hloop.
Qed.

Lemma handleHeapData_exact (heapData : HeapData) (g : HeapGraph) :
  handleHeapData heapData = Ok g ->
  exact_for (graph_pairs (heapArray g)) (graph_pairs (heapArray g))
            (edgesMap g).
Proof.
  intros Hg.
  apply handleHeapData_Ok in Hg as (st & Hloop & _ & -> & -> & _).
  eapply node_loop_exact with (st := {| ds_offset := Some 0 |});
    [|exact Hloop].
  intros key. simpl. by rewrite lookup_empty.
Qed.

(** X15. [edgesMap] is exactly the index of the decoded edges: under each
    key, [from_ids] lists, in decoding order and one element per edge,
    the edges whose [to_node] is the key, and [to_ids] the edges of the
    nodes whose identity is the key; a key under which both would be
    empty has no entry. *)
Theorem edgesMap_exact (heapData : HeapData) (g : HeapGraph) (key : string) :
  handleHeapData heapData = Ok g ->
  match edgesMap g !! key with
  | Some entry =>
      from_ids entry = from_ids_of (graph_pairs (heapArray g)) key /\
      to_ids entry = to_ids_of (graph_pairs (heapArray g)) key /\
      (from_ids entry <> [] \/ to_ids entry <> [])
  | None =>
      from_ids_of (graph_pairs (heapArray g)) key = [] /\
      to_ids_of (graph_pairs (heapArray g)) key = []
  end.
Proof.
  intros Hg.
  pose proof (handleHeapData_sound heapData g Hg key) as Hsound.
  pose proof (handleHeapData_exact heapData g Hg key) as Hexact.
  destruct (edgesMap g !! key) as [entry|]; [|done].
  destruct Hexact as [Hf Ht]. split; [done|]. split; [done|].
  by destruct (Hsound entry eq_refl) as [Hne _].
Qed.

Lemma edgesMap_exact_witness :
  exists g entry,
    handleHeapData Sample.three_nodes = Ok g /\
    edgesMap g !! "@9" = Some entry /\
    from_ids entry = from_ids_of (graph_pairs (heapArray g)) "@9" /\
    to_ids entry = to_ids_of (graph_pairs (heapArray g)) "@9" /\
    (from_ids entry <> [] \/ to_ids entry <> []).
Proof.
  eexists _, _. split; [vm_compute; reflexivity|].
  split; [vm_compute; reflexivity|].
  pose proof (edgesMap_exact Sample.three_nodes _ "@9"
                ltac:(vm_compute; reflexivity)) as H.
  vm_compute in H. vm_compute. exact H.
Defined.

(** ** Outgoing edges of a node with an identity of its own *)

Lemma to_ids_of_app (p1 p2 : list (string * Edge.t)) (key : string) :
  to_ids_of (p1 ++ p2) key = to_ids_of p1 key ++ to_ids_of p2 key.
Proof. unfold to_ids_of. by rewrite filter_app, fmap_app. Qed.

Lemma to_ids_of_cons (p : string * Edge.t) (pairs : list (string * Edge.t))
    (key : string) :
  to_ids_of (p :: pairs) key =
    (if decide (p.1 = key) then [to_info p.2] else []) ++ to_ids_of pairs key.
Proof. unfold to_ids_of. rewrite filter_cons. by case_decide. Qed.

Lemma to_ids_of_own (owner : string) (children : list Edge.t) :
  to_ids_of ((fun e => (owner, e)) <$> children) owner = to_info <$> children.
Proof.
  induction children as [|e children IH]; [done|].
  rewrite !fmap_cons, to_ids_of_cons, IH. simpl. by rewrite decide_True.
Qed.

Lemma to_ids_of_other (owner key : string) (children : list Edge.t) :
  owner <> key ->
  to_ids_of ((fun e => (owner, e)) <$> children) key = [].
Proof.
  intros Hne. induction children as [|e children IH]; [done|].
  rewrite fmap_cons, to_ids_of_cons, IH. simpl. by rewrite decide_False.
Qed.

Lemma to_ids_of_others (arr : list Node.t) (key : string) :
  Forall (fun B => Node.id B <> key) arr ->
  to_ids_of (graph_pairs arr) key = [].
Proof.
  induction 1 as [|B arr HB _ IH]; [done|].
  unfold graph_pairs. rewrite bind_cons. fold (graph_pairs arr).
  rewrite to_ids_of_app, IH, app_nil_r. by apply to_ids_of_other.
Qed.

Lemma to_ids_of_node (arr : list Node.t) (k : nat) (A : Node.t) :
  arr !! k = Some A ->
  (forall k' B, arr !! k' = Some B -> Node.id B = Node.id A -> k' = k) ->
  to_ids_of (graph_pairs arr) (Node.id A) = to_info <$> Node.children A.
Proof.
  intros Hk Huniq.
  rewrite <- (take_drop_middle arr k A Hk) at 1.
  unfold graph_pairs. rewrite bind_app, bind_cons.
  fold (graph_pairs (take k arr)). fold (graph_pairs (drop (S k) arr)).
  rewrite !to_ids_of_app, to_ids_of_own.
  rewrite !to_ids_of_others; [by rewrite app_nil_r| |].
  - apply Forall_forall. intros B HB Hid.
    apply list_elem_of_lookup in HB as [j Hj]. rewrite lookup_drop in Hj.
    pose proof (Huniq _ _ Hj Hid). lia.
  - apply Forall_forall. intros B HB Hid.
    apply list_elem_of_lookup in HB as [j Hj].
    pose proof (lookup_lt_Some _ _ _ Hj) as Hlt.
    rewrite length_take in Hlt. rewrite lookup_take_lt in Hj by lia.
    pose proof (Huniq _ _ Hj Hid). lia.
Qed.

(** X16. For a node whose identity no other decoded node has, the
    [to_ids] list under its identity is the list of its children, in
    order, one element per child; there is no entry under its identity
    only if it has no children. *)
Theorem to_ids_are_the_children (heapData : HeapData) (g : HeapGraph)
    (k : nat) (A : Node.t) :
  handleHeapData heapData = Ok g ->
  heapArray g !! k = Some A ->
  (forall k' B,
      heapArray g !! k' = Some B -> Node.id B = Node.id A -> k' = k) ->
  match edgesMap g !! Node.id A with
  | Some entry => to_ids entry = to_info <$> Node.children A
  | None => Node.children A = []
  end.
Proof.
  intros Hg Hk Huniq.
  pose proof (handleHeapData_exact heapData g Hg (Node.id A)) as Hexact.
  rewrite (to_ids_of_node _ _ _ Hk Huniq) in Hexact.
  destruct (edgesMap g !! Node.id A) as [entry|].
  - by destruct Hexact as [_ ->].
  - destruct Hexact as [_ Hnil]. by apply fmap_nil_inv in Hnil.
Qed.

Lemma to_ids_are_the_children_witness :
  exists g A entry,
    handleHeapData Sample.three_nodes = Ok g /\
    heapArray g !! 0%nat = Some A /\
    edgesMap g !! Node.id A = Some entry /\
    to_ids entry = to_info <$> Node.children A.
Proof.
  destruct (handleHeapData Sample.three_nodes) as [g| |] eqn:Hg;
    [|vm_compute in Hg; discriminate..].
  assert (Hg' := Hg). vm_compute in Hg'. injection Hg' as Hg'.
  destruct (heapArray g !! 0%nat) as [A|] eqn:HA;
    [|rewrite <- Hg' in HA; vm_compute in HA; discriminate].
  pose proof (to_ids_are_the_children Sample.three_nodes g 0 A Hg HA) as H.
  destruct (edgesMap g !! Node.id A) as [entry|] eqn:He.
  - exists g, A, entry. split; [reflexivity|]. split; [exact HA|].
    split; [exact He|]. apply H.
    intros k' B Hk' Hid. rewrite <- Hg' in HA, Hk'.
    vm_compute in HA. injection HA as <-.
    destruct k' as [|[|[|k']]]; vm_compute in Hk'; [done|..|discriminate];
      injection Hk' as <-; vm_compute in Hid; discriminate.
  - exfalso. rewrite <- Hg' in HA, He. vm_compute in HA.
    injection HA as <-. vm_compute in He. discriminate.
Defined.

(** ** Identities *)

Lemma pretty_N_go_not_u (x : N) (s s' : string) :
  s <> "u" +:+ s' -> pretty_N_go x s <> "u" +:+ s'.
Proof.
  revert s. induction (N.lt_wf_0 x) as [x _ IH]; intros s Hs.
  assert (x = 0 \/ 0 < x)%N as [->|Hx] by lia.
  - by rewrite pretty_N_go_0.
  - rewrite pretty_N_go_step by done. apply IH.
    { by apply N.div_lt. }
    unfold pretty_N_char. by repeat case_match.
Qed.

Lemma pretty_Z_not_undefined (z : Z) : pretty z <> "undefined".
Proof.
  destruct z as [|p|p]; [done| |done].
  unfold pretty, pretty_Z, pretty, pretty_positive, pretty, pretty_N.
  rewrite decide_False by done. by apply pretty_N_go_not_u.
Qed.

Lemma num_to_string_inj (a b : option Z) :
  num_to_string a = num_to_string b -> a = b.
Proof.
  destruct a as [a|], b as [b|]; simpl; intros H.
  - f_equal. by apply (inj pretty).
  - by apply pretty_Z_not_undefined in H.
  - symmetry in H. by apply pretty_Z_not_undefined in H.
  - done.
Qed.

(** X17. The identity of a node determines its address cell: two decoded
    nodes have the same [id] exactly when the cells at column 2 of their
    records are equal (or both missing), and a node's [id] is
    ["@undefined"] exactly when its record has no such cell. *)
Theorem same_id_iff_same_address (heapData : HeapData) (g : HeapGraph)
    (k1 k2 : nat) (n1 n2 : Node.t) :
  handleHeapData heapData = Ok g ->
  heapArray g !! k1 = Some n1 ->
  heapArray g !! k2 = Some n2 ->
  (Node.id n1 = Node.id n2 <->
   node_record heapData k1 !! 2%nat = node_record heapData k2 !! 2%nat) /\
  (Node.id n1 = "@undefined" <-> node_record heapData k1 !! 2%nat = None).
Proof.
  intros Hg H1 H2.
  apply (handleHeapData_decoded_at _ _ _ _ Hg) in H1, H2.
  apply decoded_at_position in H1 as [(_ & _ & Hid1 & _) _].
  apply decoded_at_position in H2 as [(_ & _ & Hid2 & _) _].
  rewrite Hid1, Hid2. split; split.
  - intros H. injection H as H. by apply num_to_string_inj.
  - by intros ->.
  - intros H. injection H as H. by apply (num_to_string_inj _ None).
  - by intros ->.
Qed.

Lemma same_id_iff_same_address_witness :
  exists g n1 n2,
    handleHeapData Sample.three_nodes = Ok g /\
    heapArray g !! 0%nat = Some n1 /\
    heapArray g !! 1%nat = Some n2 /\
    (Node.id n1 = Node.id n2 <->
     node_record Sample.three_nodes 0 !! 2%nat
       = node_record Sample.three_nodes 1 !! 2%nat) /\
    (Node.id n1 = "@undefined" <->
     node_record Sample.three_nodes 0 !! 2%nat = None).
Proof.
  destruct (handleHeapData Sample.three_nodes) as [g| |] eqn:Hg;
    [|vm_compute in Hg; discriminate..].
  assert (Hg' := Hg). vm_compute in Hg'. injection Hg' as Hg'.
  destruct (heapArray g !! 0%nat) as [n1|] eqn:H1;
    [|rewrite <- Hg' in H1; vm_compute in H1; discriminate].
  destruct (heapArray g !! 1%nat) as [n2|] eqn:H2;
    [|rewrite <- Hg' in H2; vm_compute in H2; discriminate].
  exists g, n1, n2. split; [reflexivity|]. split; [exact H1|].
  split; [exact H2|].
  exact (same_id_iff_same_address Sample.three_nodes g 0 1 n1 n2 Hg H1 H2).
Defined.

(** ** A last record cut short *)

Lemma node_record_past_end (heapData : HeapData) (k j : nat) :
  Z.of_nat (length (nodes heapData))
    <= Z.of_nat k * node_fields_length heapData + Z.of_nat j ->
  node_record heapData k !! j = None.
Proof.
  intros Hlen. unfold node_record.
  assert (0 <= node_fields_length heapData)
    by (unfold node_fields_length; lia).
  rewrite js_slice_lookup by nia.
  case_decide; [|done]. apply lookup_ge_None. nia.
Qed.

(** X18. When [nodes] ends in the middle of a record, the cells left over
    still make a node, the last one: its [index] is the number of whole
    records before it, and what it reads past the end of the array is
    [undefined]: its [id] is ["@undefined"] when fewer than three cells
    are left, its [self_size] is [NaN] when fewer than four, it has no
    edge count and no children when fewer than five, and no name when
    only the type cell is left. *)
Theorem partial_last_record (heapData : HeapData) (g : HeapGraph)
    (q : nat) (r : Z) :
  handleHeapData heapData = Ok g ->
  0 < r < node_fields_length heapData ->
  Z.of_nat (length (nodes heapData))
    = Z.of_nat q * node_fields_length heapData + r ->
  length (heapArray g) = S q /\
  exists n,
    heapArray g !! q = Some n /\
    Node.index n = Z.of_nat q /\
    (r <= 1 -> Node.name n = None) /\
    (r <= 2 -> Node.id n = "@undefined") /\
    (r <= 3 -> Node.self_size n = NaN) /\
    (r <= 4 -> Node.edge_count n = None /\ Node.children n = []).
Proof.
  intros Hg Hr Hlen.
  assert (Hw : 0 < node_fields_length heapData) by lia.
  pose proof (heapArray_length heapData g Hw Hg) as Hcount.
  assert (Hstride : stride_count heapData = S q).
  { unfold stride_count. rewrite Hlen.
    replace (Z.of_nat q * node_fields_length heapData + r
             + node_fields_length heapData - 1)
      with ((r - 1) + (Z.of_nat q + 1) * node_fields_length heapData) by ring.
    rewrite Z.div_add by lia. rewrite Z.div_small by lia. lia. }
  rewrite Hstride in Hcount. split; [done|].
  destruct (lookup_lt_is_Some_2 (heapArray g) q) as [n Hn]; [lia|].
  exists n. split; [done|].
  pose proof (handleHeapData_decoded_at _ _ _ _ Hg Hn) as Hdec.
  destruct (decoded_at_position _ _ _ Hdec)
    as [(_ & Hname & Hid & Hsize & Hcount' & _) Hindex].
  split; [by apply Hindex|].
  split; [|split; [|split]]; intros Hle.
  - rewrite Hname, (node_record_past_end heapData q 1) by lia. done.
  - rewrite Hid, (node_record_past_end heapData q 2) by lia. done.
  - rewrite Hsize, (node_record_past_end heapData q 3) by lia. done.
  - assert (Hcell : node_record heapData q !! 4%nat = None)
      by (apply node_record_past_end; lia).
    split; [by rewrite Hcount'|].
    destruct Hdec as (_ & _ & _ & Hch). apply (children_of_nil heapData).
    assert (Hedges : node_edges_of heapData q = []).
    { unfold node_edges_of, edge_span. rewrite Hcell.
      apply js_slice_nan_end. }
    by rewrite Hedges in Hch.
Qed.

Lemma partial_last_record_witness :
  exists g n,
    handleHeapData Sample.ends_mid_record = Ok g /\
    length (heapArray g) = 2%nat /\
    heapArray g !! 1%nat = Some n /\
    Node.index n = 1 /\
    Node.id n = "@undefined" /\
    Node.self_size n = NaN /\
    Node.edge_count n = None /\
    Node.children n = [].
Proof.
  destruct (handleHeapData Sample.ends_mid_record) as [g| |] eqn:Hg;
    [|vm_compute in Hg; discriminate..].
  destruct (partial_last_record Sample.ends_mid_record g 1 2 Hg)
    as (Hlen & n & Hn & Hindex & _ & Hid & Hsize & Hcount);
    [vm_compute; done|reflexivity|].
  exists g, n. split; [reflexivity|]. split; [exact Hlen|].
  split; [exact Hn|]. split; [exact Hindex|].
  split; [apply Hid; lia|]. split; [apply Hsize; lia|]. apply Hcount. lia.
Defined.
